(** * Comic Search: metadata normalisation and linking engine

    A shallow embedding of the parts of the plug-in that normalise ComicVine
    records and keep the graph of notes (issues, people, role concepts)
    consistent.  Two revisions of the plug-in live in the repository:

    - [Revised]: the "enhanced (revised)" plug-in (src/unnamed/part_002), the
      revision that owns the Person / Role-concept engine and that upgrades
      the notes written by the earlier phases;
    - [Phase7]: src/main.ts, the earlier "phase 7" plug-in, of which the
      rate-limited client is embedded here.

    Conventions.  A JavaScript string is a [string]: a sequence of 8-bit
    characters.  Case mapping and white space are those of the ASCII range
    (characters above 127 are neither letters nor white space): on a text of
    ASCII characters they are those of JavaScript.  A JavaScript object used
    as a record or as a map is an association list of its own properties in
    insertion order; where the code indexes an object literal with a string
    that comes from outside, the read goes through [getProperty], which also
    finds what the object inherits from [Object.prototype].  Numbers that
    the code uses as integers (ids, years, milliseconds) are in [Z]. *)

From Stdlib Require Import List String Ascii ZArith Lia Bool Arith Permutation.
From Stdlib Require Import DecimalString.
Import ListNotations.
Open Scope string_scope.
Open Scope nat_scope.
Set Warnings "-register-all".

(* ================================================================= *)
(** ** JavaScript string primitives *)

Module JS.

Definition isWhiteSpace (c : ascii) : bool :=
  let n := nat_of_ascii c in
  ((9 <=? n) && (n <=? 13)) || (n =? 32).

Definition toUpperCaseChar (c : ascii) : ascii :=
  let n := nat_of_ascii c in
  if (97 <=? n) && (n <=? 122) then ascii_of_nat (n - 32) else c.

Definition toLowerCaseChar (c : ascii) : ascii :=
  let n := nat_of_ascii c in
  if (65 <=? n) && (n <=? 90) then ascii_of_nat (n + 32) else c.

Definition isDigit (c : ascii) : bool :=
  let n := nat_of_ascii c in (48 <=? n) && (n <=? 57).

Fixpoint mapChars (f : ascii -> ascii) (s : string) : string :=
  match s with
  | EmptyString => EmptyString
  | String c r => String (f c) (mapChars f r)
  end.

(** [s.toLowerCase()] *)
Definition toLowerCase (s : string) : string := mapChars toLowerCaseChar s.

(** [s.trimStart()] *)
Fixpoint trimStart (s : string) : string :=
  match s with
  | EmptyString => EmptyString
  | String c r => if isWhiteSpace c then trimStart r else s
  end.

(** [s.trimEnd()] *)
Fixpoint trimEnd (s : string) : string :=
  match s with
  | EmptyString => EmptyString
  | String c r =>
      match trimEnd r with
      | EmptyString => if isWhiteSpace c then EmptyString else String c EmptyString
      | r' => String c r'
      end
  end.

(** [s.trim()] *)
Definition trim (s : string) : string := trimEnd (trimStart s).

(** [s.split(sep)] for a one-character separator: never the empty list. *)
Fixpoint split (sep : ascii) (s : string) : list string :=
  match s with
  | EmptyString => [EmptyString]
  | String c r =>
      if Ascii.eqb c sep then EmptyString :: split sep r
      else match split sep r with
           | w :: ws => String c w :: ws
           | [] => [String c EmptyString]
           end
  end.

(** [ws.join(sep)] *)
Fixpoint join (sep : string) (ws : list string) : string :=
  match ws with
  | [] => EmptyString
  | [w] => w
  | w :: rest => w ++ sep ++ join sep rest
  end.

(** [s.replace(/[...]/g, '')]: drop every character of a class. *)
Fixpoint removeChars (cls : ascii -> bool) (s : string) : string :=
  match s with
  | EmptyString => EmptyString
  | String c r => if cls c then removeChars cls r else String c (removeChars cls r)
  end.

(** [w.charAt(0).toUpperCase() + w.slice(1)] *)
Definition capitalize (w : string) : string :=
  match w with
  | EmptyString => EmptyString
  | String c r => String (toUpperCaseChar c) r
  end.

(** The characters of a string, for membership statements. *)
Fixpoint chars (s : string) : list ascii :=
  match s with
  | EmptyString => []
  | String c r => c :: chars r
  end.

(** [!s] on a string: only the empty string is falsy. *)
Definition isEmpty (s : string) : bool :=
  match s with EmptyString => true | _ => false end.

(** [s.includes(t)] and [s.startsWith(t)] *)
Fixpoint startsWith (t s : string) : bool :=
  match t, s with
  | EmptyString, _ => true
  | String a t', String b s' => Ascii.eqb a b && startsWith t' s'
  | String _ _, EmptyString => false
  end.

Fixpoint includes (t s : string) : bool :=
  startsWith t s ||
  match s with
  | EmptyString => false
  | String _ s' => includes t s'
  end.

(** Association lists stand for objects used as maps. *)
Fixpoint lookup {A} (k : string) (o : list (string * A)) : option A :=
  match o with
  | [] => None
  | (k', v) :: rest => if String.eqb k' k then Some v else lookup k rest
  end.

(** [o[k] = v]: an existing key keeps its place, a new key goes last. *)
Fixpoint assign {A} (k : string) (v : A) (o : list (string * A)) : list (string * A) :=
  match o with
  | [] => [(k, v)]
  | (k', v') :: rest =>
      if String.eqb k' k then (k', v) :: rest else (k', v') :: assign k v rest
  end.

(** What an object literal inherits from [Object.prototype]: eleven functions
    and the accessor [__proto__], which gives the prototype itself.  Every one
    of them is truthy, none is a string or an array, none is enumerable. *)
Definition objectPrototype : list string :=
  [ "constructor"; "__defineGetter__"; "__defineSetter__"; "hasOwnProperty";
    "__lookupGetter__"; "__lookupSetter__"; "isPrototypeOf";
    "propertyIsEnumerable"; "toString"; "valueOf"; "__proto__";
    "toLocaleString" ].

(** [o[k]] where [o] is an object literal used as a map and [k] is any
    string: a property of the object itself, else the member of
    [Object.prototype] of that name, else [undefined]. *)
Inductive Property (A : Type) : Type :=
| Own (a : A)
| Inherited (name : string)
| Undefined.
Arguments Own {A} a.
Arguments Inherited {A} name.
Arguments Undefined {A}.

Definition getProperty {A} (k : string) (o : list (string * A)) : Property A :=
  match lookup k o with
  | Some a => Own a
  | None =>
      if existsb (String.eqb k) objectPrototype then Inherited k else Undefined
  end.

End JS.

(* ================================================================= *)
(** ** The revised plug-in: field normaliser (src/unnamed/part_002) *)

Module Revised.
Import JS.

(** *** Sanitisers *)

(** [sanitizeForFileName]: every character of the class
    [< > : double-quote / \ | ? * # ^ [ ]] is removed, then [trim()]. *)
Definition fileNameIllegal (c : ascii) : bool :=
  existsb (Ascii.eqb c)
    ["<"; ">"; ":"; "034"; "/"; "\"; "|"; "?"; "*"; "#"; "^"; "["; "]"]%char.

Definition sanitizeForFileName (name : string) : string :=
  trim (removeChars fileNameIllegal name).

(** [cleanForWikilink]: [text.replace(/[\[\]|#^]/g, '').trim()] *)
Definition wikilinkBreaking (c : ascii) : bool :=
  existsb (Ascii.eqb c) ["["; "]"; "|"; "#"; "^"]%char.

Definition cleanForWikilink (text : string) : string :=
  trim (removeChars wikilinkBreaking text).

(** *** Role to ontology key *)

Definition mapping : list (string * string) :=
  [ ("writer", "writtenBy"); ("script", "writtenBy"); ("editor", "editedBy");
    ("penciler", "penciler"); ("penciller", "penciler"); ("inker", "inker");
    ("colorist", "colorist"); ("letterer", "letterer");
    ("cover artist", "coverArtist"); ("cover", "coverArtist");
    ("artist", "contributedTo"); ("creator", "creator") ].

(** What [mapRoleToOntologyKey] returns: a key, or, for a role that names a
    member of [Object.prototype], that member (the declared type is [string];
    nothing converts the value). *)
Inductive OntologyKey :=
| Key (key : string)
| Member (name : string).

(** [mapping[roleLower] || 'contributedTo'] *)
Definition mapRoleToOntologyKey (role : string) : OntologyKey :=
  let roleLower := trim (toLowerCase role) in
  match getProperty roleLower mapping with
  | Own key => if isEmpty key then Key "contributedTo" else Key key
  | Inherited name => Member name
  | Undefined => Key "contributedTo"
  end.

(** The property name a value of [mapRoleToOntologyKey] becomes when it
    indexes an object: a key is its own name; a member is converted to a
    string, the source text of a native function as V8 prints it, or
    [[object Object]] for the prototype. *)
Definition memberText (name : string) : string :=
  if String.eqb name "__proto__" then "[object Object]"
  else "function " ++ (if String.eqb name "constructor" then "Object" else name)
       ++ "() { [native code] }".

Definition propertyKey (k : OntologyKey) : string :=
  match k with
  | Key key => key
  | Member name => memberText name
  end.

(** The semantic keys an issue header can carry for its credits. *)
Definition ontologyKeys : list string :=
  [ "writtenBy"; "editedBy"; "penciler"; "inker"; "colorist"; "letterer";
    "coverArtist"; "creator"; "contributedTo" ].

(** *** Role split and canonicalisation (in [processIssueData]) *)

(** [credit.role.split(',').map(r => r.trim().split(' ')
      .map(w => w.charAt(0).toUpperCase() + w.slice(1)).join(' '))] *)
Definition roles (role : string) : list string :=
  map (fun r => join " " (map capitalize (split " " (trim r)))) (split "," role).

(** The roles one credit is filed under: [if (!role) return] drops the
    empty ones. *)
Definition canonicalizeRole (role : string) : list string :=
  filter (fun r => negb (isEmpty r)) (roles role).

(** [creators: Record<string, string[]>], filled credit by credit.  [None]
    is the [TypeError] of [creators[role].includes] when [creators[role]] is
    a member of [Object.prototype], which has no such method. *)
Definition fileUnder (name : string) (creators : list (string * list string))
    (role : string) : option (list (string * list string)) :=
  if isEmpty role then Some creators
  else match getProperty role creators with
       | Undefined => Some (assign role [name] creators)
       | Own people =>
           if existsb (String.eqb name) people then Some creators
           else Some (assign role (people ++ [name])%list creators)
       | Inherited _ => None
       end.

(** [roles.forEach(...)] and the [forEach] over the credits: the first
    exception ends the loop. *)
Fixpoint fileUnderAll (name : string) (roles : list string)
    (creators : list (string * list string)) : option (list (string * list string)) :=
  match roles with
  | [] => Some creators
  | role :: rest =>
      match fileUnder name creators role with
      | Some creators' => fileUnderAll name rest creators'
      | None => None
      end
  end.

Definition processCredit (creators : list (string * list string))
    (credit : string * string) : option (list (string * list string)) :=
  let '(name, role) := credit in
  fileUnderAll name (roles role) creators.

(** *** Dates *)

(** What [getUTCFullYear], [getUTCMonth] and [getUTCDate] read from a valid
    [Date]. *)
Record UTCDate := { utcFullYear : Z; utcMonth : Z; utcDate : Z }.

Definition digit (c : ascii) : Z := Z.of_nat (nat_of_ascii c) - 48.

(** [/^\d{4}$/] and [/^\d{4}-\d{2}$/] *)
Definition matchesYear (s : string) : bool :=
  match s with
  | String a (String b (String c (String d EmptyString))) =>
      isDigit a && isDigit b && isDigit c && isDigit d
  | _ => false
  end.

Definition matchesYearMonth (s : string) : bool :=
  match s with
  | String a (String b (String c (String d (String h (String m (String n EmptyString)))))) =>
      isDigit a && isDigit b && isDigit c && isDigit d && Ascii.eqb h "-"
      && isDigit m && isDigit n
  | _ => false
  end.

Definition yearOf (s : string) : Z :=
  match s with
  | String a (String b (String c (String d _))) =>
      (1000 * digit a + 100 * digit b + 10 * digit c + digit d)%Z
  | _ => 0%Z
  end.

Definition monthOf (s : string) : Z :=
  match s with
  | String _ (String _ (String _ (String _ (String _ (String m (String n _)))))) =>
      (10 * digit m + digit n)%Z
  | _ => 0%Z
  end.

(** [new Date(dateString)], [None] for an invalid date.  The date-only forms
    [YYYY] and [YYYY-MM] of the ECMAScript date-time string format are read
    here (UTC, first day of the period; a month outside 01..12 is invalid).
    Every other string is left to [hostParse], the engine's own parser. *)
Definition newDate (hostParse : string -> option UTCDate) (s : string)
    : option UTCDate :=
  if matchesYear s then
    Some {| utcFullYear := yearOf s; utcMonth := 0; utcDate := 1 |}
  else if matchesYearMonth s then
    if ((1 <=? monthOf s) && (monthOf s <=? 12))%Z then
      Some {| utcFullYear := yearOf s; utcMonth := monthOf s - 1; utcDate := 1 |}
    else None
  else hostParse s.

Record DateTimeInfo := {
  value : option string;
  year : option Z;
  month : option Z;
  day : option Z
}.

Definition parseCreatorDate (hostParse : string -> option UTCDate)
    (dateString : option string) : option DateTimeInfo :=
  match dateString with
  | None => None
  | Some s =>
      if isEmpty s then None
      else match newDate hostParse s with
           | Some date =>
               let y := utcFullYear date in
               if (y <? 100)%Z then
                 Some {| value := Some s; year := None; month := None; day := None |}
               else
                 let m := (utcMonth date + 1)%Z in
                 let d := utcDate date in
                 if matchesYear s then
                   Some {| value := Some s; year := Some y; month := None; day := None |}
                 else if matchesYearMonth s then
                   Some {| value := Some s; year := Some y; month := Some m; day := None |}
                 else
                   Some {| value := Some s; year := Some y; month := Some m; day := Some d |}
           | None =>
               Some {| value := Some s; year := None; month := None; day := None |}
           end
  end.

End Revised.

(* ================================================================= *)
(** ** The rate-limited client ([ComicVineClient.rateLimitedFetch])

    Time is the millisecond clock [Date.now()].  One call is described by
    what the outside world does to it: when it starts, how late the spacing
    timer fires, when (if ever) the caller's [AbortSignal] fires, and what
    [requestUrl] answers. *)

Module Client.

Record ComicVineClient := {
  lastRequestTime : Z;
  rateLimitDelay : Z
}.

(** What [requestUrl] does: it resolves with a response, or it throws an
    error that may carry an HTTP status. *)
Inductive Reply :=
| Response (status : Z) (json : string)
| RequestError (status : option Z) (message : string).

Record Call := {
  start : Z;
  late : Z;
  abortAt : option Z;
  reply : Reply
}.

Inductive Outcome :=
| Returned (json : string)
| Thrown (message : string).

(** How a call ends: what the caller gets, the client it leaves behind, when
    [requestUrl] was called (if it was), and when the call was rejected
    without a request (if it was). *)
Record Settled := {
  outcome : Outcome;
  client : ComicVineClient;
  dispatchedAt : option Z;
  rejectedAt : option Z
}.

Definition showZ (n : Z) : string :=
  DecimalString.NilEmpty.string_of_int (Z.to_int n).

(** The delay handed to [setTimeout]: [rateLimitDelay - timeSinceLastRequest]
    when [timeSinceLastRequest < rateLimitDelay], no timer otherwise. *)
Definition spacingDelay (c : ComicVineClient) (now : Z) : option Z :=
  let timeSinceLastRequest := (now - lastRequestTime c)%Z in
  if (timeSinceLastRequest <? rateLimitDelay c)%Z
  then Some (rateLimitDelay c - timeSinceLastRequest)%Z
  else None.

(** When the code after the spacing delay runs. *)
Definition resumesAt (c : ComicVineClient) (k : Call) : Z :=
  match spacingDelay c (start k) with
  | Some delay => (start k + delay + late k)%Z
  | None => start k
  end.

End Client.

(** *** src/main.ts *)

Module Phase7.
Import Client.

(** [signal.aborted] at time [t]. *)
Definition aborted (k : Call) (t : Z) : bool :=
  match abortAt k with
  | Some a => (a <=? t)%Z
  | None => false
  end.

(** The ['abort'] listener runs if the signal fires after the listener was
    added and before the timer resolves the promise. *)
Definition abortedWhileWaiting (c : ComicVineClient) (k : Call) : option Z :=
  match spacingDelay c (start k), abortAt k with
  | Some _, Some a =>
      if ((start k <=? a) && (a <? resumesAt c k))%Z then Some a else None
  | _, _ => None
  end.

Definition rateLimitedFetch (c : ComicVineClient) (k : Call) : Settled :=
  match abortedWhileWaiting c k with
  | Some a =>
      {| outcome := Thrown "Request aborted"; client := c;
         dispatchedAt := None; rejectedAt := Some a |}
  | None =>
      let t := resumesAt c k in
      if aborted k t then
        {| outcome := Thrown "Request aborted"; client := c;
           dispatchedAt := None; rejectedAt := Some t |}
      else
        let c' := {| lastRequestTime := t; rateLimitDelay := rateLimitDelay c |} in
        match reply k with
        | Response _ json =>
            {| outcome := Returned json; client := c';
               dispatchedAt := Some t; rejectedAt := None |}
        | RequestError (Some status) message =>
            {| outcome :=
                 Thrown (if (status =? 0)%Z
                         then "API request failed: " ++ message
                         else "API request failed: Status " ++ showZ status);
               client := c'; dispatchedAt := Some t; rejectedAt := None |}
        | RequestError None message =>
            {| outcome := Thrown ("API request failed: " ++ message);
               client := c'; dispatchedAt := Some t; rejectedAt := None |}
        end
  end.

End Phase7.

(** *** src/unnamed/part_002 *)

Module RevisedClient.
Import Client.

(** The [abortSignal] argument is accepted and never read. *)
Definition rateLimitedFetch (c : ComicVineClient) (k : Call) : Settled :=
  let t := resumesAt c k in
  let c' := {| lastRequestTime := t; rateLimitDelay := rateLimitDelay c |} in
  match reply k with
  | Response status json =>
      {| outcome :=
           if (status =? 200)%Z then Returned json
           else Thrown ("ComicVine API request failed with status " ++ showZ status);
         client := c'; dispatchedAt := Some t; rejectedAt := None |}
  | RequestError _ message =>
      {| outcome := Thrown message; client := c';
         dispatchedAt := Some t; rejectedAt := None |}
  end.

(** [this.lastRequestTime] as a call that begins at [now] reads it.  The
    field is written when a request is sent, with the time at which it is
    sent; [sent] holds the requests of the calls that began earlier.  What is
    read is the latest of those sent by [now], and what the client held
    before the calls when none was sent yet.  (A call that begins in the
    millisecond in which a request is sent begins after it.) *)
Definition lastRequestAt (c : ComicVineClient) (sent : list Z) (now : Z) : Z :=
  match filter (fun t => (t <=? now)%Z) sent with
  | [] => lastRequestTime c
  | t :: rest => fold_left Z.max rest t
  end.

(** Calls through one client, in the order in which they begin; nothing
    keeps a call from beginning while earlier ones are still in their delay.
    Each call reads the field when it begins and writes it after its delay:
    the times at which [requestUrl] is called, call by call. *)
Fixpoint dispatchesAfter (c : ComicVineClient) (sent : list Z) (calls : list Call)
    : list Z :=
  match calls with
  | [] => []
  | k :: rest =>
      let seen := {| lastRequestTime := lastRequestAt c sent (start k);
                     rateLimitDelay := rateLimitDelay c |} in
      match dispatchedAt (rateLimitedFetch seen k) with
      | Some t => t :: dispatchesAfter c (t :: sent) rest
      | None => dispatchesAfter c sent rest
      end
  end.

Definition dispatches (c : ComicVineClient) (calls : list Call) : list Z :=
  dispatchesAfter c [] calls.

End RevisedClient.

(* ================================================================= *)
(** ** The document store and structured headers *)

Module Store.
Import JS.

(** A value of a structured header, as [parseYaml] returns it. *)
Inductive yaml :=
| YNull
| YBool (b : bool)
| YNum (n : Z)
| YStr (s : string)
| YList (items : list yaml)
| YObj (fields : list (string * yaml)).

Definition Frontmatter := list (string * yaml).

(** Modelled from the spec: the text of a note, in the form the structured
    header serialisation of section 6 gives it (Obsidian's [parseYaml] and
    [stringifyYaml] are not part of the repository).  [WithHeader fm rest] is
    the text made of a delimiter line, the header that reads back as [fm], the
    closing delimiter and then [rest]; [Bare text] is a text in which
    [parseFrontmatter] finds no header it can read. *)
Inductive NoteText :=
| Bare (text : string)
| WithHeader (fm : Frontmatter) (rest : string).

(** Modelled from the spec: the document store of section 6 (Obsidian's
    vault): folders, notes and binary files by path, in listing order. *)
Inductive Entry :=
| Folder
| Note (text : NoteText)
| Binary (data : string).

Definition Vault := list (string * Entry).

(** [!v] is false *)
Definition truthy (v : yaml) : bool :=
  match v with
  | YNull => false
  | YBool b => b
  | YNum n => negb (n =? 0)%Z
  | YStr s => negb (isEmpty s)
  | YList _ => true
  | YObj _ => true
  end.

(** [!o[k]] for a key that may be missing *)
Definition falsy (o : option yaml) : bool :=
  match o with
  | None => true
  | Some v => negb (truthy v)
  end.

(** [o[k] === s] and [o[k] === n] *)
Definition isStr (o : option yaml) (s : string) : bool :=
  match o with
  | Some (YStr t) => String.eqb t s
  | _ => false
  end.

Definition isNum (o : option yaml) (n : Z) : bool :=
  match o with
  | Some (YNum m) => (m =? n)%Z
  | _ => false
  end.

(** [String(v)], the key of the default [sort()] *)
Fixpoint toStringYaml (v : yaml) : string :=
  match v with
  | YNull => "null"
  | YBool true => "true"
  | YBool false => "false"
  | YNum n => Client.showZ n
  | YStr s => s
  | YList items =>
      join "," (map (fun x => match x with
                              | YNull => EmptyString
                              | _ => toStringYaml x
                              end) items)
  | YObj _ => "[object Object]"
  end.

Fixpoint insertSorted (x : yaml) (l : list yaml) : list yaml :=
  match l with
  | [] => [x]
  | y :: rest =>
      if String.leb (toStringYaml x) (toStringYaml y) then x :: l
      else y :: insertSorted x rest
  end.

(** [items.sort()]: by string value, equal keys keep their order. *)
Definition sortItems (items : list yaml) : list yaml :=
  fold_right insertSorted [] items.

(** Array methods called on a header value: [None] is the [TypeError] of
    calling a method the value does not have. *)
Definition jsIncludes (v : yaml) (s : string) : option bool :=
  match v with
  | YList items => Some (existsb (fun x => isStr (Some x) s) items)
  | YStr t => Some (includes s t)
  | _ => None
  end.

Definition jsPush (v : yaml) (x : yaml) : option yaml :=
  match v with
  | YList items => Some (YList (items ++ [x])%list)
  | _ => None
  end.

Definition jsSort (v : yaml) : option yaml :=
  match v with
  | YList items => Some (YList (sortItems items))
  | _ => None
  end.

(** [credits.some(c => c.role === role && c.work === work)]: reading a
    property of [null] throws; any other non-object has no such property. *)
Fixpoint someCredit (role work : string) (items : list yaml) : option bool :=
  match items with
  | [] => Some false
  | YNull :: _ => None
  | YObj o :: rest =>
      if isStr (lookup "role" o) role && isStr (lookup "work" o) work
      then Some true
      else someCredit role work rest
  | _ :: rest => someCredit role work rest
  end.

Definition jsSomeCredit (v : yaml) (role work : string) : option bool :=
  match v with
  | YList items => someCredit role work items
  | _ => None
  end.

(** Paths: [file.name], [file.basename] and the folder a path lies in. *)
Definition fileName (path : string) : string :=
  last (split "/" path) EmptyString.

Definition baseName (path : string) : string :=
  let name := fileName path in
  match split "." name with
  | [_] | [] => name
  | parts => join "." (removelast parts)
  end.

Definition parentPath (path : string) : string :=
  join "/" (removelast (split "/" path)).

(** [vault.getAbstractFileByPath(path)] *)
Definition getAbstractFileByPath (v : Vault) (path : string) : option Entry :=
  lookup path v.

Definition isTFile (e : Entry) : bool :=
  match e with
  | Folder => false
  | _ => true
  end.

(** [metadataCache.getFileCache(file)?.frontmatter], the header the store
    has read from a note. *)
Definition cachedHeader (e : Entry) : option Frontmatter :=
  match e with
  | Note (WithHeader fm _) => Some fm
  | _ => None
  end.

(** [parseFrontmatter]: the pattern lets the white space after the closing
    delimiter go, the body starts at the first character that is not white
    space; a text without a readable header is all body. *)
Definition parseFrontmatter (content : NoteText) : Frontmatter * string :=
  match content with
  | Bare text => ([], text)
  | WithHeader fm rest => (fm, trimStart rest)
  end.

(** [buildFrontmatter]: no key, no header; otherwise the header, the closing
    delimiter, a line break and [body.trimStart()]. *)
Definition buildFrontmatter (fm : Frontmatter) (body : string) : NoteText :=
  match fm with
  | [] => Bare (trimStart body)
  | _ => WithHeader fm (String "010" (trimStart body))
  end.

End Store.

(* ================================================================= *)
(** ** The identity resolver and upsert engine (src/unnamed/part_002) *)

Module Engine.
Import JS Store Revised.

Record ComicSearchSettings := {
  comicsFolder : string;
  peopleFolder : string;
  createCreatorNotes : bool;
  downloadCreatorImages : bool;
  creatorImagesFolder : string
}.

(** [ComicVinePerson]; [death] holds [death.date], [image] holds
    [image.super_url]. *)
Record ComicVinePerson := {
  person_id : Z;
  person_name : string;
  birth : option string;
  death : option string;
  site_detail_url : string;
  image : option string
}.

(** One element of [ComicVineIssue.person_credits]. *)
Record PersonCredit := {
  credit_id : Z;
  credit_name : string;
  credit_role : string;
  api_detail_url : string
}.

(** One value of the [uniqueCreators] map. *)
Record Creator := {
  creator_id : Z;
  creator_name : string;
  creator_url : string;
  creator_roles : list string
}.

(** What the engine asks of the outside world: the clock, reading by
    reading ([new Date().toISOString()]); the person detail request of the
    client ([None] when it throws); the image request; the engine's parser of
    the dates that are not in a date-only form. *)
Record Host := {
  toISOString : nat -> string;
  getPersonDetails : string -> option ComicVinePerson;
  requestImage : string -> option string;
  hostParse : string -> option UTCDate
}.

Record World := {
  vault : Vault;
  readings : nat
}.

(** An asynchronous step: it returns, it throws, or it has not come back
    within the fuel it was given. *)
Inductive Result (A : Type) : Type :=
| Ok (a : A) (w : World)
| Throw (error : string) (w : World)
| OutOfFuel.
Arguments Ok {A} a w.
Arguments Throw {A} error w.
Arguments OutOfFuel {A}.

Definition M (A : Type) : Type := World -> Result A.

Definition ret {A} (a : A) : M A := fun w => Ok a w.

Definition bind {A B} (c : M A) (f : A -> M B) : M B :=
  fun w =>
    match c w with
    | Ok a w' => f a w'
    | Throw e w' => Throw e w'
    | OutOfFuel => OutOfFuel
    end.

Definition throw {A} (error : string) : M A := fun w => Throw error w.

(** [try { c } catch { handler }] *)
Definition tryCatch {A} (c : M A) (handler : M A) : M A :=
  fun w =>
    match c w with
    | Throw _ w' => handler w'
    | r => r
    end.

Notation "x <- c ;; k" := (bind c (fun x => k))
  (at level 61, c at next level, right associativity).
Notation "c ;;; k" := (bind c (fun _ => k))
  (at level 61, right associativity).

Definition getVault : M Vault := fun w => Ok (vault w) w.

(** [new Date().toISOString()] *)
Definition nowISO (host : Host) : M string :=
  fun w => Ok (toISOString host (readings w))
              {| vault := vault w; readings := S (readings w) |}.

Fixpoint foldM {A S} (f : S -> A -> M S) (l : list A) (s : S) : M S :=
  match l with
  | [] => ret s
  | x :: rest => s' <- f s x ;; foldM f rest s'
  end.

Fixpoint forEachM {A} (f : A -> M unit) (l : list A) : M unit :=
  match l with
  | [] => ret tt
  | x :: rest => f x ;;; forEachM f rest
  end.

(** *** The store's operations *)

Definition addEntry (path : string) (e : Entry) : M unit :=
  fun w => Ok tt {| vault := (vault w ++ [(path, e)])%list; readings := readings w |}.

Definition createFolder (path : string) : M unit :=
  v <- getVault ;;
  match getAbstractFileByPath v path with
  | Some _ => throw "Folder already exists."
  | None => addEntry path Folder
  end.

Definition create (path : string) (content : NoteText) : M string :=
  v <- getVault ;;
  match getAbstractFileByPath v path with
  | Some _ => throw "File already exists."
  | None => addEntry path (Note content) ;;; ret path
  end.

Definition createBinary (path : string) (data : string) : M string :=
  v <- getVault ;;
  match getAbstractFileByPath v path with
  | Some _ => throw "File already exists."
  | None => addEntry path (Binary data) ;;; ret path
  end.

Definition modify (file : string) (content : NoteText) : M unit :=
  fun w =>
    match getAbstractFileByPath (vault w) file with
    | Some (Note _) | Some (Binary _) =>
        Ok tt {| vault := assign file (Note content) (vault w); readings := readings w |}
    | _ => Throw "File does not exist." w
    end.

Definition read (file : string) : M NoteText :=
  v <- getVault ;;
  match getAbstractFileByPath v file with
  | Some (Note text) => ret text
  | Some (Binary data) => ret (Bare data)
  | _ => throw "File does not exist."
  end.

Definition ensureFolderExists (path : string) : M unit :=
  v <- getVault ;;
  match getAbstractFileByPath v path with
  | Some _ => ret tt
  | None => createFolder path
  end.

Section Notes.
Variable settings : ComicSearchSettings.
Variable host : Host.

(** *** Role concepts *)

Definition roleHierarchy : list (string * string) :=
  [ ("Penciler", "Artist"); ("Penciller", "Artist"); ("Inker", "Artist");
    ("Colorist", "Artist"); ("Cover artist", "Artist"); ("Script", "Writer") ].

(** [roleName.charAt(0).toUpperCase() + roleName.slice(1).trim()] *)
Definition capitalizedRole (roleName : string) : string :=
  match roleName with
  | EmptyString => EmptyString
  | String c rest => String (toUpperCaseChar c) (trim rest)
  end.

Definition conceptsFolder : string := comicsFolder settings ++ "/Concepts".

Definition roleFilePath (roleName : string) : string :=
  conceptsFolder ++ "/" ++ sanitizeForFileName (capitalizedRole roleName) ++ " (Role).md".

Definition roleFrontmatter (capitalized now : string) : Frontmatter :=
  [ ("entityType", YStr "RoleConcept");
    ("name", YStr capitalized);
    ("aliases", YList []);
    ("tags", YList [YStr "concept"; YStr "role"]);
    ("creation date", YStr now);
    ("modification date", YStr now);
    ("description", YStr ("A creative role in comic book production: " ++ capitalized)) ].

Definition roleBody (capitalized : string) : string :=
  "# " ++ capitalized ++ String "010" (String "010"
    ("## People with this Role" ++ String "010" (String "010" EmptyString))).

(** [getOrCreateRoleNote], over the table of parent roles it consults.  The
    recursion on the parent role is the source's; [fuel] bounds its depth.
    For a name of a member of [Object.prototype] the parent read from the
    table is that member, not a string: the call made with it throws at
    [roleName.charAt], before it does anything. *)
Fixpoint getOrCreateRoleNoteWith (hierarchy : list (string * string))
    (fuel : nat) (roleName : string) : M string :=
  match fuel with
  | O => fun _ => OutOfFuel
  | S fuel' =>
      let capitalized := capitalizedRole roleName in
      let filepath := roleFilePath roleName in
      ensureFolderExists conceptsFolder ;;;
      v <- getVault ;;
      match getAbstractFileByPath v filepath with
      | Some _ => ret filepath
      | None =>
          now <- nowISO host ;;
          let frontmatter := roleFrontmatter capitalized now in
          frontmatter' <-
            match getProperty capitalized hierarchy with
            | Own parentRoleName =>
                if isEmpty parentRoleName then ret frontmatter
                else
                  parentRoleNote <- getOrCreateRoleNoteWith hierarchy fuel' parentRoleName ;;
                  ret (assign "subConceptOf"
                         (YStr ("[[" ++ baseName parentRoleNote ++ "]]")) frontmatter)
            | Inherited _ => throw "TypeError"
            | Undefined => ret frontmatter
            end ;;
          create filepath (buildFrontmatter frontmatter' (roleBody capitalized))
      end
  end.

(** With the table of the source the recursion is one hop deep: two levels
    are all it can use. *)
Definition getOrCreateRoleNote (roleName : string) : M string :=
  getOrCreateRoleNoteWith roleHierarchy 2 roleName.

(** *** People *)

Definition personFilePath (creatorName : string) : string :=
  peopleFolder settings ++ "/" ++ sanitizeForFileName creatorName ++ ".md".

Definition findPersonNote (v : Vault) (creatorId : Z) (creatorName : string)
    : option string :=
  match getAbstractFileByPath v (peopleFolder settings) with
  | Some Folder =>
      match find (fun pe : string * Entry =>
                    String.eqb (parentPath (fst pe)) (peopleFolder settings)
                    && isTFile (snd pe)
                    && match cachedHeader (snd pe) with
                       | Some fm => isNum (lookup "comicVineId" fm) creatorId
                       | None => false
                       end) v with
      | Some (path, _) => Some path
      | None =>
          let nameBasedPath := personFilePath creatorName in
          match getAbstractFileByPath v nameBasedPath with
          | Some e => if isTFile e then Some nameBasedPath else None
          | None => None
          end
      end
  | _ => None
  end.

(** [c.role.split(',').map(r => r.trim())] *)
Definition splitRoles (role : string) : list string :=
  map trim (split "," role).

(** [uniqueCreators]: one entry per id, in order of first appearance; a later
    credit of the same id only adds its roles. *)
Fixpoint addCreator (c : PersonCredit) (m : list Creator) : list Creator :=
  match m with
  | [] => [ {| creator_id := credit_id c; creator_name := credit_name c;
               creator_url := api_detail_url c;
               creator_roles := splitRoles (credit_role c) |} ]
  | existing :: rest =>
      if (creator_id existing =? credit_id c)%Z then
        {| creator_id := creator_id existing; creator_name := creator_name existing;
           creator_url := creator_url existing;
           creator_roles := (creator_roles existing ++ splitRoles (credit_role c))%list |}
        :: rest
      else existing :: addCreator c rest
  end.

Definition uniqueCreators (creators : list PersonCredit) : list Creator :=
  fold_left (fun m c => addCreator c m) creators [].

(** [new Set(items)]: first occurrences, in order. *)
Definition setOf (items : list string) : list string :=
  fold_left (fun seen x => if existsb (String.eqb x) seen then seen
                           else (seen ++ [x])%list) items [].

(** The header being merged, and the [changed] flag. *)
Definition Draft : Type := Frontmatter * bool.

Definition setWhen (cond : bool) (key : string) (v : yaml) (d : Draft) : Draft :=
  if cond then (assign key v (fst d), true) else d.

Definition field {A} (key : string) (f : A -> yaml) (o : option A)
    : list (string * yaml) :=
  match o with
  | Some a => [(key, f a)]
  | None => []
  end.

Definition dateValue (info : DateTimeInfo) : yaml :=
  YObj (field "value" YStr (value info) ++ field "year" YNum (year info)
        ++ field "month" YNum (month info) ++ field "day" YNum (day info))%list.

Definition setDate (key : string) (dateString : option string) (d : Draft) : Draft :=
  match parseCreatorDate (hostParse host) dateString with
  | Some info => setWhen (falsy (lookup key (fst d))) key (dateValue info) d
  | None => d
  end.

(** The merge of the fetched details into the header, up to the dates. *)
Definition mergeDetails (isNew : bool) (now : string) (p : ComicVinePerson)
    (frontmatter : Frontmatter) : Draft :=
  let d := (frontmatter, false) in
  let d := setWhen (falsy (lookup "entityType" (fst d))
                    || isStr (lookup "entityType" (fst d)) "ComicCreator")
             "entityType" (YStr "Person") d in
  let d := setWhen (falsy (lookup "name" (fst d))) "name" (YStr (person_name p)) d in
  let d := setWhen (falsy (lookup "comicVineId" (fst d))) "comicVineId"
             (YNum (person_id p)) d in
  let d := setWhen (falsy (lookup "comicVineUrl" (fst d))) "comicVineUrl"
             (YStr (site_detail_url p)) d in
  let d := if isNew then
             (assign "creation date" (YStr now)
                (assign "tags" (YList [YStr "person"; YStr "comic-creator"])
                   (assign "aliases" (YList []) (fst d))), true)
           else d in
  let d := (assign "modification date" (YStr now) (fst d), snd d) in
  let d := setDate "birthDate" (birth p) d in
  setDate "deathDate"
    (match death p with
     | Some date => if isEmpty date then None else Some date
     | None => None
     end) d.

(** [downloadImage]: whatever goes wrong inside is caught and gives [null]. *)
Definition downloadImage (url folder name : string) : M (option string) :=
  tryCatch
    (ensureFolderExists folder ;;;
     let safeFileName := sanitizeForFileName name in
     let filePath := folder ++ "/" ++ safeFileName in
     v <- getVault ;;
     match getAbstractFileByPath v filePath with
     | Some (Note _) | Some (Binary _) => ret (Some filePath)
     | _ =>
         match requestImage host url with
         | None => throw "Request failed"
         | Some image_data =>
             newFile <- createBinary filePath image_data ;;
             ret (Some newFile)
         end
     end)
    (ret None).

Definition attachImage (p : ComicVinePerson) (d : Draft) : M Draft :=
  match image p with
  | Some url =>
      if downloadCreatorImages settings && negb (isEmpty url) then
        localImagePath <-
          downloadImage url (creatorImagesFolder settings)
            ("person-" ++ Client.showZ (person_id p) ++ "-photo.jpg") ;;
        match localImagePath with
        | Some path =>
            if negb (isEmpty path) && falsy (lookup "image" (fst d)) then
              v <- getVault ;;
              let shown := match getAbstractFileByPath v path with
                           | Some _ => fileName path
                           | None => "undefined"
                           end in
              ret (assign "image" (YStr ("[[" ++ shown ++ "]]")) (fst d), true)
            else ret d
        | None => ret d
        end
      else ret d
  | None => ret d
  end.

(** [if (!frontmatter[key]) frontmatter[key] = []] *)
Definition orEmptyList (key : string) (frontmatter : Frontmatter) : Frontmatter :=
  if falsy (lookup key frontmatter) then assign key (YList []) frontmatter
  else frontmatter.

(** [if (!frontmatter[key].includes(item)) { frontmatter[key].push(item);
    changed = true }] *)
Definition includeItem (key item : string) (d : Draft) : M Draft :=
  match lookup key (fst d) with
  | None => throw "TypeError"
  | Some v =>
      match jsIncludes v item with
      | None => throw "TypeError"
      | Some true => ret d
      | Some false =>
          match jsPush v (YStr item) with
          | None => throw "TypeError"
          | Some v' => ret (assign key v' (fst d), true)
          end
      end
  end.

Definition creditValue (roleLink issueLink : string) : yaml :=
  YObj [("role", YStr roleLink); ("work", YStr issueLink)].

Definition includeCredit (roleLink issueLink : string) (d : Draft) : M Draft :=
  match lookup "credits" (fst d) with
  | None => throw "TypeError"
  | Some v =>
      match jsSomeCredit v roleLink issueLink with
      | None => throw "TypeError"
      | Some true => ret d
      | Some false =>
          match jsPush v (creditValue roleLink issueLink) with
          | None => throw "TypeError"
          | Some v' => ret (assign "credits" v' (fst d), true)
          end
      end
  end.

(** The body of the loop over [new Set(creator.roles)]. *)
Definition creditRole (issueFile : string) (d : Draft) (roleName : string) : M Draft :=
  if isEmpty roleName then ret d
  else
    roleNote <- getOrCreateRoleNote roleName ;;
    let roleLink := "[[" ++ baseName roleNote ++ "]]" in
    d <- includeItem "roles" roleLink d ;;
    let issueLink := "[[" ++ baseName issueFile ++ "]]" in
    includeCredit roleLink issueLink d.

(** [if (changed) { ... }]: sort the roles, refresh the date, write. *)
Definition writePerson (personFile : option string) (creatorName : string)
    (body : string) (d : Draft) : M unit :=
  if snd d then
    match lookup "roles" (fst d) with
    | None => throw "TypeError"
    | Some v =>
        match jsSort v with
        | None => throw "TypeError"
        | Some sorted =>
            now <- nowISO host ;;
            let frontmatter :=
              assign "modification date" (YStr now) (assign "roles" sorted (fst d)) in
            let newContent := buildFrontmatter frontmatter body in
            match personFile with
            | Some file => modify file newContent
            | None => create (personFilePath creatorName) newContent ;;; ret tt
            end
        end
    end
  else ret tt.

(** The body of the loop over [uniqueCreators.values()]. *)
Definition processCreator (issueFile : string) (creator : Creator) : M unit :=
  v <- getVault ;;
  let personFile := findPersonNote v (creator_id creator) (creator_name creator) in
  parsed <-
    match personFile with
    | Some file => text <- read file ;; ret (parseFrontmatter text)
    | None =>
        ret ([], "# " ++ creator_name creator ++ String "010" (String "010" EmptyString))
    end ;;
  let '(frontmatter, body) := parsed in
  match getPersonDetails host (creator_url creator) with
  | None => ret tt
  | Some personDetails =>
      now <- nowISO host ;;
      let d := mergeDetails (match personFile with None => true | Some _ => false end)
                 now personDetails frontmatter in
      d <- attachImage personDetails d ;;
      let d := (orEmptyList "tags" (orEmptyList "credits" (orEmptyList "roles" (fst d))),
                snd d) in
      d <- includeItem "tags" "person" d ;;
      d <- includeItem "tags" "comic-creator" d ;;
      d <- foldM (creditRole issueFile) (setOf (creator_roles creator)) d ;;
      writePerson personFile (creator_name creator) body d
  end.

Definition ensureCreatorNotesExist (creators : list PersonCredit) (issueFile : string)
    : M unit :=
  if negb (createCreatorNotes settings) || match creators with [] => true | _ => false end
  then ret tt
  else
    ensureFolderExists (peopleFolder settings) ;;;
    forEachM (processCreator issueFile) (uniqueCreators creators).

End Notes.
End Engine.
(* ================================================================= *)
(** ** More JavaScript string and object primitives

    The replacements below are [String.prototype.replace] with a global
    pattern and a replacement text that holds no [$]. *)

Module Text.
Import JS.

Definition dquote : ascii := "034"%char.
Definition lineFeed : ascii := "010"%char.

(** [[A-Z]] and [[a-z]] *)
Definition isUpper (c : ascii) : bool :=
  let n := nat_of_ascii c in (65 <=? n) && (n <=? 90).

Definition isLower (c : ascii) : bool :=
  let n := nat_of_ascii c in (97 <=? n) && (n <=? 122).

(** [s.includes(c)] for one character *)
Definition has (c : ascii) (s : string) : bool := existsb (Ascii.eqb c) (chars s).

(** [s.endsWith(t)] *)
Fixpoint endsWith (t s : string) : bool :=
  String.eqb t s ||
  match s with
  | EmptyString => false
  | String _ s' => endsWith t s'
  end.

(** [c.repeat(n)] and [s.padStart(n, c)] for a one-character filler *)
Fixpoint repeatChar (n : nat) (c : ascii) : string :=
  match n with
  | O => EmptyString
  | S m => String c (repeatChar m c)
  end.

Definition padStart (n : nat) (c : ascii) (s : string) : string :=
  repeatChar (n - String.length s) c ++ s.

(** [w.charAt(0).toLowerCase() + w.slice(1)] *)
Definition uncapitalize (w : string) : string :=
  match w with
  | EmptyString => EmptyString
  | String c r => String (toLowerCaseChar c) r
  end.

(** [s.replace(/c/g, rep)]: every occurrence of one character. *)
Fixpoint replaceChar (c : ascii) (rep : string) (s : string) : string :=
  match s with
  | EmptyString => EmptyString
  | String d r =>
      if Ascii.eqb d c then rep ++ replaceChar c rep r
      else String d (replaceChar c rep r)
  end.

(** [s.replace(/[class]+/g, rep)]: every maximal run of characters of the
    class becomes one [rep], written where the run ends. *)
Definition startsIn (cls : ascii -> bool) (s : string) : bool :=
  match s with
  | EmptyString => false
  | String d _ => cls d
  end.

Fixpoint replaceRuns (cls : ascii -> bool) (rep : string) (s : string) : string :=
  match s with
  | EmptyString => EmptyString
  | String c r =>
      if cls c then
        if startsIn cls r then replaceRuns cls rep r
        else rep ++ replaceRuns cls rep r
      else String c (replaceRuns cls rep r)
  end.

(** [s.replace(/^[class]+/, '')] and [s.replace(/[class]+$/, '')] *)
Fixpoint dropLeading (cls : ascii -> bool) (s : string) : string :=
  match s with
  | EmptyString => EmptyString
  | String c r => if cls c then dropLeading cls r else s
  end.

Fixpoint dropTrailing (cls : ascii -> bool) (s : string) : string :=
  match s with
  | EmptyString => EmptyString
  | String c r =>
      match dropTrailing cls r with
      | EmptyString => if cls c then EmptyString else String c EmptyString
      | r' => String c r'
      end
  end.

(** [s.replace(/^[class]/, '')] and [s.replace(/[class]$/, '')]: one
    character at most. *)
Definition dropFirstIf (cls : ascii -> bool) (s : string) : string :=
  match s with
  | EmptyString => EmptyString
  | String c r => if cls c then r else s
  end.

Fixpoint dropLastIf (cls : ascii -> bool) (s : string) : string :=
  match s with
  | EmptyString => EmptyString
  | String c EmptyString => if cls c then EmptyString else s
  | String c r => String c (dropLastIf cls r)
  end.

(** [s.replace(/<[^>]*>/g, rep)].  A [<] opens a match when a [>] comes after
    it, and the match ends at the first such [>]; [inTag] says that the scan is
    inside a match. *)
Fixpoint replaceTags (rep : string) (inTag : bool) (s : string) : string :=
  match s with
  | EmptyString => EmptyString
  | String c r =>
      if inTag then
        if Ascii.eqb c ">" then rep ++ replaceTags rep false r
        else replaceTags rep true r
      else if Ascii.eqb c "<" && has ">" r then replaceTags rep true r
      else String c (replaceTags rep false r)
  end.

(** [s.replace(/\n\s*\n/g, '\n\n')].  A line feed opens a match when the white
    space that follows it holds another line feed; the match then runs to the
    last line feed of that white space ([\s*] is greedy and gives back as
    little as it must). *)
Fixpoint lineFeedAhead (s : string) : bool :=
  match s with
  | EmptyString => false
  | String c r => isWhiteSpace c && (Ascii.eqb c lineFeed || lineFeedAhead r)
  end.

Fixpoint collapseBlankLines (inMatch : bool) (s : string) : string :=
  match s with
  | EmptyString => EmptyString
  | String c r =>
      if inMatch then
        if Ascii.eqb c lineFeed && negb (lineFeedAhead r)
        then String lineFeed (String lineFeed (collapseBlankLines false r))
        else collapseBlankLines true r
      else if Ascii.eqb c lineFeed && lineFeedAhead r then collapseBlankLines true r
      else String c (collapseBlankLines false r)
  end.

(** [s.replace(/\[\[|\]\]/g, '')] *)
Fixpoint removeBracketPairs (s : string) : string :=
  match s with
  | EmptyString => EmptyString
  | String c r =>
      match r with
      | String d r' =>
          if (Ascii.eqb c "[" && Ascii.eqb d "[") || (Ascii.eqb c "]" && Ascii.eqb d "]")
          then removeBracketPairs r'
          else String c (removeBracketPairs r)
      | EmptyString => s
      end
  end.

(** [indexOf]: the first position of an item, [None] for [-1]. *)
Fixpoint indexOf (x : string) (l : list string) : option nat :=
  match l with
  | [] => None
  | y :: rest =>
      if String.eqb y x then Some 0
      else match indexOf x rest with
           | Some i => Some (S i)
           | None => None
           end
  end.

(** [items.sort(compare)]: the order every sort gives when [compare] is a
    consistent comparator; items that compare equal keep their order. *)
Fixpoint insertWith {A} (compare : A -> A -> Z) (x : A) (l : list A) : list A :=
  match l with
  | [] => [x]
  | y :: rest =>
      if (compare x y <=? 0)%Z then x :: l else y :: insertWith compare x rest
  end.

Definition sortWith {A} (compare : A -> A -> Z) (items : list A) : list A :=
  fold_right (insertWith compare) [] items.

(** [items.sort()] on strings: by code units. *)
Definition sortStrings (items : list string) : list string :=
  sortWith (fun a b => if String.leb a b then (-1)%Z else 1%Z) items.

(** [new Set(items)] read back in order, and [set.add(x)] *)
Definition setAdd (seen : list string) (x : string) : list string :=
  if existsb (String.eqb x) seen then seen else (seen ++ [x])%list.

(** The keys of an object in the order [for ... in] and [Object.keys] give
    them: the array indices (canonical numerals below 2^32 - 1) in ascending
    order, then the other keys as they were added. *)
Definition digitsValue (s : string) : N :=
  fold_left (fun acc c => (acc * 10 + (N_of_ascii c - 48))%N) (chars s) 0%N.

Definition arrayIndex (k : string) : option N :=
  match k with
  | EmptyString => None
  | String c r =>
      if forallb isDigit (chars k) && (negb (Ascii.eqb c "0") || isEmpty r) then
        if (digitsValue k <? 4294967295)%N then Some (digitsValue k) else None
      else None
  end.

Definition isArrayIndex (k : string) : bool :=
  match arrayIndex k with
  | Some _ => true
  | None => false
  end.

Definition indexValue (k : string) : Z :=
  match arrayIndex k with
  | Some n => Z.of_N n
  | None => 0%Z
  end.

Definition ownKeys {A} (o : list (string * A)) : list string :=
  let keys := map fst o in
  (sortWith (fun a b => (indexValue a - indexValue b)%Z) (filter isArrayIndex keys)
   ++ filter (fun k => negb (isArrayIndex k)) keys)%list.

End Text.

(* ================================================================= *)
(** ** The revised plug-in: the issue note (src/unnamed/part_002) *)

Module Generator.
Import JS Text Store Revised Engine.

(** [sanitizeForTag]:
    [text.replace(/[^a-zA-Z0-9-]/g, '').replace(/\s+/g, '-').toLowerCase()] *)
Definition tagChar (c : ascii) : bool :=
  isLower c || isUpper c || isDigit c || Ascii.eqb c "-".

Definition sanitizeForTag (text : string) : string :=
  toLowerCase
    (replaceRuns isWhiteSpace "-" (removeChars (fun c => negb (tagChar c)) text)).

(** [cleanDescription]:
    [desc.replace(/<[^>]*>/g, '\n').replace(/\n\s*\n/g, '\n\n').trim()] *)
Definition cleanDescription (desc : string) : string :=
  trim (collapseBlankLines false (replaceTags (String lineFeed EmptyString) false desc)).

(** [quoteYamlString]: [None] is [null] or [undefined]. *)
Definition reservedWords : list string := ["true"; "false"; "null"].

Definition needsQuotes (strValue : string) : bool :=
  existsb (fun c => Ascii.eqb c "#" || Ascii.eqb c ":") (chars strValue)
  || existsb (String.eqb (toLowerCase strValue)) reservedWords.

Definition escapeQuotes (s : string) : string :=
  replaceChar dquote (String "\" (String dquote EmptyString)) s.

Definition quoteYamlString (value : option string) : string :=
  match value with
  | None => EmptyString
  | Some strValue =>
      if needsQuotes strValue
      then String dquote (escapeQuotes strValue ++ String dquote EmptyString)
      else strValue
  end.

(** [sortRoles], over the [localeCompare] of the engine. *)
Definition order : list string :=
  [ "Writer"; "Script"; "Creator"; "Penciler"; "Artist"; "Inker"; "Colorist";
    "Letterer"; "Editor"; "Cover Artist" ].

Definition sortRoles (localeCompare : string -> string -> Z) (a b : string) : Z :=
  match indexOf a order, indexOf b order with
  | Some indexA, Some indexB => (Z.of_nat indexA - Z.of_nat indexB)%Z
  | Some _, None => (-1)%Z
  | None, Some _ => 1%Z
  | None, None => localeCompare a b
  end.

(** [ComicVineIssue] and [ComicVineVolume], the fields the plug-in reads, with
    their declared types.  [issue_image] and [volume_image] hold
    [image?.super_url], [issue_volume_id] holds [volume.id], [publisher_name]
    holds [publisher?.name]; the credits of characters and story arcs are kept
    by name, and a missing list of credits is the empty list. *)
Record ComicVineIssue := {
  issue_id : Z;
  issue_name : string;
  issue_number : string;
  cover_date : string;
  store_date : string;
  issue_description : string;
  issue_deck : string;
  issue_image : option string;
  issue_volume_id : Z;
  person_credits : list PersonCredit;
  character_credits : list string;
  story_arc_credits : list string;
  issue_site_detail_url : string
}.

Record ComicVineVolume := {
  volume_id : Z;
  volume_name : string;
  publisher_name : option string;
  volume_image : option string
}.

Record ComicIssueData := {
  issue : ComicVineIssue;
  volume : ComicVineVolume;
  publisher : string;
  creators : list (string * list string);
  characters : list string;
  storyArcs : list string;
  coverUrl : option string;
  deck : string;
  comicVineUrl : string
}.

(** [a || b] on optional strings: the empty string is falsy. *)
Definition orElse (a b : option string) : option string :=
  match a with
  | Some s => if isEmpty s then b else a
  | None => b
  end.

Definition orText (a : option string) (b : string) : string :=
  match a with
  | Some s => if isEmpty s then b else s
  | None => b
  end.

(** [processIssueData]; [None] is the [TypeError] thrown while the credits
    are filed. *)
Fixpoint groupCreditsFrom (credits : list PersonCredit)
    (creators : list (string * list string)) : option (list (string * list string)) :=
  match credits with
  | [] => Some creators
  | credit :: rest =>
      match processCredit creators (credit_name credit, credit_role credit) with
      | Some creators' => groupCreditsFrom rest creators'
      | None => None
      end
  end.

Definition groupCredits (credits : list PersonCredit)
    : option (list (string * list string)) :=
  groupCreditsFrom credits [].

Definition processIssueData (issue : ComicVineIssue) (volume : ComicVineVolume)
    (localCoverPath : option string) : option ComicIssueData :=
  match groupCredits (person_credits issue) with
  | None => None
  | Some creators =>
      Some {| issue := issue;
              volume := volume;
              publisher := orText (publisher_name volume) "Unknown Publisher";
              creators := creators;
              characters := character_credits issue;
              storyArcs := story_arc_credits issue;
              coverUrl := orElse localCoverPath (issue_image issue);
              deck := issue_deck issue;
              comicVineUrl := issue_site_detail_url issue |}
  end.

(** [generateFileName] *)
Definition generateFileName (data : ComicIssueData) : string :=
  let vol := sanitizeForFileName (volume_name (volume data)) in
  let num := padStart 3 "0" (issue_number (issue data)) in
  vol ++ " #" ++ num ++ ".md".

(** [parseComicDate].  [localDate] is [new Date(dateString)] read in the
    time zone of the machine, [None] for an invalid date. *)
Record LocalDate := { getFullYear : Z; getMonth : Z; getDate : Z }.

Definition parseComicDate (localDate : string -> option LocalDate) (dateString : string)
    : yaml :=
  if isEmpty dateString then YNull
  else match localDate dateString with
       | None => YObj [("value", YStr dateString)]
       | Some date =>
           YObj [ ("value", YStr dateString);
                  ("year", YNum (getFullYear date));
                  ("month", YNum (getMonth date + 1));
                  ("day", YNum (getDate date)) ]
       end.

Definition wikilink (text : string) : string := "[[" ++ cleanForWikilink text ++ "]]".

(** The loop over [creators] in [generateIssueYAML]: the people of every role
    go to the set of the role's key.  What indexes [ontologyCreators] is the
    property name of the value [mapRoleToOntologyKey] returned; no such name
    is the name of a member of [Object.prototype], so what is read there is
    the object's own. *)
Definition addPeople (ontologyCreators : list (string * list string))
    (creators : list (string * list string)) (role : string)
    : list (string * list string) :=
  let ontologyKey := propertyKey (mapRoleToOntologyKey role) in
  let ontologyCreators :=
    match lookup ontologyKey ontologyCreators with
    | Some _ => ontologyCreators
    | None => assign ontologyKey [] ontologyCreators
    end in
  fold_left
    (fun oc person =>
       match lookup ontologyKey oc with
       | Some people => assign ontologyKey (setAdd people (wikilink person)) oc
       | None => oc
       end)
    (match lookup role creators with Some people => people | None => [] end)
    ontologyCreators.

Definition ontologyCreators (creators : list (string * list string))
    : list (string * list string) :=
  fold_left (fun oc role => addPeople oc creators role) (ownKeys creators) [].

Definition setCreators (frontmatter : Frontmatter) (oc : list (string * list string))
    : Frontmatter :=
  fold_left
    (fun fm key =>
       match lookup key oc with
       | Some people => assign key (YList (map YStr people)) fm
       | None => fm
       end)
    (sortStrings (ownKeys oc)) frontmatter.

(** The settings the issue importer reads besides those of the creator
    engine. *)
Record IssueSettings := {
  defaultPageCount : Z;
  enableReadingTracker : bool;
  downloadComicImages : bool;
  comicImagesFolder : string
}.

(** What the issue importer asks of the outside world besides [host]: the two
    detail requests of the client ([None] when the call throws), the dates in
    local time, and the collation of the engine. *)
Record Catalogue := {
  getIssueDetails : Z -> option ComicVineIssue;
  getVolumeDetails : Z -> option ComicVineVolume;
  localDate : string -> option LocalDate;
  localeCompare : string -> string -> Z
}.

Section Notes.
Variable settings : ComicSearchSettings.
Variable host : Host.
Variable more : IssueSettings.
Variable catalogue : Catalogue.

(** [generateIssueYAML]; the one [new Date()] is read from the clock. *)
Definition generateIssueYAML (data : ComicIssueData) (coverLink : string)
    : M Frontmatter :=
  now <- nowISO host ;;
  let frontmatter : Frontmatter :=
    [ ("entityType", YStr "ComicIssue");
      ("name", YStr (volume_name (volume data) ++ " #" ++ issue_number (issue data)));
      ("aliases", YList (if isEmpty (issue_name (issue data)) then []
                         else [YStr (issue_name (issue data))]));
      ("tags", YList [ YStr "comic-issue"; YStr (sanitizeForTag (publisher data));
                       YStr (sanitizeForTag (volume_name (volume data))) ]);
      ("creation date", YStr now);
      ("modification date", YStr now);
      ("volume", YStr ("[[" ++ cleanForWikilink (volume_name (volume data))
                       ++ " (Compilation).md|"
                       ++ cleanForWikilink (volume_name (volume data)) ++ "]]"));
      ("issueNumber", YStr (quoteYamlString (Some (issue_number (issue data)))));
      ("publisher", YStr (wikilink (publisher data)));
      ("coverDate", parseComicDate (localDate catalogue) (cover_date (issue data)));
      ("storeDate", parseComicDate (localDate catalogue) (store_date (issue data)));
      ("comicVineId", YStr (Client.showZ (issue_id (issue data))));
      ("comicVineUrl", YStr (comicVineUrl data));
      ("coverUrl", YStr coverLink) ] in
  let frontmatter :=
    if isEmpty (deck data) then frontmatter
    else (frontmatter ++ [("description", YStr (quoteYamlString (Some (deck data))))])%list in
  let frontmatter :=
    if enableReadingTracker more then
      assign "lastRead" YNull
        (assign "percentComplete" (YNum 0)
           (assign "currentPage" (YNum 0)
              (assign "pages" (YNum (defaultPageCount more)) frontmatter)))
    else frontmatter in
  let frontmatter := setCreators frontmatter (ontologyCreators (creators data)) in
  let frontmatter :=
    match characters data with
    | [] => frontmatter
    | cs => assign "features" (YList (map (fun c => YStr (wikilink c)) cs)) frontmatter
    end in
  let frontmatter :=
    match storyArcs data with
    | [] => frontmatter
    | arcs => assign "partOfStoryArc" (YList (map (fun a => YStr (wikilink a)) arcs))
                frontmatter
    end in
  ret frontmatter.

(** [generateIssueMarkdown] *)
Definition lf : string := String lineFeed EmptyString.

Definition teamLines (creators : list (string * list string)) (role : string) : string :=
  String.concat EmptyString
    (map (fun person => "- **" ++ role ++ ":** " ++ wikilink person ++ lf)
       (match lookup role creators with Some people => people | None => [] end)).

Definition generateIssueMarkdown (data : ComicIssueData) : string :=
  let i := issue data in
  let content := "## " ++ volume_name (volume data) ++ " #" ++ issue_number i ++ lf in
  let content :=
    if negb (isEmpty (issue_name i))
       && negb (String.eqb (issue_name i) (volume_name (volume data)))
    then content ++ "*" ++ issue_name i ++ "*" ++ lf ++ lf
    else content ++ lf in
  let content := content ++ "**Published:** " ++ cover_date i in
  let content :=
    if isEmpty (publisher data) then content
    else content ++ " by " ++ wikilink (publisher data) in
  let content := content ++ lf ++ lf in
  let content :=
    match ownKeys (creators data) with
    | [] => content
    | keys =>
        content ++ "### Creative Team" ++ lf
        ++ String.concat EmptyString
             (map (teamLines (creators data))
                (sortWith (sortRoles (localeCompare catalogue)) keys))
        ++ lf
    end in
  let content :=
    match characters data with
    | [] => content
    | cs =>
        content ++ "### Characters" ++ lf
        ++ String.concat EmptyString (map (fun c => "- " ++ wikilink c ++ lf) cs)
        ++ lf
    end in
  let content :=
    match storyArcs data with
    | [] => content
    | arcs =>
        content ++ "### Story Arc" ++ lf
        ++ String.concat EmptyString (map (fun a => "- Part of: " ++ wikilink a ++ lf) arcs)
        ++ lf
    end in
  let content :=
    if negb (isEmpty (issue_description i)) then
      content ++ "### Description" ++ lf ++ cleanDescription (issue_description i)
      ++ lf ++ lf
    else if negb (isEmpty (issue_deck i)) then
      content ++ "### Description" ++ lf ++ issue_deck i ++ lf ++ lf
    else content in
  content ++ "### Reading Notes" ++ lf ++ "*Add your thoughts here...*"
  ++ lf ++ lf.

(** [generateIssueNoteContent]: the header that [stringifyYaml] writes, the
    closing delimiter, then the cover and the text. *)
Definition generateIssueNoteContent (data : ComicIssueData) : M NoteText :=
  let cover := match coverUrl data with Some url => url | None => EmptyString end in
  let coverIsLocal := negb (isEmpty cover) && negb (startsWith "http" cover) in
  let coverLink := if coverIsLocal then "[[" ++ fileName cover ++ "]]" else cover in
  frontmatter <- generateIssueYAML data coverLink ;;
  let coverEmbed :=
    if coverIsLocal then "![[" ++ fileName cover ++ "|150]]"
    else if isEmpty cover then EmptyString
    else "![cover|150](" ++ cover ++ ")" in
  let content := generateIssueMarkdown data in
  ret (WithHeader frontmatter
         (lf ++ lf ++ coverEmbed ++ lf ++ lf ++ content)).

(** [createIssueNote]: everything runs inside one [try]; the [catch] tells
    the user and returns. *)
Definition issueFolder (targetFolder : option string) : string :=
  orText targetFolder (comicsFolder settings).

Definition issueFilePath (data : ComicIssueData) (targetFolder : option string) : string :=
  issueFolder targetFolder ++ "/" ++ generateFileName data.

Definition fetchCover (detailedIssue : ComicVineIssue) : M (option string) :=
  match issue_image detailedIssue with
  | Some url =>
      if downloadComicImages more && negb (isEmpty url) then
        downloadImage host url (comicImagesFolder more)
          ("issue-" ++ Client.showZ (issue_id detailedIssue) ++ "-cover.jpg")
      else ret None
  | None => ret None
  end.

Definition createIssueNote (issue : ComicVineIssue) (targetFolder : option string)
    : M unit :=
  tryCatch
    (match getIssueDetails catalogue (issue_id issue) with
     | None => throw "ComicVine API error"
     | Some detailedIssue =>
         match getVolumeDetails catalogue (issue_volume_id issue) with
         | None => throw "ComicVine API error"
         | Some volume =>
             localCoverPath <- fetchCover detailedIssue ;;
             match processIssueData detailedIssue volume localCoverPath with
             | None => throw "TypeError"
             | Some data =>
                 noteContent <- generateIssueNoteContent data ;;
                 ensureFolderExists (issueFolder targetFolder) ;;;
                 let filePath := issueFilePath data targetFolder in
                 v <- getVault ;;
                 match getAbstractFileByPath v filePath with
                 | Some _ => ret tt
                 | None =>
                     file <- create filePath noteContent ;;
                     if createCreatorNotes settings then
                       ensureCreatorNotesExist settings host
                         (person_credits detailedIssue) file
                     else ret tt
                 end
             end
         end
     end)
    (ret tt).

End Notes.
End Generator.

(* ================================================================= *)
(** ** The earlier plug-in: its note generator (src/main.ts) *)

Module Phase7Generator.
Import JS Text.

(** [cleanForWikilink]: six steps, in this order.  Tags ([/<[^>]*>/g]) are
    removed; one quote character (double or single) is removed at the start
    and one at the end; every [|] becomes [ - ]; every pair of opening or of
    closing square brackets is removed; every run of white space becomes one
    space; [trim()]. *)
Definition isQuote (c : ascii) : bool := Ascii.eqb c dquote || Ascii.eqb c "'".

Definition cleanForWikilink (text : string) : string :=
  trim
    (replaceRuns isWhiteSpace " "
       (removeBracketPairs
          (replaceChar "|" " - "
             (dropLastIf isQuote (dropFirstIf isQuote (replaceTags EmptyString false text)))))).

(** [quoteYamlString]; [None] is [null] or [undefined]. *)
Definition special (c : ascii) : bool :=
  existsb (Ascii.eqb c)
    [ ":"; "["; "]"; "{"; "}"; "|"; ">"; "@"; "`"; dquote; "'"; "\"; "#"; "&"; "*";
      "!"; "?"; "-"; "%" ]%char.

Fixpoint endsIn (cls : ascii -> bool) (s : string) : bool :=
  match s with
  | EmptyString => false
  | String c EmptyString => cls c
  | String _ r => endsIn cls r
  end.

Definition reservedWords : list string := ["true"; "false"; "null"; "yes"; "no"].

(** [needsQuoting]: the value holds a character of the class [special], or
    starts or ends with white space, or starts with a hyphen or a digit, or
    is a reserved word in any case. *)
Definition needsQuoting (value : string) : bool :=
  existsb special (chars value)
  || startsIn isWhiteSpace value
  || endsIn isWhiteSpace value
  || startsIn (Ascii.eqb "-") value
  || startsIn isDigit value
  || existsb (String.eqb (toLowerCase value)) reservedWords.

Definition quoteYamlString (value : option string) : string :=
  match value with
  | None => String dquote (String dquote EmptyString)
  | Some value =>
      if negb (needsQuoting value) && negb (startsWith "[[" value) then value
      else if has lineFeed value then
        String "|" (String lineFeed ("  " ++ join (String lineFeed "  ") (split lineFeed value)))
      else
        String dquote
          (replaceChar dquote (String "\" (String dquote EmptyString))
             (replaceChar "\" (String "\" (String "\" EmptyString)) value)
           ++ String dquote EmptyString)
  end.

(** [formatWikilink] *)
Definition formatWikilink (text : string) : string :=
  if isEmpty text then String dquote (String dquote EmptyString)
  else quoteYamlString (Some ("[[" ++ cleanForWikilink text ++ "]]")).

(** [sanitizeForTag]:
    [text.replace(/[^a-zA-Z0-9\s-]/g, '').replace(/\s+/g, '-').toLowerCase()
         .replace(/^-+|-+$/g, '').replace(/-+/g, '-') || 'unknown'] *)
Definition tagOrSpace (c : ascii) : bool :=
  isLower c || isUpper c || isDigit c || isWhiteSpace c || Ascii.eqb c "-".

Definition isHyphen (c : ascii) : bool := Ascii.eqb c "-".

Definition sanitizeForTag (text : string) : string :=
  let kept := removeChars (fun c => negb (tagOrSpace c)) text in
  let hyphened := toLowerCase (replaceRuns isWhiteSpace "-" kept) in
  let stripped := dropTrailing isHyphen (dropLeading isHyphen hyphened) in
  let tag := replaceRuns isHyphen "-" stripped in
  if isEmpty tag then "unknown" else tag.

(** [generateFileName], on the volume name and the issue number.  Its
    [sanitize] removes the characters [< > : double-quote / \ | ? *], turns
    every run of white space into one space and trims. *)
Definition fileNameIllegal (c : ascii) : bool :=
  existsb (Ascii.eqb c) ["<"; ">"; ":"; dquote; "/"; "\"; "|"; "?"; "*"]%char.

Definition sanitize (str : string) : string :=
  trim (replaceRuns isWhiteSpace " " (removeChars fileNameIllegal str)).

Definition generateFileName (volumeName issueNumber : string) : string :=
  sanitize volumeName ++ " #" ++ padStart 3 "0" (sanitize issueNumber) ++ ".md".

(** The roles of one credit in [processIssueData]:
    [credit.role.split(',').map(r => r.trim())], the empty ones dropped, each
    one lower-cased and then capitalised word by word. *)
Definition canonical (singleRole : string) : string :=
  join " " (map capitalize (split " " (toLowerCase singleRole))).

Definition canonicalizeRole (role : string) : list string :=
  map canonical
    (filter (fun singleRole => negb (isEmpty singleRole)) (map trim (split "," role))).

End Phase7Generator.
(* ================================================================= *)
(** ** Vocabulary of the properties *)

Module Props.
Import JS Store Revised Engine.

(** Two strings of the same length whose characters are related one by one. *)
Fixpoint pointwise (R : ascii -> ascii -> Prop) (s t : string) : Prop :=
  match s, t with
  | EmptyString, EmptyString => True
  | String c s', String d t' => R c d /\ pointwise R s' t'
  | _, _ => False
  end.

(** What capitalising can do to one character. *)
Definition capitalised (c d : ascii) : Prop :=
  d = c \/ d = toUpperCaseChar c.

(** A string that [trim()] leaves alone: it neither starts nor ends with
    white space. *)
Definition startsClean (s : string) : Prop := trimStart s = s.
Definition endsClean (s : string) : Prop := trimEnd s = s.

(** No character of the string is [c]. *)
Definition lacks (c : ascii) (s : string) : Prop := ~ In c (chars s).

(** Request times that keep their distance: each one at least [delay] after
    the one before it, the first one after [previous]. *)
Fixpoint spacedFrom (delay previous : Z) (times : list Z) : Prop :=
  match times with
  | [] => True
  | t :: rest => (previous + delay <= t)%Z /\ spacedFrom delay t rest
  end.

(** Calls made one after the other: each begins when the request of the one
    before it has been sent, or later. *)
Fixpoint oneAfterAnother (calls : list Client.Call) (times : list Z) : Prop :=
  match calls, times with
  | _ :: ((k :: _) as rest), t :: times' =>
      (t <= Client.start k)%Z /\ oneAfterAnother rest times'
  | _, _ => True
  end.

(** Requests that wait out what is left of the interval, counted from the
    request before: a call that begins less than [delay] after it is sent
    [delay] after it (and as much later as its timer fires late); any other
    call is sent when it begins. *)
Fixpoint waitsOut (delay previous : Z) (calls : list Client.Call) (times : list Z)
    : Prop :=
  match calls, times with
  | [], [] => True
  | k :: rest, t :: times' =>
      t = (if (Client.start k - previous <? delay)%Z
           then previous + delay + Client.late k else Client.start k)%Z
      /\ waitsOut delay t rest times'
  | _, _ => False
  end.

(** The vault once [ensureFolderExists path] has run. *)
Definition withFolder (path : string) (v : Vault) : Vault :=
  match getAbstractFileByPath v path with
  | Some _ => v
  | None => (v ++ [(path, Folder)])%list
  end.

(** Worlds along a role resolution: with the concepts folder in place, after
    one look at the clock, with one more note. *)
Definition inConcepts (settings : ComicSearchSettings) (w : World) : World :=
  {| vault := withFolder (conceptsFolder settings) (vault w); readings := readings w |}.

Definition ticked (w : World) : World :=
  {| vault := vault w; readings := S (readings w) |}.

Definition withNote (path : string) (text : NoteText) (w : World) : World :=
  {| vault := (vault w ++ [(path, Note text)])%list; readings := readings w |}.

(** [roleHierarchy[capitalizedRole]], when it is a role of the table and
    truthy; and the names for which it is a member of [Object.prototype]. *)
Definition parentOf (hierarchy : list (string * string)) (capitalized : string)
    : option string :=
  match lookup capitalized hierarchy with
  | Some parent => if isEmpty parent then None else Some parent
  | None => None
  end.

Definition member (name : string) : bool :=
  existsb (String.eqb name) objectPrototype.

Definition inherits {A} (o : list (string * A)) (name : string) : bool :=
  match lookup name o with
  | Some _ => false
  | None => member name
  end.

(** A step that came back, one way or the other. *)
Definition settles {A} (r : Result A) : Prop := r <> OutOfFuel.

(** A computation that comes back in every world. *)
Definition total {A} (c : M A) : Prop := forall w, settles (c w).

(** A table of parent roles with a cycle, a plug-in configuration and a
    world to try it in. *)
Definition cyclicHierarchy : list (string * string) :=
  [ ("Penciler", "Artist"); ("Artist", "Penciler") ].

Definition sampleSettings : ComicSearchSettings :=
  {| comicsFolder := "Comics"; peopleFolder := "Entities/People";
     createCreatorNotes := true; downloadCreatorImages := false;
     creatorImagesFolder := "Assets/Creators" |}.

Definition sampleHost : Host :=
  {| toISOString := fun n => "2025-01-01T00:00:0" ++ Client.showZ (Z.of_nat n) ++ ".000Z";
     getPersonDetails := fun _ => None;
     requestImage := fun _ => None;
     hostParse := fun _ => None |}.

Definition emptyWorld : World := {| vault := []; readings := 0 |}.

(** *** Person notes *)

Definition headerOf (t : NoteText) : Frontmatter := fst (parseFrontmatter t).
Definition bodyOf (t : NoteText) : string := snd (parseFrontmatter t).

(** The (role, work) pairs of a header's [credits]. *)
Definition creditPair (c : yaml) : list (string * string) :=
  match c with
  | YObj o =>
      match lookup "role" o, lookup "work" o with
      | Some (YStr r), Some (YStr w) => [(r, w)]
      | _, _ => []
      end
  | _ => []
  end.

Definition creditPairs (fm : Frontmatter) : list (string * string) :=
  match lookup "credits" fm with
  | Some (YList items) => flat_map creditPair items
  | _ => []
  end.

(** The keys the engine fills in when they hold no truthy value, and among
    them the three that hold lists. *)
Definition populated (key : string) : bool :=
  existsb (String.eqb key)
    [ "entityType"; "name"; "comicVineId"; "comicVineUrl"; "birthDate";
      "deathDate"; "image"; "roles"; "credits"; "tags" ].

Definition listField (key : string) : bool :=
  existsb (String.eqb key) ["roles"; "credits"; "tags"].

(** What an update does to the fields of a header.  No key is dropped.  The
    modification date is refreshed.  Every other key keeps its value,
    whatever the value is, with three exceptions: one of the keys the engine
    fills in, when what it held was falsy; the entity type [ComicCreator] of
    the earlier plug-in, which becomes [Person]; and a list under [roles],
    [credits] or [tags], which keeps its items and may gain some. *)
Definition keeps (fm fm' : Frontmatter) : Prop :=
  forall key v,
    lookup key fm = Some v ->
    (key = "modification date" /\ lookup key fm' <> None)
    \/ lookup key fm' = Some v
    \/ (populated key = true /\ truthy v = false /\ lookup key fm' <> None)
    \/ (key = "entityType" /\ v = YStr "ComicCreator"
        /\ lookup key fm' = Some (YStr "Person"))
    \/ (listField key = true
        /\ exists items items',
             v = YList items /\ lookup key fm' = Some (YList items')
             /\ incl items items').

(** A list field only gains items. *)
Definition unions (key : string) (fm fm' : Frontmatter) : Prop :=
  forall items,
    lookup key fm = Some (YList items) ->
    exists items', lookup key fm' = Some (YList items') /\ incl items items'.

Definition merged (fm fm' : Frontmatter) : Prop :=
  keeps fm fm'
  /\ unions "roles" fm fm' /\ unions "credits" fm fm' /\ unions "tags" fm fm'
  /\ (NoDup (creditPairs fm) -> NoDup (creditPairs fm')).

(** A later stage of the header being merged: [changed] stays set. *)
Definition draft_le (d d' : Draft) : Prop :=
  merged (fst d) (fst d') /\ (snd d = true -> snd d' = true).

(** An update of a note: a header merged from the old one, then the old body
    from its first character that is not white space. *)
Definition rewritten (old new : NoteText) : Prop :=
  exists fm',
    new = WithHeader fm' (String "010" (trimStart (bodyOf old)))
    /\ merged (headerOf old) fm'.

Definition upserted (old new : NoteText) : Prop :=
  new = old \/ rewritten old new.

(** What [vault.read] gives for a file. *)
Definition textOf (e : Entry) : option NoteText :=
  match e with
  | Note t => Some t
  | Binary d => Some (Bare d)
  | Folder => None
  end.

Definition entry_le (e e' : Entry) : Prop :=
  e' = e
  \/ exists old new, textOf e = Some old /\ e' = Note new /\ rewritten old new.

Definition sameSlot (a b : string * Entry) : Prop :=
  fst a = fst b /\ entry_le (snd a) (snd b).

Definition fresh (pe : string * Entry) : Prop :=
  match snd pe with
  | Note t => NoDup (creditPairs (headerOf t))
  | _ => True
  end.

(** The engine's steps on a vault: entries stay in place and are at most
    updated, new entries come after them. *)
Definition grows (v v' : Vault) : Prop :=
  exists kept added,
    v' = (kept ++ added)%list /\ Forall2 sameSlot v kept /\ Forall fresh added.

Definition isNote (e : Entry) : bool :=
  match e with
  | Note _ => true
  | _ => false
  end.


(** Steps that leave every entry alone and only add new ones. *)
Definition adds (P : string * Entry -> Prop) (v v' : Vault) : Prop :=
  exists added, v' = (v ++ added)%list /\ Forall P added.

Definition notANote (pe : string * Entry) : Prop := isNote (snd pe) = false.





(** The roles of a credited person all have their note. *)
Definition rolesPresent (settings : ComicSearchSettings) (v : Vault) (c : Creator) : Prop :=
  forall roleName,
    In roleName (setOf (creator_roles c)) -> isEmpty roleName = false ->
    getAbstractFileByPath v (conceptsFolder settings) <> None
    /\ getAbstractFileByPath v (roleFilePath settings roleName) <> None.

(** The test [findPersonNote] runs on the children of the people folder. *)
Definition idMatch (settings : ComicSearchSettings) (creatorId : Z)
    (pe : string * Entry) : bool :=
  String.eqb (parentPath (fst pe)) (peopleFolder settings)
  && isTFile (snd pe)
  && match cachedHeader (snd pe) with
     | Some fm => isNum (lookup "comicVineId" fm) creatorId
     | None => false
     end.

(** What one turn of the loop over the creators does when the details of
    the person were fetched: the vault after the images and the roles, then
    the write. *)
Definition personWritten (settings : ComicSearchSettings) (c : Creator)
    (v vm v' : Vault) : Prop :=
  match findPersonNote settings v (creator_id c) (creator_name c) with
  | Some file =>
      v' = vm
      \/ exists e old new,
           getAbstractFileByPath v file = Some e /\ textOf e = Some old
           /\ rewritten old new /\ v' = assign file (Note new) vm
  | None =>
      exists new,
        getAbstractFileByPath vm (personFilePath settings (creator_name c)) = None
        /\ fresh (personFilePath settings (creator_name c), Note new)
        /\ v' = (vm ++ [(personFilePath settings (creator_name c), Note new)])%list
  end.

(** A store with a note written by the earlier plug-in, to which the user
    has added a line, and an import that credits its person. *)
Definition newline : string := String "010" EmptyString.

Definition milgromPath : string := "Entities/People/Al Milgrom.md".

Definition milgromBody : string :=
  newline ++ newline ++ "# Al Milgrom" ++ newline ++ newline ++ "Met him in 1988."
  ++ newline.

Definition milgromNote : NoteText :=
  WithHeader
    [ ("entityType", YStr "ComicCreator"); ("name", YStr "Al Milgrom");
      ("comicVineId", YNum 7); ("comicVineUrl", YStr EmptyString);
      ("modification date", YStr "2024-06-01T10:00:00.000Z");
      ("favorite", YBool false) ]
    milgromBody.

Definition milgromWorld : World :=
  {| vault := [ ("Entities/People", Folder); (milgromPath, Note milgromNote) ];
     readings := 0 |}.

Definition milgromCredits : list PersonCredit :=
  [ {| credit_id := 7; credit_name := "Al Milgrom"; credit_role := "inker";
       api_detail_url := "https://comicvine.gamespot.com/api/person/4040-7/" |} ].





Definition person (id : Z) (name : string) : ComicVinePerson :=
  {| person_id := id; person_name := name; birth := None; death := None;
     site_detail_url := "https://comicvine.gamespot.com/person/4040-"
                        ++ Client.showZ id ++ "/";
     image := None |}.






Definition answeringHost : Host :=
  {| toISOString := toISOString sampleHost;
     getPersonDetails := fun url =>
       Some {| person_id := 7; person_name := "Al Milgrom"; birth := Some "1950-03";
               death := None;
               site_detail_url := "https://comicvine.gamespot.com/al-milgrom/4040-7/";
               image := None |};
     requestImage := fun _ => None;
     hostParse := fun _ => None |}.

End Props.

(* ================================================================= *)
(** ** Vocabulary of the properties of the issue note *)

Module NoteProps.
Import JS Text Store Revised Engine Generator Props.

(** A string in which some [<] is followed, anywhere later, by a [>]: the
    pattern of a tag still matches in it. *)
Fixpoint hasTag (s : string) : bool :=
  match s with
  | EmptyString => false
  | String c r => (Ascii.eqb c "<" && has ">" r) || hasTag r
  end.

(** A text the second replacement of [cleanDescription] has nothing to do
    in: where a line feed has another one in the white space after it, that
    one comes next and is the last of the white space. *)
Fixpoint blankLinesCollapsed (s : string) : bool :=
  match s with
  | EmptyString => true
  | String c r =>
      (negb (Ascii.eqb c lineFeed && lineFeedAhead r)
       || match r with
          | String d r' => Ascii.eqb d lineFeed && negb (lineFeedAhead r')
          | EmptyString => false
          end)
      && blankLinesCollapsed r
  end.

(** A text between double quotes. *)
Definition wrapped (t : string) : string :=
  String dquote (t ++ String dquote EmptyString).

(** A person listed under a role in the [creators] of an issue. *)
Definition listed (creators : list (string * list string)) (role name : string) : Prop :=
  exists people, lookup role creators = Some people /\ In name people.

(** What the grouping keeps: no person twice under a role, no role without
    a person, no role twice. *)
Definition grouped (creators : list (string * list string)) : Prop :=
  (forall role people, lookup role creators = Some people ->
     NoDup people /\ people <> [])
  /\ NoDup (map fst creators).

(** A text of ASCII characters.  On such a text the case maps and the white
    space of the embedding are those of JavaScript; beyond it [toUpperCase]
    can lengthen a text and [trim] knows more white space. *)
Definition asciiText (s : string) : Prop :=
  Forall (fun c => nat_of_ascii c < 128) (chars s).

(** Credits none of whose canonical roles names a member of
    [Object.prototype]; an object none of whose keys does. *)
Definition plainRoles (credits : list PersonCredit) : Prop :=
  forall k role,
    In k credits -> In role (canonicalizeRole (credit_role k)) -> member role = false.

Definition plainKeys {A} (o : list (string * A)) : Prop :=
  forall k, In k (map fst o) -> member k = false.

(** What filing builds when nothing throws: one person under one role, the
    roles of one credit, the credits of an issue. *)
Definition filed (name : string) (creators : list (string * list string))
    (role : string) : list (string * list string) :=
  if isEmpty role then creators
  else match lookup role creators with
       | None => assign role [name] creators
       | Some people =>
           if existsb (String.eqb name) people then creators
           else assign role (people ++ [name])%list creators
       end.

Definition filedCredit (creators : list (string * list string))
    (credit : string * string) : list (string * list string) :=
  fold_left (filed (fst credit)) (roles (snd credit)) creators.

Definition filedCredits (credits : list PersonCredit)
    (creators : list (string * list string)) : list (string * list string) :=
  fold_left filedCredit (map (fun c => (credit_name c, credit_role c)) credits) creators.

(** A creator with more roles, and the creator a first credit makes. *)
Definition withRoles (x : Creator) (extra : list string) : Creator :=
  {| creator_id := creator_id x; creator_name := creator_name x;
     creator_url := creator_url x;
     creator_roles := (creator_roles x ++ extra)%list |}.

Definition fromCredits (k : PersonCredit) (roles : list string) : Creator :=
  {| creator_id := credit_id k; creator_name := credit_name k;
     creator_url := api_detail_url k; creator_roles := roles |}.

(** The roles of all the credits of one id, in the order of the credits. *)
Definition rolesOfId (id : Z) (credits : list PersonCredit) : list string :=
  flat_map (fun k => splitRoles (credit_role k))
    (filter (fun k => (credit_id k =? id)%Z) credits).

(** The people of a role, and the links gathered for an ontology key over
    a list of roles, in the order of the loop of [generateIssueYAML]. *)
Definition peopleOf (creators : list (string * list string)) (role : string)
    : list string :=
  match lookup role creators with
  | Some people => people
  | None => []
  end.

Definition gather (creators : list (string * list string)) (key : string)
    (roles : list string) (init : list string) : list string :=
  fold_left
    (fun acc role =>
       if String.eqb (propertyKey (mapRoleToOntologyKey role)) key
       then fold_left setAdd (map wikilink (peopleOf creators role)) acc
       else acc)
    roles init.

(** What is at a path stays at that path: nothing is deleted or moved. *)
Definition stays (v v' : Vault) : Prop :=
  forall path, getAbstractFileByPath v path <> None -> getAbstractFileByPath v' path <> None.

(** A computation that deletes nothing, whether it returns or throws. *)
Definition keepsPaths {A} (c : M A) : Prop :=
  forall w,
    match c w with
    | Ok _ w' | Throw _ w' => stays (vault w) (vault w')
    | OutOfFuel => True
    end.

(** The path of the note of an issue: the folder, the sanitised name of the
    volume, the number of the issue padded to three characters. *)
Definition issueNotePath (settings : ComicSearchSettings)
    (detailedIssue : ComicVineIssue) (volume : ComicVineVolume)
    (targetFolder : option string) : string :=
  issueFolder settings targetFolder ++ "/"
  ++ sanitizeForFileName (volume_name volume) ++ " #"
  ++ padStart 3 "0" (issue_number detailedIssue) ++ ".md".

(** An issue and its volume as the catalogue answers them, a configuration
    of the issue importer, and a vault that already holds the issue's note. *)
Definition sampleIssue : ComicVineIssue :=
  {| issue_id := 42; issue_name := "The War Begins"; issue_number := "1";
     cover_date := "1984-05-01"; store_date := EmptyString;
     issue_description := EmptyString; issue_deck := EmptyString;
     issue_image := None; issue_volume_id := 9;
     person_credits :=
       [ {| credit_id := 7; credit_name := "Al Milgrom"; credit_role := "inker";
            api_detail_url := "https://comicvine.gamespot.com/api/person/4040-7/" |} ];
     character_credits := []; story_arc_credits := [];
     issue_site_detail_url := "https://comicvine.gamespot.com/secret-wars-1/4000-42/" |}.

Definition sampleVolume : ComicVineVolume :=
  {| volume_id := 9; volume_name := "Secret Wars"; publisher_name := Some "Marvel";
     volume_image := None |}.

Definition sampleCatalogue : Catalogue :=
  {| getIssueDetails := fun id => if (id =? 42)%Z then Some sampleIssue else None;
     getVolumeDetails := fun id => if (id =? 9)%Z then Some sampleVolume else None;
     localDate := fun _ => None;
     localeCompare := fun _ _ => 0%Z |}.

Definition sampleMore : IssueSettings :=
  {| defaultPageCount := 22; enableReadingTracker := true;
     downloadComicImages := false; comicImagesFolder := "Assets/Covers" |}.

Definition importedWorld : World :=
  {| vault := [ ("Comics", Folder);
                ("Comics/Secret Wars #001.md", Note (Bare "My own notes.")) ];
     readings := 0 |}.

End NoteProps.

(* ================================================================= *)
(** ** Vocabulary of the properties of the earlier client *)

Module ClientProps.
Import Client.

(** A sequence of calls through one client of src/main.ts, each begun once
    the one before it has ended: the times at which [requestUrl] is called.
    A call that was aborted sends no request. *)
Fixpoint requests (c : ComicVineClient) (calls : list Call) : list Z :=
  match calls with
  | [] => []
  | k :: rest =>
      let r := Phase7.rateLimitedFetch c k in
      match dispatchedAt r with
      | Some t => t :: requests (client r) rest
      | None => requests (client r) rest
      end
  end.

End ClientProps.
(* ================================================================= *)
(** ** Facts about the string primitives *)

Section StringFacts.
Import JS Props.

Lemma chars_app (a b : string) : chars (a ++ b) = (chars a ++ chars b)%list.
Proof. induction a as [|c a IH]; simpl; [reflexivity | now rewrite IH]. Qed.

Lemma chars_removeChars (cls : ascii -> bool) (s : string) (c : ascii) :
  In c (chars (removeChars cls s)) -> cls c = false /\ In c (chars s).
Proof.
  induction s as [|d s IH]; simpl; [tauto|].
  destruct (cls d) eqn:E; simpl.
  - intros H. destruct (IH H). auto.
  - intros [->|H]; [auto|]. destruct (IH H). auto.
Qed.

Lemma chars_trimStart (s : string) (c : ascii) :
  In c (chars (trimStart s)) -> In c (chars s).
Proof.
  induction s as [|d s IH]; simpl; [tauto|].
  destruct (isWhiteSpace d); simpl; auto.
Qed.

Lemma chars_trimEnd (s : string) (c : ascii) :
  In c (chars (trimEnd s)) -> In c (chars s).
Proof.
  induction s as [|d s IH]; simpl; [tauto|].
  destruct (trimEnd s) as [|e r] eqn:E.
  - destruct (isWhiteSpace d); simpl; tauto.
  - simpl. intros [->|H]; [auto|]. right. apply IH. exact H.
Qed.

Lemma chars_trim (s : string) (c : ascii) :
  In c (chars (trim s)) -> In c (chars s).
Proof. intros H. apply chars_trimStart, chars_trimEnd, H. Qed.


Lemma lookup_In {A} (k : string) (o : list (string * A)) (v : A) :
  lookup k o = Some v -> In (k, v) o.
Proof.
  induction o as [|[k' v'] o IH]; simpl; [discriminate|].
  destruct (String.eqb k' k) eqn:E.
  - apply String.eqb_eq in E. intros [= ->]. subst. auto.
  - auto.
Qed.

(** Characters, case by case. *)
Ltac each_char c :=
  destruct c as [[] [] [] [] [] [] [] []]; vm_compute;
  try reflexivity; try discriminate; auto.

Lemma upper_whiteSpace (c : ascii) :
  isWhiteSpace (toUpperCaseChar c) = isWhiteSpace c.
Proof. each_char c. Qed.

Lemma upper_idem (c : ascii) :
  toUpperCaseChar (toUpperCaseChar c) = toUpperCaseChar c.
Proof. each_char c. Qed.

Lemma upper_comma (c : ascii) : toUpperCaseChar c = ","%char -> c = ","%char.
Proof. each_char c. Qed.

Lemma upper_space (c : ascii) : toUpperCaseChar c = " "%char -> c = " "%char.
Proof. each_char c. Qed.

Lemma capitalised_whiteSpace (c d : ascii) :
  capitalised c d -> isWhiteSpace d = isWhiteSpace c.
Proof. intros [->| ->]; [reflexivity | apply upper_whiteSpace]. Qed.

(** [split] and [join] *)

Lemma split_not_nil (sep : ascii) (s : string) : split sep s <> [].
Proof.
  destruct s as [|c s]; simpl; [discriminate|].
  destruct (Ascii.eqb c sep); [discriminate|].
  destruct (split sep s); discriminate.
Qed.

Lemma split_lacks (sep : ascii) (s : string) :
  Forall (lacks sep) (split sep s).
Proof.
  induction s as [|c s IH]; simpl.
  - constructor; [intros []|constructor].
  - destruct (Ascii.eqb c sep) eqn:E.
    + constructor; [intros []|exact IH].
    + destruct (split sep s) as [|w ws]; [constructor; [|constructor]|].
      * intros [H|[]]. subst. rewrite Ascii.eqb_refl in E. discriminate.
      * inversion IH as [|? ? Hw Hws]; subst. constructor; [|exact Hws].
        intros [H|H]; [|exact (Hw H)].
        subst. rewrite Ascii.eqb_refl in E. discriminate.
Qed.

Lemma join_cons (sep w : string) (ws : list string) :
  ws <> [] -> join sep (w :: ws) = w ++ sep ++ join sep ws.
Proof. destruct ws; [congruence | reflexivity]. Qed.

Lemma split_whole (sep : ascii) (s : string) :
  lacks sep s -> split sep s = [s].
Proof.
  induction s as [|c s IH]; simpl; [reflexivity|].
  intros H. destruct (Ascii.eqb c sep) eqn:E.
  - apply Ascii.eqb_eq in E. subst. exfalso. apply H. simpl. auto.
  - rewrite IH; [reflexivity|]. intros Hin. apply H. simpl. auto.
Qed.

Lemma split_app (sep : ascii) (w rest : string) :
  lacks sep w ->
  split sep (w ++ String sep rest) = w :: split sep rest.
Proof.
  induction w as [|c w IH]; simpl; intros H.
  - rewrite Ascii.eqb_refl. reflexivity.
  - destruct (Ascii.eqb c sep) eqn:E.
    + apply Ascii.eqb_eq in E. subst. exfalso. apply H. simpl. auto.
    + rewrite IH; [reflexivity|]. intros Hin. apply H. simpl. auto.
Qed.

Lemma split_join (sep : ascii) (ws : list string) :
  ws <> [] -> Forall (lacks sep) ws ->
  split sep (join (String sep EmptyString) ws) = ws.
Proof.
  induction ws as [|w ws IH]; [congruence|].
  intros _ H. inversion H as [|? ? Hw Hws]; subst.
  destruct ws as [|w' ws'].
  - simpl. apply split_whole. exact Hw.
  - rewrite join_cons by discriminate. simpl String.append.
    rewrite split_app by exact Hw. f_equal. apply IH; [discriminate | exact Hws].
Qed.

Lemma join_split (sep : ascii) (s : string) :
  join (String sep EmptyString) (split sep s) = s.
Proof.
  induction s as [|c s IH]; simpl; [reflexivity|].
  destruct (Ascii.eqb c sep) eqn:E.
  - apply Ascii.eqb_eq in E. subst.
    rewrite join_cons by apply split_not_nil. simpl. now rewrite IH.
  - pose proof (split_not_nil sep s) as Hn.
    destruct (split sep s) as [|w ws]; [congruence|].
    destruct ws as [|w' ws'].
    + simpl in *. now rewrite IH.
    + rewrite join_cons by discriminate. rewrite join_cons in IH by discriminate.
      rewrite <- IH. reflexivity.
Qed.

(** Strings related character by character *)

Lemma pointwise_app (R : ascii -> ascii -> Prop) (a a' b b' : string) :
  pointwise R a a' -> pointwise R b b' -> pointwise R (a ++ b) (a' ++ b').
Proof.
  revert a'. induction a as [|c a IH]; intros [|c' a']; simpl; try tauto.
  intros [H1 H2] H3. split; [exact H1 | apply IH; assumption].
Qed.

Lemma pointwise_refl (R : ascii -> ascii -> Prop) (s : string) :
  (forall c, R c c) -> pointwise R s s.
Proof. intros HR. induction s; simpl; auto. Qed.

Lemma pointwise_capitalize (w : string) : pointwise capitalised w (capitalize w).
Proof.
  destruct w as [|c w]; simpl; [exact I|].
  split; [right; reflexivity|]. apply pointwise_refl. intros d. left. reflexivity.
Qed.

Lemma pointwise_join (sep : string) (ws : list string) :
  pointwise capitalised (join sep ws) (join sep (map capitalize ws)).
Proof.
  induction ws as [|w ws IH]; [exact I|].
  destruct ws as [|w' ws'].
  - apply pointwise_capitalize.
  - change (map capitalize (w :: w' :: ws'))
      with (capitalize w :: map capitalize (w' :: ws')).
    rewrite (join_cons sep w (w' :: ws')) by discriminate.
    rewrite (join_cons sep (capitalize w) (map capitalize (w' :: ws')))
      by (simpl; discriminate).
    apply pointwise_app; [apply pointwise_capitalize|].
    apply pointwise_app; [|exact IH].
    apply pointwise_refl. intros d. left. reflexivity.
Qed.

Lemma pointwise_empty (R : ascii -> ascii -> Prop) (s t : string) :
  pointwise R s t -> (s = EmptyString <-> t = EmptyString).
Proof.
  destruct s, t; simpl; intros H; split; intros E;
    try discriminate; try reflexivity; contradiction.
Qed.

Lemma pointwise_startsClean (s t : string) :
  pointwise capitalised s t -> startsClean s -> startsClean t.
Proof.
  unfold startsClean. destruct s as [|c s], t as [|d t]; simpl; try tauto.
  intros [Hc _]. rewrite (capitalised_whiteSpace c d Hc).
  destruct (isWhiteSpace c) eqn:E; [|reflexivity].
  intros H. exfalso.
  assert (L : String.length (trimStart s) <= String.length s).
  { clear. induction s as [|e s IH]; simpl; [lia|].
    destruct (isWhiteSpace e); simpl; lia. }
  rewrite H in L. simpl in L. lia.
Qed.

Lemma pointwise_trimEnd_empty (s t : string) :
  pointwise capitalised s t ->
  trimEnd s = EmptyString -> trimEnd t = EmptyString.
Proof.
  revert t. induction s as [|c s IH]; intros [|d t]; simpl; try tauto.
  intros [Hc Hst]. rewrite (capitalised_whiteSpace c d Hc).
  destruct (trimEnd s) eqn:Es; [|discriminate].
  rewrite (IH t Hst eq_refl).
  destruct (isWhiteSpace c); [reflexivity | discriminate].
Qed.

Lemma pointwise_sym_empty (s t : string) :
  pointwise capitalised s t ->
  trimEnd t = EmptyString -> trimEnd s = EmptyString.
Proof.
  revert t. induction s as [|c s IH]; intros [|d t]; simpl; try tauto.
  intros [Hc Hst]. rewrite (capitalised_whiteSpace c d Hc).
  destruct (trimEnd t) eqn:Et; [|discriminate].
  rewrite (IH t Hst Et).
  destruct (isWhiteSpace c); [reflexivity | discriminate].
Qed.

Lemma pointwise_endsClean (s t : string) :
  pointwise capitalised s t -> endsClean s -> endsClean t.
Proof.
  unfold endsClean. revert t.
  induction s as [|c s IH]; intros [|d t]; simpl; try tauto.
  intros [Hc Hst]. rewrite (capitalised_whiteSpace c d Hc).
  destruct (trimEnd s) as [|e r] eqn:Es.
  - rewrite (pointwise_trimEnd_empty s t Hst Es).
    destruct (isWhiteSpace c); [discriminate|].
    intros [= <-]. destruct t; [reflexivity | contradiction].
  - intros [= H]. destruct (trimEnd t) as [|e' r'] eqn:Et.
    + rewrite (pointwise_sym_empty s t Hst Et) in Es. discriminate.
    + f_equal. rewrite <- Et. apply IH; [exact Hst | exact H].
Qed.

Lemma pointwise_lacks (x : ascii) (s t : string) :
  (forall c, toUpperCaseChar c = x -> c = x) ->
  pointwise capitalised s t -> lacks x s -> lacks x t.
Proof.
  intros Hx. unfold lacks. revert t.
  induction s as [|c s IH]; intros [|d t]; simpl; try tauto.
  intros [Hc Hst] H [Hd|Hd].
  - apply H. left. destruct Hc as [->| ->]; [exact Hd | now apply Hx].
  - apply (IH t Hst); [|exact Hd]. intros Hin. apply H. now right.
Qed.

(** [trim] *)

Lemma trimStart_startsClean (s : string) : startsClean (trimStart s).
Proof.
  unfold startsClean. induction s as [|c s IH]; simpl; [reflexivity|].
  destruct (isWhiteSpace c) eqn:E; [exact IH|]. simpl. now rewrite E.
Qed.

Lemma trimEnd_endsClean (s : string) : endsClean (trimEnd s).
Proof.
  unfold endsClean. induction s as [|c s IH]; simpl; [reflexivity|].
  destruct (trimEnd s) as [|e r] eqn:Es.
  - destruct (isWhiteSpace c) eqn:E; simpl; [reflexivity|]. now rewrite E.
  - simpl in *. now rewrite IH.
Qed.

Lemma trimEnd_startsClean (s : string) : startsClean s -> startsClean (trimEnd s).
Proof.
  unfold startsClean. destruct s as [|c s]; simpl; [reflexivity|].
  destruct (isWhiteSpace c) eqn:E.
  - intros H. exfalso.
    assert (L : String.length (trimStart s) <= String.length s).
    { clear. induction s as [|e s IH]; simpl; [lia|].
      destruct (isWhiteSpace e); simpl; lia. }
    rewrite H in L. simpl in L. lia.
  - intros _. destruct (trimEnd s); simpl; now rewrite E.
Qed.

Lemma trim_fixed (s : string) : startsClean s -> endsClean s -> trim s = s.
Proof. unfold trim, startsClean, endsClean. intros -> ->. reflexivity. Qed.

Lemma trim_startsClean (s : string) : startsClean (trim s).
Proof. apply trimEnd_startsClean, trimStart_startsClean. Qed.

Lemma trim_endsClean (s : string) : endsClean (trim s).
Proof. apply trimEnd_endsClean. Qed.

Lemma trim_lacks (x : ascii) (s : string) : lacks x s -> lacks x (trim s).
Proof. unfold lacks. intros H Hin. apply H, chars_trim, Hin. Qed.

Lemma capitalize_idem (w : string) : capitalize (capitalize w) = capitalize w.
Proof. destruct w as [|c w]; simpl; [reflexivity|]. now rewrite upper_idem. Qed.

Lemma capitalize_lacks (x : ascii) (w : string) :
  (forall c, toUpperCaseChar c = x -> c = x) -> lacks x w -> lacks x (capitalize w).
Proof. intros Hx. apply pointwise_lacks; [exact Hx | apply pointwise_capitalize]. Qed.

End StringFacts.

(* ================================================================= *)
(** ** The field normaliser *)

Section Normaliser.
Import JS Props Revised.

(** C2. Whatever the display name, and so for every name that holds a
    bracket, a pipe, a caret or a hash, the string [cleanForWikilink] returns
    for the wikilink holds none of these characters. *)
Theorem cleanForWikilink_safe (name : string) :
  lacks "[" (cleanForWikilink name) /\ lacks "]" (cleanForWikilink name)
  /\ lacks "|" (cleanForWikilink name) /\ lacks "#" (cleanForWikilink name)
  /\ lacks "^" (cleanForWikilink name).
Proof.
  unfold cleanForWikilink, lacks.
  repeat split; intros H; apply chars_trim, chars_removeChars in H;
    destruct H as [H _]; discriminate H.
Qed.

Example cleanForWikilink_sample :
  cleanForWikilink " [[Kitty|Pryde]] #1^ " = "KittyPryde 1".
Proof. reflexivity. Qed.

(** *** Names of members of [Object.prototype] *)

Lemma lowerCase_char_idem (c : ascii) :
  toLowerCaseChar (toLowerCaseChar c) = toLowerCaseChar c.
Proof. destruct c as [[] [] [] [] [] [] [] []]; reflexivity. Qed.

Lemma lowerCase_image (s : string) (c : ascii) :
  In c (chars (toLowerCase s)) -> toLowerCaseChar c = c.
Proof.
  induction s as [|d s IH]; simpl; [contradiction|].
  intros [<-|H]; [apply lowerCase_char_idem | exact (IH H)].
Qed.

Lemma lowerCase_same (s : string) :
  (forall c, In c (chars s) -> toLowerCaseChar c = c) -> toLowerCase s = s.
Proof.
  unfold toLowerCase. induction s as [|d s IH]; cbn [mapChars chars]; [reflexivity|].
  intros H. rewrite (H d (or_introl eq_refl)). f_equal. apply IH.
  intros c Hc. apply H. now right.
Qed.

Lemma roleLower_lowered (role : string) :
  toLowerCase (trim (toLowerCase role)) = trim (toLowerCase role).
Proof.
  apply lowerCase_same. intros c Hc. apply (lowerCase_image role), chars_trim, Hc.
Qed.

(** Of the twelve names only two hold no capital letter. *)
Lemma lowered_member (s : string) :
  toLowerCase s = s -> existsb (String.eqb s) objectPrototype = true ->
  s = "constructor" \/ s = "__proto__".
Proof.
  intros L H. apply existsb_exists in H. destruct H as [n [Hn E]].
  apply String.eqb_eq in E. subst n. simpl in Hn.
  repeat (destruct Hn as [Hn|Hn];
          [subst s; first [now left | now right | discriminate L]|]).
  contradiction.
Qed.

Lemma getProperty_own {A} (k : string) (o : list (string * A)) (v : A) :
  lookup k o = Some v -> getProperty k o = Own v.
Proof. intros H. unfold getProperty. now rewrite H. Qed.

Lemma getProperty_other {A} (k : string) (o : list (string * A)) :
  lookup k o = None ->
  getProperty k o = if inherits o k then Inherited k else Undefined.
Proof. intros H. unfold getProperty, inherits. now rewrite H. Qed.

(** C7. The map from roles to ontology keys reads its table as an object
    literal, so it is not total: for a role whose lower-cased, trimmed form
    is [constructor] or [__proto__] it returns the member of
    [Object.prototype] of that name, which is no key at all, and not
    [contributedTo].  For every other role it is as specified: the
    key listed in the table (writer, penciler and penciller, cover artist and
    cover among them), and [contributedTo] for a role that is not in the
    table. *)
Theorem mapRoleToOntologyKey_inherited_member (role : string) :
  mapRoleToOntologyKey "Constructor" = Member "constructor"
  /\ mapRoleToOntologyKey "__proto__" = Member "__proto__"
  /\ (forall key, lookup (trim (toLowerCase role)) mapping = Some key ->
         mapRoleToOntologyKey role = Key key /\ In key ontologyKeys)
  /\ (lookup (trim (toLowerCase role)) mapping = None ->
       (trim (toLowerCase role) = "constructor" \/ trim (toLowerCase role) = "__proto__"
        -> mapRoleToOntologyKey role = Member (trim (toLowerCase role)))
       /\ (trim (toLowerCase role) <> "constructor" ->
           trim (toLowerCase role) <> "__proto__" ->
           mapRoleToOntologyKey role = Key "contributedTo"))
  /\ mapRoleToOntologyKey "writer" = Key "writtenBy"
  /\ mapRoleToOntologyKey "penciler" = Key "penciler"
  /\ mapRoleToOntologyKey "penciller" = Key "penciler"
  /\ mapRoleToOntologyKey "cover artist" = Key "coverArtist"
  /\ mapRoleToOntologyKey "cover" = Key "coverArtist".
Proof.
  assert (V : forall k v, In (k, v) mapping -> In v ontologyKeys /\ isEmpty v = false).
  { intros k v H. simpl in H.
    repeat (destruct H as [H|H]; [injection H as <- <-; split; [simpl; tauto | reflexivity]|]).
    contradiction. }
  split; [reflexivity|]. split; [reflexivity|].
  split; [|split; [|repeat split; reflexivity]].
  - intros key E. unfold mapRoleToOntologyKey. rewrite (getProperty_own _ _ _ E).
    apply lookup_In, V in E. destruct E as [E1 E2]. rewrite E2. auto.
  - intros E. unfold mapRoleToOntologyKey. rewrite (getProperty_other _ _ E). split.
    + intros [H|H]; rewrite H; reflexivity.
    + intros H1 H2. destruct (inherits mapping (trim (toLowerCase role))) eqn:I;
        [|reflexivity].
      unfold inherits, member in I. rewrite E in I.
      destruct (lowered_member _ (roleLower_lowered role) I); contradiction.
Qed.

(** One segment of a credit's role string, canonicalised. *)
Lemma roles_of_canonical (r : string) :
  lacks "," r ->
  let r' := join " " (map capitalize (split " " (trim r))) in
  roles r' = [r'].
Proof.
  intros Hr r'. set (ws := split " " (trim r)) in *.
  assert (Hpw : pointwise capitalised (trim r) r').
  { unfold r'. rewrite <- (join_split " " (trim r)) at 1. apply pointwise_join. }
  assert (Hcomma : lacks "," r').
  { apply (pointwise_lacks _ _ _ upper_comma Hpw), trim_lacks, Hr. }
  assert (Htrim : trim r' = r').
  { apply trim_fixed.
    - apply (pointwise_startsClean _ _ Hpw), trim_startsClean.
    - apply (pointwise_endsClean _ _ Hpw), trim_endsClean. }
  assert (Hsplit : split " " r' = map capitalize ws).
  { unfold r'. apply split_join.
    - unfold ws. pose proof (split_not_nil " " (trim r)).
      destruct (split " " (trim r)); [congruence | discriminate].
    - apply Forall_forall. intros w Hw. apply in_map_iff in Hw.
      destruct Hw as [w0 [<- Hw0]]. apply capitalize_lacks; [exact upper_space|].
      pose proof (split_lacks " " (trim r)) as F.
      rewrite Forall_forall in F. apply F, Hw0. }
  unfold roles. rewrite (split_whole "," r' Hcomma). simpl.
  rewrite Htrim, Hsplit, map_map.
  f_equal. unfold r'. f_equal. apply map_ext. intros w. apply capitalize_idem.
Qed.

Lemma canonicalizeRole_fixed (role r' : string) :
  In r' (canonicalizeRole role) -> canonicalizeRole r' = [r'].
Proof.
  unfold canonicalizeRole. intros H. apply filter_In in H. destruct H as [H Hne].
  unfold roles in H. apply in_map_iff in H. destruct H as [r [<- Hr]].
  pose proof (split_lacks "," role) as F. rewrite Forall_forall in F.
  rewrite (roles_of_canonical r (F r Hr)). simpl. rewrite Hne. reflexivity.
Qed.

(** C6. Canonicalising a role string (split on commas, trim each segment,
    capitalise the first letter of each word and leave the rest, join the
    words with single spaces again, drop the empty segments) is idempotent:
    canonicalising each role of the result gives the result back. *)
Theorem canonicalizeRole_idempotent (role : string) :
  flat_map canonicalizeRole (canonicalizeRole role) = canonicalizeRole role.
Proof.
  pose proof (canonicalizeRole_fixed role) as H.
  induction (canonicalizeRole role) as [|r rs IH]; [reflexivity|].
  simpl. rewrite (H r) by (left; reflexivity). simpl. f_equal.
  apply IH. intros r' Hr'. apply H. right. exact Hr'.
Qed.

Example canonicalizeRole_sample :
  canonicalizeRole "writer, co-plotter,, cover  artist " =
  ["Writer"; "Co-plotter"; "Cover  Artist"].
Proof. reflexivity. Qed.

(** C1 (as the code has it). A year-month string with a month from 01 to 12
    and a year of at least 100 gives [value], [year] and [month] and no day;
    a bare four-digit year of at least 100 gives [value] and [year] only; a
    string that is no date gives [value] only; [null] and the empty string
    give no date object. *)
Theorem parseCreatorDate_granularity (hostParse : string -> option UTCDate) (s : string) :
  (matchesYearMonth s = true -> (100 <= yearOf s)%Z -> (1 <= monthOf s <= 12)%Z ->
   parseCreatorDate hostParse (Some s) =
   Some {| value := Some s; year := Some (yearOf s);
           month := Some (monthOf s); day := None |})
  /\ (matchesYear s = true -> (100 <= yearOf s)%Z ->
      parseCreatorDate hostParse (Some s) =
      Some {| value := Some s; year := Some (yearOf s); month := None; day := None |})
  /\ (s <> EmptyString -> newDate hostParse s = None ->
      parseCreatorDate hostParse (Some s) =
      Some {| value := Some s; year := None; month := None; day := None |})
  /\ parseCreatorDate hostParse None = None
  /\ parseCreatorDate hostParse (Some EmptyString) = None.
Proof.
  assert (YM : matchesYearMonth s = true -> matchesYear s = false).
  { destruct s as [|a [|b [|c [|d [|h s']]]]]; simpl; try discriminate; auto. }
  assert (NE : forall t, matchesYear t = true \/ matchesYearMonth t = true ->
                         isEmpty t = false).
  { intros [|a t]; simpl; [intros [H|H]; discriminate | reflexivity]. }
  repeat split.
  - intros Hm Hy [Hlo Hhi]. unfold parseCreatorDate, newDate.
    rewrite (NE s) by auto. rewrite (YM Hm), Hm.
    destruct (Z.leb_spec 1 (monthOf s)); [|lia].
    destruct (Z.leb_spec (monthOf s) 12); [|lia]. simpl.
    destruct (Z.ltb_spec (yearOf s) 100); [lia|].
    do 3 f_equal. lia.
  - intros Hm Hy. unfold parseCreatorDate, newDate.
    rewrite (NE s) by auto. rewrite Hm. simpl.
    destruct (Z.ltb_spec (yearOf s) 100); [lia|]. reflexivity.
  - intros Hs Hd. unfold parseCreatorDate. rewrite Hd.
    destruct s; [congruence | reflexivity].
Qed.

Lemma parseCreatorDate_granularity_witness :
  parseCreatorDate (fun _ => None) (Some "1986-09") =
    Some {| value := Some "1986-09"; year := Some 1986%Z; month := Some 9%Z; day := None |}
  /\ parseCreatorDate (fun _ => None) (Some "1986") =
    Some {| value := Some "1986"; year := Some 1986%Z; month := None; day := None |}
  /\ parseCreatorDate (fun _ => None) (Some "sometime") =
    Some {| value := Some "sometime"; year := None; month := None; day := None |}.
Proof.
  split; [|split].
  - apply (proj1 (parseCreatorDate_granularity (fun _ => None) "1986-09"));
      [reflexivity | vm_compute; discriminate | vm_compute; split; discriminate].
  - apply (proj1 (proj2 (parseCreatorDate_granularity (fun _ => None) "1986")));
      [reflexivity | vm_compute; discriminate].
  - apply (proj1 (proj2 (proj2 (parseCreatorDate_granularity (fun _ => None) "sometime"))));
      [discriminate | reflexivity].
Defined.

(** C1, as stated, fails below year 100: the bare four-digit year 0050 is a
    valid date, and the guard on implausible years leaves [value] alone. *)
Lemma parseCreatorDate_implausible_year :
  matchesYear "0050" = true
  /\ parseCreatorDate (fun _ => None) (Some "0050") =
     Some {| value := Some "0050"; year := None; month := None; day := None |}.
Proof. split; reflexivity. Qed.

End Normaliser.

(* ================================================================= *)
(** ** The rate-limited client *)

Section RateLimiter.
Import Client Props.

Lemma resumesAt_spaced (c : ComicVineClient) (k : Call) :
  (0 <= late k)%Z ->
  (lastRequestTime c + rateLimitDelay c <= resumesAt c k)%Z.
Proof.
  intros Hl. unfold resumesAt, spacingDelay.
  destruct (Z.ltb_spec (start k - lastRequestTime c) (rateLimitDelay c)); lia.
Qed.

Lemma resumesAt_not_early (c : ComicVineClient) (k : Call) :
  (0 <= late k)%Z -> (start k <= resumesAt c k)%Z.
Proof.
  intros Hl. unfold resumesAt, spacingDelay.
  destruct (Z.ltb_spec (start k - lastRequestTime c) (rateLimitDelay c)); lia.
Qed.

Lemma resumesAt_exact (c : ComicVineClient) (k : Call) :
  resumesAt c k
  = (if (start k - lastRequestTime c <? rateLimitDelay c)%Z
     then lastRequestTime c + rateLimitDelay c + late k else start k)%Z.
Proof.
  unfold resumesAt, spacingDelay.
  destruct (start k - lastRequestTime c <? rateLimitDelay c)%Z; lia.
Qed.

Lemma revised_dispatchedAt (c : ComicVineClient) (k : Call) :
  dispatchedAt (RevisedClient.rateLimitedFetch c k) = Some (resumesAt c k).
Proof. unfold RevisedClient.rateLimitedFetch. destruct (reply k); reflexivity. Qed.

(** The latest of the requests sent so far, when all of them were sent by
    the time the call begins and the last one sent is the latest. *)
Lemma lastRequestAt_latest (c : ComicVineClient) (t : Z) (sent : list Z) (now : Z) :
  Forall (fun x => (x <= t)%Z) sent -> (t <= now)%Z ->
  RevisedClient.lastRequestAt c (t :: sent) now = t.
Proof.
  intros F Hn. unfold RevisedClient.lastRequestAt. cbn [filter].
  destruct (Z.leb_spec t now); [|lia].
  assert (G : forall l m, Forall (fun x => (x <= m)%Z) l -> fold_left Z.max l m = m).
  { induction l as [|x l IH]; intros m Hm; cbn [fold_left]; [reflexivity|].
    inversion Hm; subst. rewrite Z.max_l by assumption. now apply IH. }
  apply G. clear -F. induction F as [|x l Hx _ IH]; cbn [filter]; [constructor|].
  destruct (x <=? now)%Z; [constructor; assumption | exact IH].
Qed.

Lemma dispatchesAfter_in_turn (c : ComicVineClient) (calls : list Call) :
  forall (t : Z) (sent : list Z),
  Forall (fun k => (0 <= late k)%Z) calls ->
  Forall (fun x => (x <= t)%Z) sent ->
  match calls with k :: _ => (t <= start k)%Z | [] => True end ->
  oneAfterAnother calls (RevisedClient.dispatchesAfter c (t :: sent) calls) ->
  waitsOut (rateLimitDelay c) t calls (RevisedClient.dispatchesAfter c (t :: sent) calls)
  /\ spacedFrom (rateLimitDelay c) t (RevisedClient.dispatchesAfter c (t :: sent) calls).
Proof.
  induction calls as [|k rest IH]; intros t sent Hl F Hs Ho; [split; exact I|].
  inversion Hl as [|? ? Hk Hrest]; subst.
  cbn [RevisedClient.dispatchesAfter] in *.
  rewrite (lastRequestAt_latest c t sent (start k) F Hs) in *.
  rewrite revised_dispatchedAt in *.
  set (seen := {| lastRequestTime := t; rateLimitDelay := rateLimitDelay c |}) in *.
  assert (Ht : (t <= resumesAt seen k)%Z).
  { pose proof (resumesAt_not_early seen k Hk). lia. }
  assert (F' : Forall (fun x => (x <= resumesAt seen k)%Z) (t :: sent)).
  { constructor; [exact Ht|]. revert F. apply Forall_impl. intros x Hx. lia. }
  assert (N : match rest with k' :: _ => (resumesAt seen k <= start k')%Z | [] => True end
              /\ oneAfterAnother rest
                   (RevisedClient.dispatchesAfter c (resumesAt seen k :: t :: sent) rest)).
  { destruct rest as [|k' rest']; [split; exact I|].
    cbn [oneAfterAnother] in Ho. destruct Ho as [H1 H2]. split; assumption. }
  destruct N as [N1 N2].
  destruct (IH (resumesAt seen k) (t :: sent) Hrest F' N1 N2) as [W S].
  split; cbn [waitsOut spacedFrom].
  - split; [exact (resumesAt_exact seen k) | exact W].
  - split; [exact (resumesAt_spaced seen k Hk) | exact S].
Qed.

Lemma dispatches_in_turn (c : ComicVineClient) (calls : list Call) :
  Forall (fun k => (0 <= late k)%Z) calls ->
  oneAfterAnother calls (RevisedClient.dispatches c calls) ->
  waitsOut (rateLimitDelay c) (lastRequestTime c) calls (RevisedClient.dispatches c calls)
  /\ spacedFrom (rateLimitDelay c) (lastRequestTime c) (RevisedClient.dispatches c calls).
Proof.
  unfold RevisedClient.dispatches. intros Hl Ho.
  destruct calls as [|k rest]; [split; exact I|].
  inversion Hl as [|? ? Hk Hrest]; subst.
  cbn [RevisedClient.dispatchesAfter] in *.
  change (RevisedClient.lastRequestAt c [] (start k)) with (lastRequestTime c) in *.
  replace {| lastRequestTime := lastRequestTime c; rateLimitDelay := rateLimitDelay c |}
    with c in * by (destruct c; reflexivity).
  rewrite revised_dispatchedAt in *.
  assert (N : match rest with k' :: _ => (resumesAt c k <= start k')%Z | [] => True end
              /\ oneAfterAnother rest
                   (RevisedClient.dispatchesAfter c [resumesAt c k] rest)).
  { destruct rest as [|k' rest']; [split; exact I|].
    cbn [oneAfterAnother] in Ho. destruct Ho as [H1 H2]. split; assumption. }
  destruct N as [N1 N2].
  destruct (dispatchesAfter_in_turn c rest (resumesAt c k) [] Hrest (Forall_nil _) N1 N2)
    as [W S].
  split; cbn [waitsOut spacedFrom].
  - split; [exact (resumesAt_exact c k) | exact W].
  - split; [exact (resumesAt_spaced c k Hk) | exact S].
Qed.

(** C9 (as the code has it). Through one client, a call that starts less
    than the interval after the last request asks the timer for exactly what
    is left of the interval counted from that request (the timer ends at
    [lastRequestTime + rateLimitDelay], wherever in the interval the call
    started).  When the calls are made one after the other, each beginning
    once the request before it has been sent, every request is sent exactly
    the interval after the one before it when its call began within the
    interval (later by what its timer fires late), and at once otherwise: so
    each request is at least the interval after the one before it. *)
Theorem requests_keep_their_distance (c : ComicVineClient) (calls : list Call) :
  Forall (fun k => (0 <= late k)%Z) calls ->
  oneAfterAnother calls (RevisedClient.dispatches c calls) ->
  (forall now, (now - lastRequestTime c < rateLimitDelay c)%Z ->
     spacingDelay c now = Some (lastRequestTime c + rateLimitDelay c - now)%Z)
  /\ (forall k, (start k - lastRequestTime c < rateLimitDelay c)%Z ->
        resumesAt c k = (lastRequestTime c + rateLimitDelay c + late k)%Z)
  /\ waitsOut (rateLimitDelay c) (lastRequestTime c) calls
       (RevisedClient.dispatches c calls)
  /\ spacedFrom (rateLimitDelay c) (lastRequestTime c)
       (RevisedClient.dispatches c calls).
Proof.
  intros Hl Ho. split; [|split].
  - intros now H. unfold spacingDelay.
    destruct (Z.ltb_spec (now - lastRequestTime c) (rateLimitDelay c)); [|lia].
    f_equal. lia.
  - intros k H. unfold resumesAt, spacingDelay.
    destruct (Z.ltb_spec (start k - lastRequestTime c) (rateLimitDelay c)); lia.
  - exact (dispatches_in_turn c calls Hl Ho).
Qed.

Lemma requests_keep_their_distance_witness :
  RevisedClient.dispatches {| lastRequestTime := 5000; rateLimitDelay := 1000 |}
    [ {| start := 5200; late := 0; abortAt := None; reply := Response 200 "{}" |};
      {| start := 6100; late := 3; abortAt := None; reply := Response 200 "{}" |};
      {| start := 9000; late := 0; abortAt := None; reply := Response 200 "{}" |} ]
  = [6000; 7003; 9000]%Z
  /\ spacedFrom 1000 5000 [6000; 7003; 9000]%Z.
Proof.
  split; [reflexivity|].
  apply (proj2 (proj2 (proj2 (requests_keep_their_distance
    {| lastRequestTime := 5000; rateLimitDelay := 1000 |}
    [ {| start := 5200; late := 0; abortAt := None; reply := Response 200 "{}" |};
      {| start := 6100; late := 3; abortAt := None; reply := Response 200 "{}" |};
      {| start := 9000; late := 0; abortAt := None; reply := Response 200 "{}" |} ]
    ltac:(repeat constructor; simpl; lia)
    ltac:(vm_compute; repeat split; discriminate))))).
Defined.

(** C9, as stated, fails for calls that overlap: a call that begins while
    the one before it is still in its delay reads the same time of the last
    request, waits for the same moment, and the two requests are sent
    together. *)
Lemma overlapping_calls_are_sent_together :
  RevisedClient.dispatches {| lastRequestTime := 5000; rateLimitDelay := 1000 |}
    [ {| start := 5200; late := 0; abortAt := None; reply := Response 200 "{}" |};
      {| start := 5300; late := 0; abortAt := None; reply := Response 200 "{}" |} ]
  = [6000; 6000]%Z
  /\ ~ spacedFrom 1000 5000 [6000; 6000]%Z.
Proof.
  split; [reflexivity|]. cbn [spacedFrom]. lia.
Qed.

(** The error of a cancelled call is not the error of a failed request. *)
Lemma phase7_abort_is_not_a_request_error (c : ComicVineClient) (k : Call) :
  outcome (Phase7.rateLimitedFetch c k) = Thrown "Request aborted" ->
  dispatchedAt (Phase7.rateLimitedFetch c k) = None.
Proof.
  unfold Phase7.rateLimitedFetch.
  destruct (Phase7.abortedWhileWaiting c k); [reflexivity|].
  destruct (Phase7.aborted k (resumesAt c k)); [reflexivity|].
  destruct (reply k) as [st js|[st|] msg]; simpl; try discriminate.
  destruct (st =? 0)%Z; discriminate.
Qed.

(** C8. A cancellation that fires while the call waits in the spacing delay:
    the client of src/main.ts rejects the call at once with its own error and
    sends nothing; the revised client never looks at the signal, waits the
    delay out and sends the request as if nothing had happened. *)
Theorem cancel_during_spacing_delay (c : ComicVineClient) (k : Call) (a : Z) :
  abortAt k = Some a ->
  (start k - lastRequestTime c < rateLimitDelay c)%Z ->
  (start k <= a < resumesAt c k)%Z ->
  Phase7.rateLimitedFetch c k =
    {| outcome := Thrown "Request aborted"; client := c;
       dispatchedAt := None; rejectedAt := Some a |}
  /\ dispatchedAt (RevisedClient.rateLimitedFetch c k) = Some (resumesAt c k)
  /\ rejectedAt (RevisedClient.rateLimitedFetch c k) = None
  /\ RevisedClient.rateLimitedFetch c k =
     RevisedClient.rateLimitedFetch c
       {| start := start k; late := late k; abortAt := None; reply := reply k |}.
Proof.
  intros Ha Hs [H1 H2]. split; [|split; [|split]].
  - unfold Phase7.rateLimitedFetch, Phase7.abortedWhileWaiting.
    rewrite Ha. unfold spacingDelay at 1.
    destruct (Z.ltb_spec (start k - lastRequestTime c) (rateLimitDelay c)); [|lia].
    destruct (Z.leb_spec (start k) a); [|lia].
    destruct (Z.ltb_spec a (resumesAt c k)); [|lia]. reflexivity.
  - unfold RevisedClient.rateLimitedFetch. destruct (reply k); reflexivity.
  - unfold RevisedClient.rateLimitedFetch. destruct (reply k); reflexivity.
  - reflexivity.
Qed.

Lemma cancel_during_spacing_delay_witness :
  outcome (Phase7.rateLimitedFetch {| lastRequestTime := 5000; rateLimitDelay := 1000 |}
     {| start := 5200; late := 0; abortAt := Some 5500%Z; reply := Response 200 "{}" |})
  = Thrown "Request aborted"
  /\ outcome (RevisedClient.rateLimitedFetch {| lastRequestTime := 5000; rateLimitDelay := 1000 |}
     {| start := 5200; late := 0; abortAt := Some 5500%Z; reply := Response 200 "{}" |})
  = Returned "{}"
  /\ dispatchedAt (RevisedClient.rateLimitedFetch {| lastRequestTime := 5000; rateLimitDelay := 1000 |}
     {| start := 5200; late := 0; abortAt := Some 5500%Z; reply := Response 200 "{}" |})
  = Some 6000%Z.
Proof.
  pose proof (cancel_during_spacing_delay
    {| lastRequestTime := 5000; rateLimitDelay := 1000 |}
    {| start := 5200; late := 0; abortAt := Some 5500%Z; reply := Response 200 "{}" |}
    5500%Z eq_refl ltac:(simpl; lia) ltac:(vm_compute; split; [discriminate | reflexivity]))
    as [H1 [H2 _]].
  split; [rewrite H1; reflexivity | split; [reflexivity | exact H2]].
Defined.

End RateLimiter.

(* ================================================================= *)
(** ** The document store *)

Section StoreFacts.
Import JS Store Engine Props.

Lemma lookup_app {A} (k : string) (o o' : list (string * A)) :
  lookup k (o ++ o')%list =
  match lookup k o with
  | Some v => Some v
  | None => lookup k o'
  end.
Proof.
  induction o as [|[k' v'] o IH]; simpl; [reflexivity|].
  destruct (String.eqb k' k); [reflexivity | exact IH].
Qed.

Lemma lookup_last {A} (k q : string) (e : A) (o : list (string * A)) :
  lookup k o = None ->
  lookup k (o ++ [(q, e)])%list = if String.eqb q k then Some e else None.
Proof. intros H. rewrite lookup_app, H. reflexivity. Qed.

Lemma lookup_kept {A} (k q : string) (e v : A) (o : list (string * A)) :
  lookup k o = Some v -> lookup k (o ++ [(q, e)])%list = Some v.
Proof. intros H. rewrite lookup_app, H. reflexivity. Qed.

Lemma path_last (k q : string) (e : Entry) (v : Vault) :
  getAbstractFileByPath v k = None ->
  getAbstractFileByPath (v ++ [(q, e)])%list k = if String.eqb q k then Some e else None.
Proof. apply lookup_last. Qed.

Lemma path_kept (k q : string) (e x : Entry) (v : Vault) :
  getAbstractFileByPath v k = Some x ->
  getAbstractFileByPath (v ++ [(q, e)])%list k = Some x.
Proof. apply lookup_kept. Qed.

Lemma append_inj (a b c : string) : a ++ b = a ++ c -> b = c.
Proof. induction a as [|x a IH]; simpl; [auto|]. intros [= H]. auto. Qed.

Lemma append_length (a b : string) :
  String.length (a ++ b) = String.length a + String.length b.
Proof. induction a as [|x a IH]; simpl; [reflexivity | now rewrite IH]. Qed.

Lemma append_longer (a b : string) : b <> EmptyString -> a ++ b <> a.
Proof.
  intros Hb H. apply (f_equal String.length) in H. rewrite append_length in H.
  destruct b; [congruence | simpl in H; lia].
Qed.

Lemma append_assoc (a b c : string) : (a ++ b) ++ c = a ++ (b ++ c).
Proof. induction a as [|x a IH]; simpl; [reflexivity | now rewrite IH]. Qed.

Lemma ensureFolderExists_runs (path : string) (w : World) :
  ensureFolderExists path w =
  Ok tt {| vault := withFolder path (vault w); readings := readings w |}.
Proof.
  unfold ensureFolderExists, withFolder, bind, getVault, createFolder, bind, getVault.
  destruct (getAbstractFileByPath (vault w) path) eqn:E.
  - unfold ret. destruct w; reflexivity.
  - rewrite E. reflexivity.
Qed.

Lemma withFolder_has (path : string) (v : Vault) :
  getAbstractFileByPath (withFolder path v) path <> None.
Proof.
  unfold withFolder. destruct (getAbstractFileByPath v path) eqn:E.
  - rewrite E. discriminate.
  - unfold getAbstractFileByPath in *. rewrite lookup_last by exact E.
    rewrite String.eqb_refl. discriminate.
Qed.

Lemma withFolder_idle (path : string) (v : Vault) :
  getAbstractFileByPath v path <> None -> withFolder path v = v.
Proof. unfold withFolder. destruct (getAbstractFileByPath v path); congruence. Qed.

Lemma withFolder_lookup (path q : string) (v : Vault) :
  q <> path ->
  getAbstractFileByPath (withFolder path v) q = getAbstractFileByPath v q.
Proof.
  intros Hq. unfold withFolder. destruct (getAbstractFileByPath v path); [reflexivity|].
  unfold getAbstractFileByPath. rewrite lookup_app. simpl.
  destruct (String.eqb_spec path q); [congruence|].
  destruct (lookup q v); reflexivity.
Qed.

End StoreFacts.

(* ================================================================= *)
(** ** Role concepts *)

Section RoleNotes.
Import JS Store Revised Engine Props.
Variable settings : ComicSearchSettings.
Variable host : Host.

Local Abbreviation resolve := (getOrCreateRoleNoteWith settings host).
Local Abbreviation concepts := (conceptsFolder settings).
Local Abbreviation pathOf := (roleFilePath settings).
Local Abbreviation inConcepts := (Props.inConcepts settings).

Lemma create_runs (path : string) (text : NoteText) (w : World) :
  getAbstractFileByPath (vault w) path = None ->
  create path text w = Ok path (withNote path text w).
Proof.
  intros H. unfold create, bind, getVault. rewrite H. reflexivity.
Qed.

Lemma create_settles (path : string) (text : NoteText) (w : World) :
  settles (create path text w).
Proof.
  unfold create, bind, getVault, settles.
  destruct (getAbstractFileByPath (vault w) path); simpl; discriminate.
Qed.

Lemma resolve_found (hierarchy : list (string * string)) (fuel : nat)
    (roleName : string) (w : World) (e : Entry) :
  getAbstractFileByPath (vault (inConcepts w)) (pathOf roleName) = Some e ->
  resolve hierarchy (S fuel) roleName w = Ok (pathOf roleName) (inConcepts w).
Proof.
  intros H. simpl. unfold bind at 1. rewrite ensureFolderExists_runs.
  unfold bind, getVault. fold (inConcepts w). rewrite H. reflexivity.
Qed.

Lemma resolve_leaf (hierarchy : list (string * string)) (fuel : nat)
    (roleName : string) (w : World) :
  getAbstractFileByPath (vault (inConcepts w)) (pathOf roleName) = None ->
  parentOf hierarchy (capitalizedRole roleName) = None ->
  inherits hierarchy (capitalizedRole roleName) = false ->
  resolve hierarchy (S fuel) roleName w =
  Ok (pathOf roleName)
     (withNote (pathOf roleName)
        (buildFrontmatter
           (roleFrontmatter (capitalizedRole roleName) (toISOString host (readings w)))
           (roleBody (capitalizedRole roleName)))
        (ticked (inConcepts w))).
Proof.
  intros H Hl Hi. simpl. unfold bind at 1. rewrite ensureFolderExists_runs.
  unfold bind at 1. unfold getVault. fold (inConcepts w). rewrite H.
  unfold bind at 1. unfold nowISO. unfold parentOf in Hl. unfold inherits, member in Hi.
  unfold getProperty.
  destruct (lookup (capitalizedRole roleName) hierarchy) as [parent|].
  - destruct (isEmpty parent); [|discriminate].
    unfold bind at 1. unfold ret. apply create_runs. exact H.
  - rewrite Hi. unfold bind at 1. unfold ret. apply create_runs. exact H.
Qed.

(** A name of a member of [Object.prototype] that has no note yet: the
    folder is there, the clock was read, and the call throws. *)
Lemma resolve_member (hierarchy : list (string * string)) (fuel : nat)
    (roleName : string) (w : World) :
  getAbstractFileByPath (vault (inConcepts w)) (pathOf roleName) = None ->
  inherits hierarchy (capitalizedRole roleName) = true ->
  resolve hierarchy (S fuel) roleName w = Throw "TypeError" (ticked (inConcepts w)).
Proof.
  intros H Hi. simpl. unfold bind at 1. rewrite ensureFolderExists_runs.
  unfold bind at 1. unfold getVault. fold (inConcepts w). rewrite H.
  unfold bind at 1. unfold nowISO. unfold inherits, member in Hi. unfold getProperty.
  destruct (lookup (capitalizedRole roleName) hierarchy) as [parent|]; [discriminate|].
  rewrite Hi. reflexivity.
Qed.

Lemma resolve_child (hierarchy : list (string * string)) (fuel : nat)
    (roleName parent : string) (w : World) :
  getAbstractFileByPath (vault (inConcepts w)) (pathOf roleName) = None ->
  parentOf hierarchy (capitalizedRole roleName) = Some parent ->
  resolve hierarchy (S fuel) roleName w =
  match resolve hierarchy fuel parent (ticked (inConcepts w)) with
  | Ok parentRoleNote w' =>
      create (pathOf roleName)
        (buildFrontmatter
           (assign "subConceptOf" (YStr ("[[" ++ baseName parentRoleNote ++ "]]"))
              (roleFrontmatter (capitalizedRole roleName) (toISOString host (readings w))))
           (roleBody (capitalizedRole roleName))) w'
  | Throw error w' => Throw error w'
  | OutOfFuel => OutOfFuel
  end.
Proof.
  intros H Hl. simpl. unfold bind at 1. rewrite ensureFolderExists_runs.
  unfold bind at 1. unfold getVault. fold (inConcepts w). rewrite H.
  unfold bind at 1. unfold nowISO. unfold parentOf in Hl. unfold getProperty.
  destruct (lookup (capitalizedRole roleName) hierarchy) as [parent'|]; [|discriminate].
  destruct (isEmpty parent'); [discriminate|]. injection Hl as ->.
  unfold bind at 1. unfold bind at 1. fold (ticked (inConcepts w)).
  destruct (resolve hierarchy fuel parent (ticked (inConcepts w))); reflexivity.
Qed.

(** A resolution only ever adds to the vault. *)
Lemma resolve_extends (hierarchy : list (string * string)) (fuel : nat) :
  forall (roleName : string) (w w' : World) (f : string),
  resolve hierarchy fuel roleName w = Ok f w' ->
  exists ext, vault w' = (vault w ++ ext)%list.
Proof.
  assert (F : forall w, exists ext, vault (inConcepts w) = (vault w ++ ext)%list).
  { intros w. unfold Props.inConcepts, withFolder. simpl.
    destruct (getAbstractFileByPath (vault w) concepts).
    - exists []. now rewrite app_nil_r.
    - eexists. reflexivity. }
  induction fuel as [|fuel IH]; intros roleName w w' f H; [discriminate|].
  destruct (F w) as [ext0 E0].
  destruct (getAbstractFileByPath (vault (inConcepts w)) (pathOf roleName)) eqn:Ef.
  - rewrite (resolve_found _ _ _ _ _ Ef) in H. injection H as <- <-. eauto.
  - destruct (parentOf hierarchy (capitalizedRole roleName)) as [parent|] eqn:Ep.
    + rewrite (resolve_child _ _ _ _ _ Ef Ep) in H.
      destruct (resolve hierarchy fuel parent (ticked (inConcepts w))) as [pf w1| |] eqn:Er;
        try discriminate.
      apply IH in Er. destruct Er as [ext1 E1].
      change (vault (ticked (inConcepts w))) with (vault (inConcepts w)) in E1.
      destruct (getAbstractFileByPath (vault w1) (pathOf roleName)) eqn:E2.
      { unfold create, bind, getVault in H. rewrite E2 in H. discriminate. }
      rewrite (create_runs _ _ _ E2) in H. injection H as <- <-.
      cbn [vault withNote]. rewrite E1, E0.
      rewrite <- !app_assoc. eauto.
    + destruct (inherits hierarchy (capitalizedRole roleName)) eqn:Ei.
      { rewrite (resolve_member _ _ _ _ Ef Ei) in H. discriminate. }
      rewrite (resolve_leaf _ _ _ _ Ef Ep Ei) in H. injection H as <- <-.
      cbn [vault withNote ticked]. rewrite E0. rewrite <- app_assoc. eauto.
Qed.

Lemma extends_keeps (v : Vault) (ext : list (string * Entry)) (path : string) :
  getAbstractFileByPath v path <> None ->
  getAbstractFileByPath (v ++ ext)%list path <> None.
Proof.
  unfold getAbstractFileByPath. rewrite lookup_app.
  destruct (lookup path v); congruence.
Qed.

(** What a resolution that returns leaves behind. *)
Lemma resolve_returns (hierarchy : list (string * string)) (fuel : nat)
    (roleName : string) (w w' : World) (f : string) :
  resolve hierarchy fuel roleName w = Ok f w' ->
  f = pathOf roleName
  /\ getAbstractFileByPath (vault w') concepts <> None
  /\ getAbstractFileByPath (vault w') (pathOf roleName) <> None.
Proof.
  destruct fuel as [|fuel]; [discriminate|]. intros H.
  pose proof (withFolder_has concepts (vault w)) as Hc.
  destruct (getAbstractFileByPath (vault (inConcepts w)) (pathOf roleName)) eqn:Ef.
  - rewrite (resolve_found _ _ _ _ _ Ef) in H. injection H as <- <-.
    repeat split; [exact Hc | rewrite Ef; discriminate].
  - destruct (parentOf hierarchy (capitalizedRole roleName)) as [parent|] eqn:Ep.
    + rewrite (resolve_child _ _ _ _ _ Ef Ep) in H.
      destruct (resolve hierarchy fuel parent (ticked (inConcepts w))) as [pf w1| |] eqn:Er;
        try discriminate.
      apply resolve_extends in Er. destruct Er as [ext1 E1].
      change (vault (ticked (inConcepts w))) with (vault (inConcepts w)) in E1.
      destruct (getAbstractFileByPath (vault w1) (pathOf roleName)) eqn:E2.
      { unfold create, bind, getVault in H. rewrite E2 in H. discriminate. }
      rewrite (create_runs _ _ _ E2) in H. injection H as <- <-.
      cbn [vault withNote]. repeat split.
      * apply extends_keeps. rewrite E1. apply extends_keeps. exact Hc.
      * unfold getAbstractFileByPath in *. rewrite lookup_last by exact E2.
        rewrite String.eqb_refl. discriminate.
    + destruct (inherits hierarchy (capitalizedRole roleName)) eqn:Ei.
      { rewrite (resolve_member _ _ _ _ Ef Ei) in H. discriminate. }
      rewrite (resolve_leaf _ _ _ _ Ef Ep Ei) in H. injection H as <- <-.
      cbn [vault withNote ticked].
      repeat split.
      * apply extends_keeps. exact Hc.
      * unfold getAbstractFileByPath in *. rewrite lookup_last by exact Ef.
        rewrite String.eqb_refl. discriminate.
Qed.

Lemma inConcepts_idle (w : World) :
  getAbstractFileByPath (vault w) concepts <> None -> inConcepts w = w.
Proof.
  intros H. unfold Props.inConcepts. rewrite withFolder_idle by exact H.
  destruct w; reflexivity.
Qed.

(** Once resolved, a canonical name resolves to the same note and nothing
    is written. *)
Lemma resolve_again (hierarchy : list (string * string)) (fuel fuel' : nat)
    (r1 r2 : string) (w w' : World) (f : string) :
  capitalizedRole r1 = capitalizedRole r2 ->
  resolve hierarchy fuel r1 w = Ok f w' ->
  resolve hierarchy (S fuel') r2 w' = Ok f w'.
Proof.
  intros Hc H. apply resolve_returns in H. destruct H as [-> [H1 H2]].
  assert (P : pathOf r2 = pathOf r1) by (unfold roleFilePath; now rewrite Hc).
  destruct (getAbstractFileByPath (vault w') (pathOf r1)) as [e|] eqn:E; [|congruence].
  rewrite <- P in *.
  rewrite (resolve_found hierarchy fuel' r2 w' e).
  - now rewrite inConcepts_idle.
  - now rewrite inConcepts_idle.
Qed.

(** Paths of role notes *)

Lemma split_append (sep : ascii) (a b : string) :
  split sep (a ++ String sep b) = (split sep a ++ split sep b)%list.
Proof.
  induction a as [|c a IH]; simpl.
  - rewrite Ascii.eqb_refl. reflexivity.
  - destruct (Ascii.eqb c sep); [now rewrite IH|].
    rewrite IH. pose proof (split_not_nil sep a) as Hn.
    destruct (split sep a); [congruence | reflexivity].
Qed.

Lemma fileName_in_folder (folder name : string) :
  lacks "/" name -> fileName (folder ++ String "/" name) = name.
Proof.
  intros H. unfold fileName. rewrite split_append, (split_whole "/" name H).
  apply last_last.
Qed.

Lemma artist_path : pathOf "Artist" = concepts ++ "/Artist (Role).md".
Proof. reflexivity. Qed.

Lemma penciler_path : pathOf "Penciler" = concepts ++ "/Penciler (Role).md".
Proof. reflexivity. Qed.

Lemma artist_baseName : baseName (pathOf "Artist") = "Artist (Role)".
Proof.
  unfold baseName. rewrite artist_path.
  change (concepts ++ "/Artist (Role).md") with (concepts ++ String "/" "Artist (Role).md").
  rewrite fileName_in_folder; [reflexivity|].
  unfold lacks. simpl. intros H.
  repeat (destruct H as [H|H]; [discriminate H|]). exact H.
Qed.

Lemma role_path_not_folder (roleName : string) : pathOf roleName <> concepts.
Proof. unfold roleFilePath. apply append_longer. discriminate. Qed.

(** The table of the source *)

Lemma hierarchy_parents (capitalized parent : string) :
  parentOf roleHierarchy capitalized = Some parent ->
  parent = "Artist" \/ parent = "Writer".
Proof.
  unfold parentOf. destruct (lookup capitalized roleHierarchy) as [p|] eqn:E; [|discriminate].
  apply lookup_In in E. simpl in E.
  repeat (destruct E as [E|E]; [injection E as <- <-; intros [= <-]; auto|]).
  contradiction.
Qed.

Lemma resolve_top (fuel : nat) (parent : string) (w : World) :
  parent = "Artist" \/ parent = "Writer" ->
  resolve roleHierarchy (S fuel) parent w = resolve roleHierarchy 1 parent w
  /\ settles (resolve roleHierarchy 1 parent w).
Proof.
  intros Hp.
  assert (L : parentOf roleHierarchy (capitalizedRole parent) = None)
    by (destruct Hp as [->| ->]; reflexivity).
  assert (N : inherits roleHierarchy (capitalizedRole parent) = false)
    by (destruct Hp as [->| ->]; reflexivity).
  destruct (getAbstractFileByPath (vault (inConcepts w)) (pathOf parent)) eqn:Ef.
  - rewrite !(resolve_found _ _ _ _ _ Ef). split; [reflexivity | discriminate].
  - rewrite !(resolve_leaf _ _ _ _ Ef L N). split; [reflexivity | discriminate].
Qed.

Lemma resolve_two_levels (roleName : string) (w : World) (fuel : nat) :
  resolve roleHierarchy (S (S fuel)) roleName w = resolve roleHierarchy 2 roleName w
  /\ settles (resolve roleHierarchy 2 roleName w).
Proof.
  destruct (getAbstractFileByPath (vault (inConcepts w)) (pathOf roleName)) eqn:Ef.
  - rewrite !(resolve_found _ _ _ _ _ Ef). split; [reflexivity | discriminate].
  - destruct (parentOf roleHierarchy (capitalizedRole roleName)) as [parent|] eqn:Ep.
    + rewrite !(resolve_child _ _ _ _ _ Ef Ep).
      destruct (resolve_top fuel parent (ticked (inConcepts w)) (hierarchy_parents _ _ Ep))
        as [E S]. rewrite E. split; [reflexivity|].
      destruct (resolve roleHierarchy 1 parent (ticked (inConcepts w))).
      * apply create_settles.
      * discriminate.
      * exact S.
    + destruct (inherits roleHierarchy (capitalizedRole roleName)) eqn:Ei.
      * rewrite !(resolve_member _ _ _ _ Ef Ei). split; [reflexivity | discriminate].
      * rewrite !(resolve_leaf _ _ _ _ Ef Ep Ei). split; [reflexivity | discriminate].
Qed.

(** C10 (as the code has it). Role resolution keeps no set of visited names.
    It comes back for every role name because the table of parent roles is
    the fixed one of the source, in which no parent has a parent: one hop is
    all the recursion ever makes, so any bound of two or more levels gives
    the same result, and that result is a note or an error of the store. *)
Theorem role_resolution_is_total (roleName : string) (w : World) (fuel : nat) :
  2 <= fuel ->
  resolve roleHierarchy fuel roleName w = getOrCreateRoleNote settings host roleName w
  /\ settles (getOrCreateRoleNote settings host roleName w).
Proof.
  intros Hf. destruct fuel as [|[|fuel]]; try lia.
  exact (resolve_two_levels roleName w fuel).
Qed.

(** C4. In a store that holds neither note, resolving "Penciler" creates the
    note of the parent role "Artist" and then the note of "Penciler", whose
    header links to "Artist" under [subConceptOf]; resolving "Penciler" again
    creates nothing; and once a role is resolved, every request for the same
    canonical name gets the same note and writes nothing. *)
Theorem penciler_resolves_with_artist (w : World) :
  getAbstractFileByPath (vault w) (pathOf "Penciler") = None ->
  getAbstractFileByPath (vault w) (pathOf "Artist") = None ->
  let artist :=
    WithHeader (roleFrontmatter "Artist" (toISOString host (S (readings w))))
               (String "010" (roleBody "Artist")) in
  let penciler :=
    WithHeader (assign "subConceptOf" (YStr "[[Artist (Role)]]")
                  (roleFrontmatter "Penciler" (toISOString host (readings w))))
               (String "010" (roleBody "Penciler")) in
  let w1 :=
    {| vault := (withFolder concepts (vault w)
                 ++ [(pathOf "Artist", Note artist); (pathOf "Penciler", Note penciler)])%list;
       readings := S (S (readings w)) |} in
  getOrCreateRoleNote settings host "Penciler" w = Ok (pathOf "Penciler") w1
  /\ lookup "subConceptOf" (fst (parseFrontmatter penciler)) = Some (YStr "[[Artist (Role)]]")
  /\ getOrCreateRoleNote settings host "Penciler" w1 = Ok (pathOf "Penciler") w1
  /\ (forall r1 r2 w0 w0' f,
        capitalizedRole r1 = capitalizedRole r2 ->
        getOrCreateRoleNote settings host r1 w0 = Ok f w0' ->
        getOrCreateRoleNote settings host r2 w0' = Ok f w0').
Proof.
  intros HP HA artist penciler w1.
  assert (Again : forall r1 r2 w0 w0' f,
        capitalizedRole r1 = capitalizedRole r2 ->
        getOrCreateRoleNote settings host r1 w0 = Ok f w0' ->
        getOrCreateRoleNote settings host r2 w0' = Ok f w0').
  { intros r1 r2 w0 w0' f Hc H. unfold getOrCreateRoleNote in *.
    exact (resolve_again _ _ _ _ _ _ _ _ Hc H). }
  assert (First : getOrCreateRoleNote settings host "Penciler" w = Ok (pathOf "Penciler") w1).
  { unfold getOrCreateRoleNote.
    assert (EP : getAbstractFileByPath (vault (inConcepts w)) (pathOf "Penciler") = None).
    { cbn [vault Props.inConcepts]. rewrite withFolder_lookup; [exact HP|].
      apply role_path_not_folder. }
    rewrite (resolve_child roleHierarchy 1 "Penciler" "Artist" w EP eq_refl).
    assert (I2 : inConcepts (ticked (inConcepts w)) = ticked (inConcepts w)).
    { apply inConcepts_idle. cbn [vault ticked Props.inConcepts]. apply withFolder_has. }
    assert (EA : getAbstractFileByPath (vault (inConcepts (ticked (inConcepts w))))
                   (pathOf "Artist") = None).
    { rewrite I2. cbn [vault ticked Props.inConcepts]. rewrite withFolder_lookup; [exact HA|].
      apply role_path_not_folder. }
    rewrite (resolve_leaf roleHierarchy 0 "Artist" _ EA eq_refl eq_refl).
    rewrite I2, artist_baseName.
    rewrite create_runs.
    - f_equal. unfold w1, withNote. cbn [vault readings ticked Props.inConcepts].
      rewrite <- app_assoc. reflexivity.
    - cbn [vault withNote ticked Props.inConcepts].
      rewrite path_last.
      + destruct (String.eqb_spec (pathOf "Artist") (pathOf "Penciler")) as [E|]; [|reflexivity].
        rewrite artist_path, penciler_path in E. apply append_inj in E. discriminate.
      + rewrite withFolder_lookup; [exact HP | apply role_path_not_folder]. }
  split; [exact First|]. split; [reflexivity|]. split; [|exact Again].
  exact (Again "Penciler" "Penciler" w w1 _ eq_refl First).
Qed.

End RoleNotes.

Section RoleNoteSamples.
Import JS Store Revised Engine Props.

Lemma penciler_resolves_with_artist_witness :
  exists w1,
    getOrCreateRoleNote sampleSettings sampleHost "Penciler" emptyWorld =
      Ok "Comics/Concepts/Penciler (Role).md" w1
    /\ map fst (vault w1) =
       ["Comics/Concepts"; "Comics/Concepts/Artist (Role).md";
        "Comics/Concepts/Penciler (Role).md"]
    /\ getOrCreateRoleNote sampleSettings sampleHost "Penciler" w1 =
      Ok "Comics/Concepts/Penciler (Role).md" w1.
Proof.
  eexists. split; [|split].
  - apply (proj1 (penciler_resolves_with_artist sampleSettings sampleHost emptyWorld
                    eq_refl eq_refl)).
  - reflexivity.
  - apply (proj1 (proj2 (proj2 (penciler_resolves_with_artist sampleSettings sampleHost
                                  emptyWorld eq_refl eq_refl)))).
Defined.

Lemma role_resolution_is_total_witness :
  2 <= 7
  /\ getOrCreateRoleNoteWith sampleSettings sampleHost (roleHierarchy) 7 "cover artist" emptyWorld
     = getOrCreateRoleNote sampleSettings sampleHost "cover artist" emptyWorld
  /\ settles (getOrCreateRoleNote sampleSettings sampleHost "cover artist" emptyWorld).
Proof.
  split; [lia|].
  apply (role_resolution_is_total sampleSettings sampleHost "cover artist" emptyWorld 7).
  lia.
Defined.

Lemma cycle_runs_out (fuel : nat) :
  forall (roleName : string) (w : World),
  roleName = "Penciler" \/ roleName = "Artist" ->
  getAbstractFileByPath (vault w) (roleFilePath sampleSettings "Penciler") = None ->
  getAbstractFileByPath (vault w) (roleFilePath sampleSettings "Artist") = None ->
  getOrCreateRoleNoteWith sampleSettings sampleHost cyclicHierarchy fuel roleName w
  = OutOfFuel.
Proof.
  induction fuel as [|fuel IH]; intros roleName w Hr HP HA; [reflexivity|].
  assert (HP' : getAbstractFileByPath (vault (inConcepts sampleSettings w))
                  (roleFilePath sampleSettings "Penciler") = None).
  { cbn [vault inConcepts]. rewrite withFolder_lookup; [exact HP | discriminate]. }
  assert (HA' : getAbstractFileByPath (vault (inConcepts sampleSettings w))
                  (roleFilePath sampleSettings "Artist") = None).
  { cbn [vault inConcepts]. rewrite withFolder_lookup; [exact HA | discriminate]. }
  destruct Hr as [->| ->].
  - rewrite (resolve_child sampleSettings sampleHost cyclicHierarchy fuel
               "Penciler" "Artist" w HP' eq_refl).
    rewrite IH; auto.
  - rewrite (resolve_child sampleSettings sampleHost cyclicHierarchy fuel
               "Artist" "Penciler" w HA' eq_refl).
    rewrite IH; auto.
Qed.

(** C10, as stated, fails: nothing in the resolution remembers the names it
    has in hand.  Over a table in which Penciler and Artist are each other's
    parent, resolving "Penciler" in an empty store never comes back, whatever
    the depth it is allowed. *)
Lemma role_resolution_cycle_never_returns :
  ~ exists fuel,
      settles (getOrCreateRoleNoteWith sampleSettings sampleHost cyclicHierarchy
                 fuel "Penciler" emptyWorld).
Proof.
  intros [fuel H]. apply H. apply cycle_runs_out; auto.
Qed.

End RoleNoteSamples.

(* ================================================================= *)
(** ** Merging headers *)

Section Headers.
Import JS Store Revised Engine Props.

Lemma lookup_assign_same {A} (k : string) (v : A) (o : list (string * A)) :
  lookup k (assign k v o) = Some v.
Proof.
  induction o as [|[k' v'] o IH]; simpl.
  - now rewrite String.eqb_refl.
  - destruct (String.eqb k' k) eqn:E; simpl; rewrite E; [reflexivity | exact IH].
Qed.

Lemma lookup_assign_other {A} (k k' : string) (v : A) (o : list (string * A)) :
  k' <> k -> lookup k' (assign k v o) = lookup k' o.
Proof.
  intros Hk. induction o as [|[k0 v0] o IH]; simpl.
  - destruct (String.eqb_spec k k'); [congruence | reflexivity].
  - destruct (String.eqb_spec k0 k) as [->|Hn]; simpl.
    + destruct (String.eqb_spec k k'); [congruence | reflexivity].
    + destruct (String.eqb k0 k'); [reflexivity | exact IH].
Qed.

Lemma assign_not_nil {A} (k : string) (v : A) (o : list (string * A)) :
  assign k v o <> [].
Proof. destruct o as [|[k' v'] o]; simpl; [discriminate|]. destruct (String.eqb k' k); discriminate. Qed.

Lemma creditPairs_assign_other (k : string) (v : yaml) (fm : Frontmatter) :
  k <> "credits" -> creditPairs (assign k v fm) = creditPairs fm.
Proof.
  intros Hk. unfold creditPairs. rewrite lookup_assign_other; [reflexivity|].
  congruence.
Qed.

Lemma keeps_refl (fm : Frontmatter) : keeps fm fm.
Proof. intros k v H. right. left. exact H. Qed.

(** Whatever an update does to a key, the key is still there. *)
Lemma keeps_present (b c : Frontmatter) (k : string) (v : yaml) :
  keeps b c -> lookup k b = Some v -> lookup k c <> None.
Proof.
  intros H Hk.
  destruct (H k v Hk) as [[_ N]|[E|[[_ [_ N]]|[[_ [_ E]]|[_ [i [i' [_ [E _]]]]]]]]];
    first [exact N | rewrite E; discriminate].
Qed.

Lemma keeps_trans (a b c : Frontmatter) : keeps a b -> keeps b c -> keeps a c.
Proof.
  intros Hab Hbc k v Hk.
  destruct (Hab k v Hk) as [[Hd N]|[Hb|[[Hp [Ht N]]|[[-> [-> Hb]]|[Hl [i [i' [-> [Hb I]]]]]]]]].
  - left. split; [exact Hd|].
    destruct (lookup k b) as [x|] eqn:E; [|congruence].
    exact (keeps_present b c k x Hbc E).
  - exact (Hbc k v Hb).
  - right. right. left. split; [exact Hp|]. split; [exact Ht|].
    destruct (lookup k b) as [x|] eqn:E; [|congruence].
    exact (keeps_present b c k x Hbc E).
  - destruct (Hbc "entityType" (YStr "Person") Hb)
      as [[Hd _]|[Hc|[[_ [Ht _]]|[[_ [Hx _]]|[Hl _]]]]]; try discriminate.
    right. right. right. left. auto.
  - destruct (Hbc k (YList i') Hb)
      as [[-> _]|[Hc|[[_ [Ht _]]|[[_ [Hx _]]|[_ [j [j' [Ej [Hc J]]]]]]]]];
      try discriminate.
    + right. right. right. right. split; [exact Hl|]. exists i, i'. auto.
    + injection Ej as <-. right. right. right. right. split; [exact Hl|].
      exists i, j'. split; [reflexivity|]. split; [exact Hc|].
      eapply incl_tran; eassumption.
Qed.

Lemma unions_refl (key : string) (fm : Frontmatter) : unions key fm fm.
Proof. intros items H. exists items. split; [exact H | apply incl_refl]. Qed.

Lemma unions_trans (key : string) (a b c : Frontmatter) :
  unions key a b -> unions key b c -> unions key a c.
Proof.
  intros Hab Hbc items H. destruct (Hab items H) as [items' [H' I']].
  destruct (Hbc items' H') as [items'' [H'' I'']].
  exists items''. split; [exact H'' | eapply incl_tran; eassumption].
Qed.

Lemma merged_refl (fm : Frontmatter) : merged fm fm.
Proof.
  repeat split; try apply unions_refl; [apply keeps_refl | auto].
Qed.

Lemma merged_trans (a b c : Frontmatter) : merged a b -> merged b c -> merged a c.
Proof.
  intros [K1 [R1 [C1 [T1 N1]]]] [K2 [R2 [C2 [T2 N2]]]].
  repeat split.
  - eapply keeps_trans; eassumption.
  - eapply unions_trans; eassumption.
  - eapply unions_trans; eassumption.
  - eapply unions_trans; eassumption.
  - auto.
Qed.

Lemma falsy_not_truthy (o : option yaml) (v : yaml) :
  falsy o = true -> o = Some v -> truthy v = false.
Proof. intros H ->. simpl in H. now apply negb_true_iff in H. Qed.

Lemma unions_assign_other (key k : string) (v : yaml) (fm : Frontmatter) :
  key <> k -> unions key fm (assign k v fm).
Proof.
  intros Hk items H. exists items.
  rewrite lookup_assign_other by exact Hk. split; [exact H | apply incl_refl].
Qed.

Lemma unions_assign_falsy (key k : string) (v : yaml) (fm : Frontmatter) :
  falsy (lookup k fm) = true -> unions key fm (assign k v fm).
Proof.
  intros Hf. destruct (String.eqb_spec key k) as [->|Hn].
  - intros items H. rewrite H in Hf. discriminate Hf.
  - apply unions_assign_other. exact Hn.
Qed.

(** What an assignment to one key does to the others. *)
Lemma keeps_assign (k : string) (v : yaml) (fm : Frontmatter) :
  (forall x, lookup k fm = Some x ->
     k = "modification date"
     \/ (populated k = true /\ truthy x = false)
     \/ (k = "entityType" /\ x = YStr "ComicCreator" /\ v = YStr "Person")
     \/ (listField k = true
         /\ exists items items', x = YList items /\ v = YList items' /\ incl items items')) ->
  keeps fm (assign k v fm).
Proof.
  intros H key x Hk. destruct (String.eqb_spec key k) as [->|Hn].
  - assert (N : lookup k (assign k v fm) <> None)
      by (rewrite lookup_assign_same; discriminate).
    destruct (H x Hk) as [Hd|[[Hp Ht]|[[He [Hx Hv]]|[Hl [i [i' [Hx [Hv I]]]]]]]].
    + left. auto.
    + right. right. left. auto.
    + right. right. right. left. rewrite lookup_assign_same. subst. auto.
    + right. right. right. right. split; [exact Hl|]. exists i, i'.
      rewrite lookup_assign_same. subst. auto.
  - right. left. now rewrite lookup_assign_other.
Qed.

(** One of the engine's keys without a truthy value is set. *)
Lemma merged_assign_falsy (k : string) (v : yaml) (fm : Frontmatter) :
  populated k = true ->
  falsy (lookup k fm) = true -> k <> "credits" -> merged fm (assign k v fm).
Proof.
  intros Hp Hf Hc. repeat split; try (apply unions_assign_falsy; exact Hf).
  - apply keeps_assign. intros x Hk. right. left.
    split; [exact Hp | exact (falsy_not_truthy _ _ Hf Hk)].
  - now rewrite creditPairs_assign_other.
Qed.

(** The date of the last change is refreshed. *)
Lemma merged_assign_date (v : yaml) (fm : Frontmatter) :
  merged fm (assign "modification date" v fm).
Proof.
  repeat split; try (apply unions_assign_other; discriminate).
  - apply keeps_assign. intros x _. now left.
  - now rewrite creditPairs_assign_other by discriminate.
Qed.

(** The entity type of the earlier plug-in is upgraded. *)
Lemma merged_assign_entityType (fm : Frontmatter) :
  isStr (lookup "entityType" fm) "ComicCreator" = true ->
  merged fm (assign "entityType" (YStr "Person") fm).
Proof.
  intros Hs. repeat split; try (apply unions_assign_other; discriminate).
  - apply keeps_assign. intros x Hk. right. right. left.
    rewrite Hk in Hs. destruct x; try discriminate Hs.
    apply String.eqb_eq in Hs. subst. auto.
  - now rewrite creditPairs_assign_other by discriminate.
Qed.

(** A list field gains an item, or is put in order. *)
Lemma merged_assign_list (k : string) (items items' : list yaml) (fm : Frontmatter) :
  k = "roles" \/ k = "tags" ->
  lookup k fm = Some (YList items) -> incl items items' ->
  merged fm (assign k (YList items') fm).
Proof.
  intros Hk Hl Hi.
  assert (U : forall key, unions key fm (assign k (YList items') fm)).
  { intros key. destruct (String.eqb_spec key k) as [->|Hn].
    - intros l H. rewrite Hl in H. injection H as <-.
      exists items'. rewrite lookup_assign_same. auto.
    - apply unions_assign_other. exact Hn. }
  repeat split; try apply U.
  - apply keeps_assign. intros x Hx. right. right. right.
    split; [destruct Hk as [->| ->]; reflexivity|].
    exists items, items'. rewrite Hl in Hx. injection Hx as <-. auto.
  - rewrite creditPairs_assign_other; [auto|]. destruct Hk as [->| ->]; discriminate.
Qed.

Lemma someCredit_absent (role work : string) (items : list yaml) :
  someCredit role work items = Some false ->
  ~ In (role, work) (flat_map creditPair items).
Proof.
  induction items as [|c items IH]; simpl; [tauto|].
  destruct c as [ | | | | |o]; try discriminate; simpl; try exact IH.
  destruct (lookup "role" o) as [[ | | |r| | ]|] eqn:Er; simpl;
    try exact IH.
  destruct (lookup "work" o) as [[ | | |x| | ]|] eqn:Ew; simpl;
    try (rewrite andb_false_r; exact IH); try exact IH.
  destruct (String.eqb_spec r role) as [->|Hr]; simpl.
  - destruct (String.eqb_spec x work) as [->|Hw]; [discriminate|].
    intros H [E|E]; [congruence | exact (IH H E)].
  - intros H [E|E]; [congruence | exact (IH H E)].
Qed.

Lemma merged_assign_credit (role work : string) (items : list yaml) (fm : Frontmatter) :
  lookup "credits" fm = Some (YList items) ->
  someCredit role work items = Some false ->
  merged fm (assign "credits" (YList (items ++ [creditValue role work])%list) fm).
Proof.
  intros Hl Hs. repeat split; try (apply unions_assign_other; discriminate).
  - apply keeps_assign. intros x Hx. right. right. right. split; [reflexivity|].
    rewrite Hl in Hx. injection Hx as <-. eexists. eexists.
    split; [reflexivity|]. split; [reflexivity|]. apply incl_appl, incl_refl.
  - intros l H. rewrite Hl in H. injection H as <-.
    eexists. rewrite lookup_assign_same. split; [reflexivity|].
    apply incl_appl, incl_refl.
  - unfold creditPairs. rewrite Hl, lookup_assign_same, flat_map_app. simpl.
    intros N. apply NoDup_app; [exact N | repeat constructor; simpl; tauto|].
    intros p Hp [<-|[]]. exact (someCredit_absent _ _ _ Hs Hp).
Qed.

Lemma draft_le_refl (d : Draft) : draft_le d d.
Proof. split; [apply merged_refl | auto]. Qed.

Lemma draft_le_trans (a b c : Draft) : draft_le a b -> draft_le b c -> draft_le a c.
Proof.
  intros [M1 C1] [M2 C2]. split; [eapply merged_trans; eassumption | auto].
Qed.

Lemma setWhen_le (cond : bool) (k : string) (v : yaml) (d : Draft) :
  (cond = true -> merged (fst d) (assign k v (fst d))) ->
  draft_le d (setWhen cond k v d).
Proof.
  intros H. unfold setWhen. destruct cond; [|apply draft_le_refl].
  split; [apply H; reflexivity | reflexivity].
Qed.

Lemma setWhen_falsy_le (k : string) (v : yaml) (d : Draft) :
  populated k = true ->
  k <> "credits" -> draft_le d (setWhen (falsy (lookup k (fst d))) k v d).
Proof.
  intros Hp Hk. apply setWhen_le. intros Hf. apply merged_assign_falsy; assumption.
Qed.

Lemma setDate_le (host : Host) (k : string) (dateString : option string) (d : Draft) :
  populated k = true ->
  k <> "credits" -> draft_le d (setDate host k dateString d).
Proof.
  intros Hp Hk. unfold setDate.
  destruct (parseCreatorDate (hostParse host) dateString); [|apply draft_le_refl].
  apply setWhen_falsy_le; assumption.
Qed.

Lemma merged_nil (fm : Frontmatter) : creditPairs fm = [] -> merged [] fm.
Proof.
  intros H. split; [|split; [|split; [|split]]].
  - intros k v Hk. discriminate Hk.
  - intros items Hk. discriminate Hk.
  - intros items Hk. discriminate Hk.
  - intros items Hk. discriminate Hk.
  - rewrite H. constructor.
Qed.

Lemma creditPairs_setWhen (cond : bool) (k : string) (v : yaml) (d : Draft) :
  k <> "credits" -> creditPairs (fst (setWhen cond k v d)) = creditPairs (fst d).
Proof.
  intros Hk. unfold setWhen. destruct cond; [|reflexivity].
  simpl. now apply creditPairs_assign_other.
Qed.

Lemma creditPairs_setDate (host : Host) (k : string) (dateString : option string)
    (d : Draft) :
  k <> "credits" -> creditPairs (fst (setDate host k dateString d)) = creditPairs (fst d).
Proof.
  intros Hk. unfold setDate.
  destruct (parseCreatorDate (hostParse host) dateString); [|reflexivity].
  now apply creditPairs_setWhen.
Qed.

(** The merge of fetched details: into an existing header it is a merge in
    the sense above; a new header starts without credits. *)
Lemma mergeDetails_le (host : Host) (isNew : bool) (now : string)
    (p : ComicVinePerson) (fm : Frontmatter) :
  (isNew = true -> fm = []) ->
  merged fm (fst (mergeDetails host isNew now p fm)).
Proof.
  intros Hnew. destruct isNew.
  - rewrite (Hnew eq_refl). apply merged_nil. unfold mergeDetails.
    rewrite !creditPairs_setDate by discriminate. cbn [fst snd].
    rewrite creditPairs_assign_other by discriminate.
    rewrite !creditPairs_assign_other by discriminate.
    rewrite !creditPairs_setWhen by discriminate. reflexivity.
  - unfold mergeDetails.
    match goal with
    | |- merged _ (fst (setDate _ _ _ (setDate _ _ _ (?m, snd ?d4)))) =>
        assert (D : draft_le (fm, false) d4)
    end.
    { eapply draft_le_trans; [|apply setWhen_falsy_le; [reflexivity | discriminate]].
      eapply draft_le_trans; [|apply setWhen_falsy_le; [reflexivity | discriminate]].
      eapply draft_le_trans; [|apply setWhen_falsy_le; [reflexivity | discriminate]].
      apply setWhen_le. intros Hc. apply orb_true_iff in Hc. destruct Hc as [Hc|Hc].
      - apply merged_assign_falsy; [reflexivity | exact Hc | discriminate].
      - apply merged_assign_entityType. exact Hc. }
    match goal with
    | |- merged _ (fst (setDate _ _ _ (setDate _ _ _ ?d5))) =>
        assert (D5 : draft_le (fm, false) d5)
    end.
    { eapply draft_le_trans; [exact D|]. split; [apply merged_assign_date | auto]. }
    apply (draft_le_trans _ _ _ D5).
    eapply draft_le_trans; apply setDate_le; first [reflexivity | discriminate].
Qed.

Lemma orEmptyList_le (k : string) (fm : Frontmatter) :
  populated k = true ->
  merged fm (orEmptyList k fm).
Proof.
  intros Hp.
  unfold orEmptyList. destruct (falsy (lookup k fm)) eqn:Hf; [|apply merged_refl].
  destruct (String.eqb_spec k "credits") as [->|Hk].
  - repeat split; try (apply unions_assign_falsy; exact Hf).
    + apply keeps_assign. intros x Hx. right. left.
      split; [reflexivity | exact (falsy_not_truthy _ _ Hf Hx)].
    + intros _. unfold creditPairs. rewrite lookup_assign_same. constructor.
  - apply merged_assign_falsy; assumption.
Qed.


Lemma insertSorted_In (x y : yaml) (l : list yaml) :
  In y (insertSorted x l) <-> y = x \/ In y l.
Proof.
  induction l as [|z l IH]; simpl; [intuition|].
  destruct (String.leb (toStringYaml x) (toStringYaml z)); simpl; [intuition|].
  rewrite IH. intuition.
Qed.

Lemma sortItems_incl (l : list yaml) : incl l (sortItems l).
Proof.
  induction l as [|x l IH]; intros y; simpl; [tauto|].
  intros H. apply insertSorted_In. destruct H as [->|H]; auto.
Qed.

End Headers.

(* ================================================================= *)
(** ** How the vault changes *)

Section VaultOrder.
Import JS Store Revised Engine Props.

Lemma trimStart_idem (s : string) : trimStart (trimStart s) = trimStart s.
Proof. apply trimStart_startsClean. Qed.

Lemma bodyOf_rewritten (fm : Frontmatter) (body : string) :
  trimStart (bodyOf (WithHeader fm (String "010" (trimStart body)))) = trimStart body.
Proof. unfold bodyOf. simpl. now rewrite !trimStart_idem. Qed.

Lemma rewritten_trans (a b c : NoteText) :
  rewritten a b -> rewritten b c -> rewritten a c.
Proof.
  intros [fm1 [-> M1]] [fm2 [-> M2]]. exists fm2. split.
  - now rewrite bodyOf_rewritten.
  - eapply merged_trans; [exact M1 | exact M2].
Qed.

Lemma entry_le_refl (e : Entry) : entry_le e e.
Proof. left. reflexivity. Qed.

Lemma entry_le_trans (a b c : Entry) : entry_le a b -> entry_le b c -> entry_le a c.
Proof.
  intros [->|[old [new [Ho [-> R]]]]] H2; [exact H2|].
  destruct H2 as [->|[old' [new' [Ho' [-> R']]]]].
  - right. eauto.
  - right. exists old, new'. injection Ho' as <-.
    repeat split; [exact Ho|]. eapply rewritten_trans; eassumption.
Qed.



Lemma entry_le_fresh (p p' : string) (e e' : Entry) :
  entry_le e e' -> fresh (p, e) -> fresh (p', e').
Proof.
  unfold fresh. simpl. intros [->|[old [new [Ho [-> [fm' [-> M]]]]]]] F; [exact F|].
  simpl. destruct M as [_ [_ [_ [_ N]]]]. apply N.
  destruct e as [|t|d]; [discriminate Ho | | ]; injection Ho as <-.
  - exact F.
  - constructor.
Qed.

Lemma sameSlot_all_refl (v : Vault) : Forall2 sameSlot v v.
Proof. induction v; constructor; [split; [reflexivity | apply entry_le_refl] | assumption]. Qed.

Lemma sameSlot_all_trans (a b c : Vault) :
  Forall2 sameSlot a b -> Forall2 sameSlot b c -> Forall2 sameSlot a c.
Proof.
  intros H. revert c. induction H as [|x y a b [K E] H IH]; intros c Hc.
  - inversion Hc. constructor.
  - inversion Hc as [|y' z b' c' [K' E'] H' ]; subst. constructor.
    + split; [congruence | eapply entry_le_trans; eassumption].
    + apply IH. assumption.
Qed.

Lemma sameSlot_lookup (v k : Vault) (path : string) :
  Forall2 sameSlot v k ->
  match lookup path v with
  | Some e => exists e', lookup path k = Some e' /\ entry_le e e'
  | None => lookup path k = None
  end.
Proof.
  induction 1 as [|[p e] [p' e'] v k [K E] H IH]; simpl; [reflexivity|].
  simpl in K. subst p'. destruct (String.eqb p path); [eauto | exact IH].
Qed.


Lemma grows_refl (v : Vault) : grows v v.
Proof.
  exists v, []. rewrite app_nil_r. repeat split; [apply sameSlot_all_refl | constructor].
Qed.

Lemma fresh_all_le (a b : Vault) :
  Forall2 sameSlot a b -> Forall fresh a -> Forall fresh b.
Proof.
  induction 1 as [|[p e] [p' e'] a b [K E] H IH]; intros F; [constructor|].
  inversion F; subst. constructor; [|auto].
  eapply entry_le_fresh; eassumption.
Qed.

Lemma grows_trans (a b c : Vault) : grows a b -> grows b c -> grows a c.
Proof.
  intros [k1 [a1 [-> [S1 F1]]]] [k2 [a2 [-> [S2 F2]]]].
  apply Forall2_app_inv_l in S2. destruct S2 as [k2a [k2b [Sa [Sb ->]]]].
  exists k2a, (k2b ++ a2)%list. rewrite app_assoc. repeat split.
  - eapply sameSlot_all_trans; eassumption.
  - apply Forall_app. split; [eapply fresh_all_le; eassumption | exact F2].
Qed.

Lemma grows_add (v : Vault) (added : list (string * Entry)) :
  Forall fresh added -> grows v (v ++ added)%list.
Proof. intros F. exists v, added. repeat split; [apply sameSlot_all_refl | exact F]. Qed.

Lemma sameSlot_assign (v : Vault) (file : string) (e e' : Entry) :
  lookup file v = Some e -> entry_le e e' -> Forall2 sameSlot v (assign file e' v).
Proof.
  induction v as [|[p x] v IH]; simpl; [discriminate|].
  destruct (String.eqb p file) eqn:Ep.
  - intros [= ->] H. constructor; [split; [reflexivity | exact H] | apply sameSlot_all_refl].
  - intros Hl H. constructor; [split; [reflexivity | apply entry_le_refl] | auto].
Qed.

Lemma grows_assign (v : Vault) (file : string) (e e' : Entry) :
  lookup file v = Some e -> entry_le e e' -> grows v (assign file e' v).
Proof.
  intros Hl H. exists (assign file e' v), []. rewrite app_nil_r.
  repeat split; [eapply sameSlot_assign; eassumption | constructor].
Qed.


Lemma grows_lookup (v v' : Vault) (path : string) (e : Entry) :
  grows v v' -> getAbstractFileByPath v path = Some e ->
  exists e', getAbstractFileByPath v' path = Some e' /\ entry_le e e'.
Proof.
  intros [k [a [-> [S F]]]] H. unfold getAbstractFileByPath in *.
  pose proof (sameSlot_lookup v k path S) as L. rewrite H in L.
  destruct L as [e' [L E]]. exists e'. rewrite lookup_app, L. auto.
Qed.




End VaultOrder.

(* ================================================================= *)
(** ** The steps of the upsert engine *)

Section EngineSteps.
Import JS Store Revised Engine Props.
Variable settings : ComicSearchSettings.
Variable host : Host.

Local Abbreviation resolve := (getOrCreateRoleNoteWith settings host).
Local Abbreviation concepts := (conceptsFolder settings).
Local Abbreviation pathOf := (roleFilePath settings).
Local Abbreviation inConcepts := (Props.inConcepts settings).

Lemma adds_refl (P : string * Entry -> Prop) (v : Vault) : adds P v v.
Proof. exists []. rewrite app_nil_r. split; [reflexivity | constructor]. Qed.

Lemma adds_trans (P : string * Entry -> Prop) (a b c : Vault) :
  adds P a b -> adds P b c -> adds P a c.
Proof.
  intros [x [-> Fx]] [y [-> Fy]]. exists (x ++ y)%list. rewrite app_assoc.
  split; [reflexivity | apply Forall_app; auto].
Qed.

Lemma adds_weaken (P Q : string * Entry -> Prop) (a b : Vault) :
  (forall pe, P pe -> Q pe) -> adds P a b -> adds Q a b.
Proof.
  intros H [x [-> Fx]]. exists x. split; [reflexivity|].
  eapply Forall_impl; [exact H | exact Fx].
Qed.

Lemma adds_lookup (P : string * Entry -> Prop) (v v' : Vault) (path : string) (e : Entry) :
  adds P v v' -> getAbstractFileByPath v path = Some e ->
  getAbstractFileByPath v' path = Some e.
Proof.
  intros [x [-> _]] H. unfold getAbstractFileByPath in *. now rewrite lookup_app, H.
Qed.

Lemma adds_grows (v v' : Vault) : adds fresh v v' -> grows v v'.
Proof. intros [x [-> F]]. apply grows_add. exact F. Qed.

Lemma notANote_fresh (pe : string * Entry) : notANote pe -> fresh pe.
Proof. unfold notANote, fresh. destruct (snd pe); [auto | discriminate | auto]. Qed.

Lemma withFolder_adds (path : string) (v : Vault) : adds notANote v (withFolder path v).
Proof.
  unfold withFolder. destruct (getAbstractFileByPath v path); [apply adds_refl|].
  exists [(path, Folder)]. split; [reflexivity | repeat constructor].
Qed.

(** Role notes carry no credits. *)
Lemma role_note_fresh (path capitalized now : string) (link : option string) :
  fresh (path,
         Note (buildFrontmatter
                 (match link with
                  | Some l => assign "subConceptOf" (YStr l) (roleFrontmatter capitalized now)
                  | None => roleFrontmatter capitalized now
                  end) (roleBody capitalized))).
Proof. unfold fresh. destruct link; simpl; constructor. Qed.

Lemma resolve_adds (hierarchy : list (string * string)) (fuel : nat) :
  forall (roleName : string) (w w' : World) (f : string),
  resolve hierarchy fuel roleName w = Ok f w' ->
  adds fresh (vault w) (vault w').
Proof.
  assert (F : forall w, adds fresh (vault w) (vault (inConcepts w))).
  { intros w. eapply adds_weaken; [exact notANote_fresh | apply withFolder_adds]. }
  induction fuel as [|fuel IH]; intros roleName w w' f H; [discriminate|].
  destruct (getAbstractFileByPath (vault (inConcepts w)) (pathOf roleName)) eqn:Ef.
  - rewrite (resolve_found _ _ _ _ _ _ _ Ef) in H. injection H as <- <-. apply F.
  - destruct (parentOf hierarchy (capitalizedRole roleName)) as [parent|] eqn:Ep.
    + rewrite (resolve_child _ _ _ _ _ _ _ Ef Ep) in H.
      destruct (resolve hierarchy fuel parent (ticked (inConcepts w))) as [pf w1| |] eqn:Er;
        try discriminate.
      apply IH in Er.
      change (vault (ticked (inConcepts w))) with (vault (inConcepts w)) in Er.
      destruct (getAbstractFileByPath (vault w1) (pathOf roleName)) eqn:E2.
      { unfold create, bind, getVault in H. rewrite E2 in H. discriminate. }
      rewrite (create_runs _ _ _ E2) in H. injection H as <- <-.
      eapply adds_trans; [apply F|]. eapply adds_trans; [exact Er|].
      eexists. split; [reflexivity|]. constructor; [|constructor].
      apply (role_note_fresh _ _ _ (Some _)).
    + destruct (inherits hierarchy (capitalizedRole roleName)) eqn:Ei.
      { rewrite (resolve_member _ _ _ _ _ _ Ef Ei) in H. discriminate. }
      rewrite (resolve_leaf _ _ _ _ _ _ Ef Ep Ei) in H. injection H as <- <-.
      eapply adds_trans; [apply F|].
      eexists. split; [reflexivity|]. constructor; [|constructor].
      apply (role_note_fresh _ _ _ None).
Qed.

(** A role that is already resolved costs nothing. *)
Lemma resolve_known (roleName : string) (w : World) :
  getAbstractFileByPath (vault w) concepts <> None ->
  getAbstractFileByPath (vault w) (pathOf roleName) <> None ->
  getOrCreateRoleNote settings host roleName w = Ok (pathOf roleName) w.
Proof.
  intros Hc Hp. unfold getOrCreateRoleNote.
  destruct (getAbstractFileByPath (vault w) (pathOf roleName)) as [e|] eqn:E; [|congruence].
  rewrite (resolve_found settings host roleHierarchy 1 roleName w e).
  - now rewrite inConcepts_idle.
  - now rewrite inConcepts_idle.
Qed.

(** Image download: never an exception, never a note. *)
Lemma downloadImage_runs (url folder name : string) (w : World) :
  exists r w',
    downloadImage host url folder name w = Ok r w'
    /\ adds notANote (vault w) (vault w').
Proof.
  unfold downloadImage, tryCatch. unfold bind at 1. rewrite ensureFolderExists_runs.
  unfold bind at 1. unfold getVault. cbn [vault].
  pose proof (withFolder_adds folder (vault w)) as A.
  set (v1 := withFolder folder (vault w)) in *.
  set (path := folder ++ "/" ++ sanitizeForFileName name).
  destruct (getAbstractFileByPath v1 path) as [[|t|d]|] eqn:E.
  - destruct (requestImage host url) as [data|].
    + unfold bind, createBinary, bind, getVault. cbn [vault]. rewrite E.
      unfold throw, ret. eauto.
    + unfold throw, ret. eauto.
  - unfold ret. eauto.
  - unfold ret. eauto.
  - destruct (requestImage host url) as [data|].
    + unfold bind, createBinary, bind, getVault. cbn [vault]. rewrite E.
      unfold addEntry, ret. cbn [vault]. do 2 eexists. split; [reflexivity|].
      eapply adds_trans; [exact A|]. cbn [vault].
      exists [(path, Binary data)]. split; [reflexivity | repeat constructor].
    + unfold throw, ret. eauto.
Qed.

Lemma attachImage_runs (p : ComicVinePerson) (d : Draft) (w : World) :
  exists d' w',
    attachImage settings host p d w = Ok d' w'
    /\ adds notANote (vault w) (vault w')
    /\ draft_le d d'.
Proof.
  unfold attachImage.
  assert (Same : exists d' w', ret d w = Ok d' w'
                               /\ adds notANote (vault w) (vault w') /\ draft_le d d').
  { exists d, w. split; [reflexivity|]. split; [apply adds_refl | apply draft_le_refl]. }
  destruct (image p) as [url|]; [|exact Same].
  destruct (downloadCreatorImages settings && negb (isEmpty url)); [|exact Same].
  unfold bind at 1.
  destruct (downloadImage_runs url (creatorImagesFolder settings)
              ("person-" ++ Client.showZ (person_id p) ++ "-photo.jpg") w)
    as [r [w1 [-> A]]].
  assert (Same1 : exists d' w', ret d w1 = Ok d' w'
                               /\ adds notANote (vault w) (vault w') /\ draft_le d d').
  { exists d, w1. split; [reflexivity|]. split; [exact A | apply draft_le_refl]. }
  destruct r as [path|]; [|exact Same1].
  destruct (negb (isEmpty path) && falsy (lookup "image" (fst d))) eqn:C; [|exact Same1].
  apply andb_true_iff in C. destruct C as [_ C].
  unfold bind, getVault, ret. do 2 eexists. split; [reflexivity|].
  split; [exact A|]. split; [|reflexivity].
  cbn [fst]. apply merged_assign_falsy; [reflexivity | exact C | discriminate].
Qed.

Lemma includeItem_runs (key item : string) (d d' : Draft) (w w' : World) :
  key = "roles" \/ key = "tags" ->
  includeItem key item d w = Ok d' w' -> w' = w /\ draft_le d d'.
Proof.
  intros Hk. unfold includeItem.
  destruct (lookup key (fst d)) as [v|] eqn:E; [|discriminate].
  destruct (jsIncludes v item) as [[|]|] eqn:I; try discriminate.
  - intros [= <- <-]. split; [reflexivity | apply draft_le_refl].
  - destruct (jsPush v (YStr item)) as [v'|] eqn:P; [|discriminate].
    intros [= <- <-]. split; [reflexivity|]. split; [|reflexivity].
    destruct v; try discriminate P. injection P as <-. cbn [fst].
    eapply merged_assign_list; [exact Hk | exact E | apply incl_appl, incl_refl].
Qed.

Lemma includeCredit_runs (roleLink issueLink : string) (d d' : Draft) (w w' : World) :
  includeCredit roleLink issueLink d w = Ok d' w' -> w' = w /\ draft_le d d'.
Proof.
  unfold includeCredit.
  destruct (lookup "credits" (fst d)) as [v|] eqn:E; [|discriminate].
  destruct (jsSomeCredit v roleLink issueLink) as [[|]|] eqn:I; try discriminate.
  - intros [= <- <-]. split; [reflexivity | apply draft_le_refl].
  - destruct (jsPush v (creditValue roleLink issueLink)) as [v'|] eqn:P; [|discriminate].
    intros [= <- <-]. split; [reflexivity|]. split; [|reflexivity].
    destruct v; try discriminate P. injection P as <-. cbn [fst].
    apply merged_assign_credit; [exact E | exact I].
Qed.

Lemma creditRole_runs (issueFile : string) (d d' : Draft) (roleName : string)
    (w w' : World) :
  creditRole settings host issueFile d roleName w = Ok d' w' ->
  draft_le d d'
  /\ adds fresh (vault w) (vault w')
  /\ (isEmpty roleName = false ->
      getAbstractFileByPath (vault w') concepts <> None
      /\ getAbstractFileByPath (vault w') (pathOf roleName) <> None).
Proof.
  unfold creditRole. destruct (isEmpty roleName) eqn:Er.
  - intros [= <- <-]. split; [apply draft_le_refl|]. split; [apply adds_refl|].
    intros X. discriminate X.
  - unfold bind at 1.
    destruct (getOrCreateRoleNote settings host roleName w) as [roleNote w1| |] eqn:R;
      try discriminate.
    unfold bind at 1.
    destruct (includeItem "roles" ("[[" ++ baseName roleNote ++ "]]") d w1)
      as [d1 w2| |] eqn:I; try discriminate.
    intros C. apply includeItem_runs in I; [|auto]. destruct I as [-> L1].
    apply includeCredit_runs in C. destruct C as [-> L2].
    unfold getOrCreateRoleNote in R.
    pose proof (resolve_adds _ _ _ _ _ _ R) as A.
    apply resolve_returns in R. destruct R as [_ [Hc Hp]].
    split; [eapply draft_le_trans; eassumption|]. split; [exact A|].
    intros _. split; assumption.
Qed.

Lemma creditRole_quiet (issueFile : string) (d d' : Draft) (roleName : string)
    (w w' : World) :
  (isEmpty roleName = false ->
   getAbstractFileByPath (vault w) concepts <> None
   /\ getAbstractFileByPath (vault w) (pathOf roleName) <> None) ->
  creditRole settings host issueFile d roleName w = Ok d' w' -> w' = w.
Proof.
  intros Hk. unfold creditRole. destruct (isEmpty roleName) eqn:Er.
  - intros [= <- <-]. reflexivity.
  - destruct (Hk eq_refl) as [Hc Hp]. unfold bind at 1.
    rewrite (resolve_known roleName w Hc Hp). unfold bind at 1.
    destruct (includeItem "roles" ("[[" ++ baseName (pathOf roleName) ++ "]]") d w)
      as [d1 w2| |] eqn:I; try discriminate.
    intros C. apply includeItem_runs in I; [|auto]. destruct I as [-> _].
    apply includeCredit_runs in C. destruct C as [-> _]. reflexivity.
Qed.

Lemma creditRoles_run (issueFile : string) (roleNames : list string) :
  forall (d d' : Draft) (w w' : World),
  foldM (creditRole settings host issueFile) roleNames d w = Ok d' w' ->
  draft_le d d'
  /\ adds fresh (vault w) (vault w')
  /\ (forall roleName, In roleName roleNames -> isEmpty roleName = false ->
        getAbstractFileByPath (vault w') concepts <> None
        /\ getAbstractFileByPath (vault w') (pathOf roleName) <> None).
Proof.
  induction roleNames as [|r rest IH]; intros d d' w w'; simpl.
  - intros [= <- <-]. split; [apply draft_le_refl|]. split; [apply adds_refl|].
    intros ? [].
  - unfold bind at 1.
    destruct (creditRole settings host issueFile d r w) as [d1 w1| |] eqn:C;
      try discriminate.
    intros H. apply IH in H. destruct H as [L2 [A2 P2]].
    apply creditRole_runs in C. destruct C as [L1 [A1 P1]].
    split; [eapply draft_le_trans; eassumption|].
    split; [eapply adds_trans; eassumption|].
    intros roleName [<-|Hin] Hne; [|auto].
    destruct (P1 Hne) as [Hc Hp]. destruct A2 as [x [-> _]].
    split; apply extends_keeps; assumption.
Qed.

Lemma creditRoles_quiet (issueFile : string) (roleNames : list string) :
  forall (d d' : Draft) (w w' : World),
  (forall roleName, In roleName roleNames -> isEmpty roleName = false ->
     getAbstractFileByPath (vault w) concepts <> None
     /\ getAbstractFileByPath (vault w) (pathOf roleName) <> None) ->
  foldM (creditRole settings host issueFile) roleNames d w = Ok d' w' -> w' = w.
Proof.
  induction roleNames as [|r rest IH]; intros d d' w w' Hp; simpl.
  - intros [= <- <-]. reflexivity.
  - unfold bind at 1.
    destruct (creditRole settings host issueFile d r w) as [d1 w1| |] eqn:C;
      try discriminate.
    apply creditRole_quiet in C; [|intros Hne; apply Hp; [left; reflexivity | exact Hne]].
    subst w1. apply IH. intros roleName Hin. apply Hp. right. exact Hin.
Qed.

Lemma buildFrontmatter_header (fm : Frontmatter) (body : string) :
  fm <> [] -> buildFrontmatter fm body = WithHeader fm (String "010" (trimStart body)).
Proof. destruct fm; [congruence | reflexivity]. Qed.

(** The write at the end of a turn. *)
Lemma writePerson_runs (personFile : option string) (name body : string)
    (d : Draft) (w w' : World) :
  writePerson settings host personFile name body d w = Ok tt w' ->
  (snd d = false /\ w' = w)
  \/ (snd d = true
      /\ exists fm,
           merged (fst d) fm
           /\ let new := WithHeader fm (String "010" (trimStart body)) in
              match personFile with
              | Some file =>
                  exists e, getAbstractFileByPath (vault w) file = Some e
                            /\ isTFile e = true
                            /\ vault w' = assign file (Note new) (vault w)
              | None =>
                  getAbstractFileByPath (vault w) (personFilePath settings name) = None
                  /\ vault w' = (vault w ++ [(personFilePath settings name, Note new)])%list
              end).
Proof.
  unfold writePerson. destruct (snd d) eqn:Ch; [|intros [= <-]; left; auto].
  destruct (lookup "roles" (fst d)) as [v|] eqn:Er; [|discriminate].
  destruct (jsSort v) as [sorted|] eqn:Es; [|discriminate].
  destruct v as [ | | | |items| ]; try discriminate Es. injection Es as <-.
  unfold bind at 1. unfold nowISO.
  set (fm := assign "modification date" _ _).
  assert (M : merged (fst d) fm).
  { eapply merged_trans; [|apply merged_assign_date].
    eapply merged_assign_list; [left; reflexivity | exact Er | apply sortItems_incl]. }
  rewrite (buildFrontmatter_header fm body) by apply assign_not_nil.
  intros H. right. split; [reflexivity|]. exists fm. split; [exact M|]. cbn zeta.
  destruct personFile as [file|].
  - unfold modify in H. cbn [vault] in H.
    destruct (getAbstractFileByPath (vault w) file) as [[|t|dat]|] eqn:E;
      try discriminate; injection H as <-; cbn [vault]; eexists; eauto.
  - unfold bind at 1 in H. cbn [vault] in H.
    destruct (getAbstractFileByPath (vault w) (personFilePath settings name)) eqn:E.
    + unfold create, bind, getVault in H. cbn [vault] in H. rewrite E in H. discriminate.
    + unfold create, bind, getVault, addEntry, ret in H. cbn [vault] in H.
      rewrite E in H. injection H as <-. split; reflexivity.
Qed.

Lemma mergeDetails_new_changed (now : string) (p : ComicVinePerson) (fm : Frontmatter) :
  snd (mergeDetails host true now p fm) = true.
Proof.
  unfold mergeDetails.
  match goal with
  | |- snd (setDate _ _ _ (setDate _ _ _ ?d)) = true =>
      assert (L : draft_le d (setDate host "deathDate"
                     (match death p with
                      | Some date => if isEmpty date then None else Some date
                      | None => None
                      end) (setDate host "birthDate" (birth p) d)))
  end.
  { eapply draft_le_trans; apply setDate_le; first [reflexivity | discriminate]. }
  destruct L as [_ L]. apply L. reflexivity.
Qed.

Lemma rolesPresent_adds (P : string * Entry -> Prop) (c : Creator) (v v' : Vault) :
  adds P v v' -> rolesPresent settings v c -> rolesPresent settings v' c.
Proof.
  intros [x [-> _]] H r Hin Hne. destruct (H r Hin Hne) as [Hc Hp].
  split; apply extends_keeps; assumption.
Qed.

(** One turn of the loop over the creators. *)
Lemma processCreator_runs (issueFile : string) (c : Creator) (w w' : World) :
  processCreator settings host issueFile c w = Ok tt w' ->
  (getPersonDetails host (creator_url c) = None /\ w' = w)
  \/ (getPersonDetails host (creator_url c) <> None
      /\ exists vm,
           adds fresh (vault w) vm
           /\ rolesPresent settings vm c
           /\ (rolesPresent settings (vault w) c -> adds notANote (vault w) vm)
           /\ personWritten settings c (vault w) vm (vault w')).
Proof.
  unfold processCreator. unfold bind at 1. unfold getVault.
  set (personFile := findPersonNote settings (vault w) (creator_id c) (creator_name c)).
  unfold bind at 1.
  assert (Parsed : forall r,
    match personFile with
    | Some file => text <- read file;; ret (parseFrontmatter text)
    | None => ret ([], "# " ++ creator_name c ++ String "010" (String "010" EmptyString))
    end w = r ->
    match r with
    | Ok parsed w0 =>
        w0 = w
        /\ match personFile with
           | Some file => exists e old, getAbstractFileByPath (vault w) file = Some e
                                        /\ textOf e = Some old
                                        /\ parsed = (headerOf old, bodyOf old)
           | None => fst parsed = []
           end
    | _ => True
    end).
  { intros r <-. destruct personFile as [file|]; [|split; reflexivity].
    unfold bind, read, bind, getVault.
    destruct (getAbstractFileByPath (vault w) file) as [[|t|dat]|] eqn:E; simpl; auto;
      (split; [reflexivity|]); eexists; eexists;
      (split; [reflexivity|]); (split; [reflexivity|]);
      unfold headerOf, bodyOf; apply surjective_pairing. }
  specialize (Parsed _ eq_refl).
  destruct (match personFile with
            | Some file => text <- read file;; ret (parseFrontmatter text)
            | None => ret ([], "# " ++ creator_name c ++ String "010" (String "010" EmptyString))
            end w) as [[frontmatter body] w0| |]; try discriminate.
  destruct Parsed as [-> Parsed].
  destruct (getPersonDetails host (creator_url c)) as [p|]; [|intros [= <-]; left; auto].
  intros H. right. split; [discriminate|].
  unfold bind at 1 in H. unfold nowISO in H.
  set (w1 := {| vault := vault w; readings := S (readings w) |}) in H.
  set (now := toISOString host (readings w)) in H.
  set (isNew := match personFile with None => true | Some _ => false end) in H.
  assert (M0 : merged frontmatter (fst (mergeDetails host isNew now p frontmatter))).
  { apply mergeDetails_le. unfold isNew. destruct personFile; [discriminate|].
    intros _. exact Parsed. }
  set (d0 := mergeDetails host isNew now p frontmatter) in *.
  unfold bind at 1 in H.
  destruct (attachImage_runs p d0 w1) as [d1 [w2 [Ea [A1 L1]]]]. rewrite Ea in H.
  set (d2 := (orEmptyList "tags" (orEmptyList "credits" (orEmptyList "roles" (fst d1))),
              snd d1)) in H.
  assert (L2 : draft_le d1 d2).
  { split; [|auto]. cbn [fst d2].
    eapply merged_trans; [apply (orEmptyList_le "roles"); reflexivity|].
    eapply merged_trans;
      [apply (orEmptyList_le "credits") | apply (orEmptyList_le "tags")]; reflexivity. }
  unfold bind at 1 in H.
  destruct (includeItem "tags" "person" d2 w2) as [d3 w3| |] eqn:E3; try discriminate.
  apply includeItem_runs in E3; [|auto]. destruct E3 as [-> L3].
  unfold bind at 1 in H.
  destruct (includeItem "tags" "comic-creator" d3 w2) as [d4 w4| |] eqn:E4; try discriminate.
  apply includeItem_runs in E4; [|auto]. destruct E4 as [-> L4].
  unfold bind at 1 in H.
  destruct (foldM (creditRole settings host issueFile) (setOf (creator_roles c)) d4 w2)
    as [d5 w5| |] eqn:E5; try discriminate.
  pose proof (creditRoles_run _ _ _ _ _ _ E5) as [L5 [A5 P5]].
  assert (L : draft_le d0 d5).
  { eapply draft_le_trans; [exact L1|]. eapply draft_le_trans; [exact L2|].
    eapply draft_le_trans; [exact L3|]. eapply draft_le_trans; [exact L4 | exact L5]. }
  assert (A : adds fresh (vault w) (vault w5)).
  { eapply adds_trans; [|exact A5].
    eapply adds_weaken; [exact notANote_fresh | exact A1]. }
  exists (vault w5). split; [exact A|]. split; [exact P5|]. split.
  { intros RP. assert (w5 = w2); [|subst; exact A1].
    eapply creditRoles_quiet; [|exact E5].
    apply (rolesPresent_adds notANote c (vault w) (vault w2) A1 RP). }
  apply writePerson_runs in H. unfold personWritten. fold personFile.
  destruct H as [[Ch ->]|[Ch [fm [Mf W]]]].
  - destruct personFile as [file|]; [left; reflexivity|].
    exfalso. destruct L as [_ L]. rewrite L in Ch; [discriminate|].
    apply mergeDetails_new_changed.
  - cbn zeta in W.
    assert (Mall : merged frontmatter fm).
    { eapply merged_trans; [exact M0|]. destruct L as [L _].
      eapply merged_trans; [exact L | exact Mf]. }
    destruct personFile as [file|].
    + destruct Parsed as [e [old [El [Et [= -> ->]]]]].
      destruct W as [e5 [_ [_ W]]]. right. exists e, old. eexists.
      split; [exact El|]. split; [exact Et|]. split; [|exact W].
      exists fm. split; [reflexivity | exact Mall].
    + destruct W as [Hn W]. eexists. split; [exact Hn|]. split; [|exact W].
      unfold fresh. simpl. simpl in Parsed. subst frontmatter.
      destruct Mall as [_ [_ [_ [_ N]]]]. apply N. constructor.
Qed.

Lemma personWritten_step (c : Creator) (v vm v' : Vault) :
  adds fresh v vm -> personWritten settings c v vm v' -> grows vm v'.
Proof.
  intros A. unfold personWritten.
  destruct (findPersonNote settings v (creator_id c) (creator_name c)) as [file|].
  - intros [->|[e [old [new [El [Et [R ->]]]]]]]; [apply grows_refl|].
    apply (grows_assign vm file e).
    + exact (adds_lookup _ _ _ _ _ A El).
    + right. exists old, new. auto.
  - intros [new [Hn [F ->]]]. apply grows_add. constructor; [exact F | constructor].
Qed.

Lemma processCreator_grows (issueFile : string) (c : Creator) (w w' : World) :
  processCreator settings host issueFile c w = Ok tt w' ->
  grows (vault w) (vault w').
Proof.
  intros H. apply processCreator_runs in H.
  destruct H as [[_ ->]|[_ [vm [A [_ [_ W]]]]]]; [apply grows_refl|].
  eapply grows_trans; [apply adds_grows; exact A|].
  eapply personWritten_step; eassumption.
Qed.

Lemma forEachM_grows {A} (f : A -> M unit) (l : list A) :
  (forall x a b, In x l -> f x a = Ok tt b -> grows (vault a) (vault b)) ->
  forall w w', forEachM f l w = Ok tt w' -> grows (vault w) (vault w').
Proof.
  induction l as [|x l IH]; intros Hf w w'; simpl.
  - intros [= <-]. apply grows_refl.
  - unfold bind at 1. destruct (f x w) as [[] w1| |] eqn:E; try discriminate.
    intros H. eapply grows_trans.
    + eapply Hf; [left; reflexivity | exact E].
    + apply IH; [|exact H]. intros y a b Hy. apply Hf. right. exact Hy.
Qed.

(** A whole run of [ensureCreatorNotesExist]. *)
Lemma ensureCreatorNotesExist_grows (creators : list PersonCredit) (issueFile : string)
    (w w' : World) :
  ensureCreatorNotesExist settings host creators issueFile w = Ok tt w' ->
  grows (vault w) (vault w').
Proof.
  unfold ensureCreatorNotesExist.
  destruct (negb (createCreatorNotes settings)
            || match creators with [] => true | _ => false end).
  - intros [= <-]. apply grows_refl.
  - unfold bind at 1. rewrite ensureFolderExists_runs. intros H.
    eapply grows_trans.
    + apply adds_grows. eapply adds_weaken; [exact notANote_fresh|].
      apply (withFolder_adds (peopleFolder settings)).
    + exact (forEachM_grows _ _
               (fun x a b _ => processCreator_grows issueFile x a b) _ _ H).
Qed.

(** C5 (as the code has it). When a run of the upsert engine comes back,
    every note that was in the store is still at its path, and it is either
    untouched or rewritten as follows.  The body is the old body from its
    first character that is not white space, after one line break.  No key
    of the header is dropped, and every key keeps the value it had, whatever
    that value is, but for these: the modification date, which is refreshed;
    the entity type "ComicCreator" of the earlier plug-in, which becomes
    "Person"; a falsy value under one of the keys the engine fills in
    (entityType, name, comicVineId, comicVineUrl, birthDate, deathDate,
    image, roles, credits, tags), which is filled like a missing one; and the
    lists under roles, credits and tags, which keep every item they had and
    may gain some. *)
Theorem upsert_keeps_user_content (creators : list PersonCredit) (issueFile : string)
    (w w' : World) (path : string) (old : NoteText) :
  ensureCreatorNotesExist settings host creators issueFile w = Ok tt w' ->
  getAbstractFileByPath (vault w) path = Some (Note old) ->
  exists new,
    getAbstractFileByPath (vault w') path = Some (Note new)
    /\ (new = old
        \/ exists fm',
             new = WithHeader fm' (String "010" (trimStart (bodyOf old)))
             /\ keeps (headerOf old) fm'
             /\ unions "roles" (headerOf old) fm'
             /\ unions "credits" (headerOf old) fm'
             /\ unions "tags" (headerOf old) fm').
Proof.
  intros H Hl. apply ensureCreatorNotesExist_grows in H.
  destruct (grows_lookup _ _ _ _ H Hl) as [e' [El Le]].
  destruct Le as [->|[o [new [Ho [-> [fm' [-> M]]]]]]].
  - exists old. auto.
  - injection Ho as <-. eexists. split; [exact El|]. right. exists fm'.
    destruct M as [K [R [C [T _]]]]. auto.
Qed.

(** *** The engine always comes back *)

Lemma total_ret {A} (a : A) : total (ret a).
Proof. intros w. discriminate. Qed.

Lemma total_throw {A} (error : string) : total (@throw A error).
Proof. intros w. discriminate. Qed.

Lemma total_bind {A B} (c : M A) (f : A -> M B) :
  total c -> (forall a, total (f a)) -> total (bind c f).
Proof.
  intros Hc Hf w. unfold bind. specialize (Hc w).
  destruct (c w) as [a w1|e w1|]; [apply Hf | discriminate | exfalso; apply Hc; reflexivity].
Qed.

Lemma total_foldM {A S} (f : S -> A -> M S) (l : list A) :
  (forall s x, total (f s x)) -> forall s, total (foldM f l s).
Proof.
  intros Hf. induction l as [|x l IH]; intros s; simpl; [apply total_ret|].
  apply total_bind; [apply Hf | exact IH].
Qed.

Lemma total_forEachM {A} (f : A -> M unit) (l : list A) :
  (forall x, total (f x)) -> total (forEachM f l).
Proof.
  intros Hf. induction l as [|x l IH]; simpl; [apply total_ret|].
  apply total_bind; [apply Hf | intros _; exact IH].
Qed.

Lemma total_getVault : total getVault.
Proof. intros w. discriminate. Qed.

Lemma total_ensureFolderExists (path : string) : total (ensureFolderExists path).
Proof. intros w. rewrite ensureFolderExists_runs. discriminate. Qed.

Lemma total_includeItem (key item : string) (d : Draft) : total (includeItem key item d).
Proof.
  intros w. unfold includeItem. destruct (lookup key (fst d)) as [v|]; [|discriminate].
  destruct (jsIncludes v item) as [[|]|]; try discriminate.
  destruct (jsPush v (YStr item)); discriminate.
Qed.

Lemma total_includeCredit (roleLink issueLink : string) (d : Draft) :
  total (includeCredit roleLink issueLink d).
Proof.
  intros w. unfold includeCredit. destruct (lookup "credits" (fst d)) as [v|]; [|discriminate].
  destruct (jsSomeCredit v roleLink issueLink) as [[|]|]; try discriminate.
  destruct (jsPush v (creditValue roleLink issueLink)); discriminate.
Qed.

Lemma total_creditRole (issueFile : string) (d : Draft) (roleName : string) :
  total (creditRole settings host issueFile d roleName).
Proof.
  unfold creditRole. destruct (isEmpty roleName); [apply total_ret|].
  apply total_bind.
  - intros w. apply (resolve_two_levels settings host roleName w 0).
  - intros roleNote. apply total_bind; [apply total_includeItem|].
    intros d1. apply total_includeCredit.
Qed.

Lemma total_writePerson (personFile : option string) (name body : string) (d : Draft) :
  total (writePerson settings host personFile name body d).
Proof.
  unfold writePerson. destruct (snd d); [|apply total_ret].
  destruct (lookup "roles" (fst d)) as [v|]; [|apply total_throw].
  destruct (jsSort v); [|apply total_throw].
  apply total_bind; [intros w; discriminate|]. intros now.
  destruct personFile as [file|].
  - intros w. unfold modify.
    destruct (getAbstractFileByPath (vault w) file) as [[| |]|]; discriminate.
  - apply total_bind; [|intros _; apply total_ret].
    intros w. apply create_settles.
Qed.

Lemma total_processCreator (issueFile : string) (c : Creator) :
  total (processCreator settings host issueFile c).
Proof.
  unfold processCreator. apply total_bind; [apply total_getVault|]. intros v.
  apply total_bind.
  - destruct (findPersonNote settings v (creator_id c) (creator_name c)) as [file|];
      [|apply total_ret].
    apply total_bind; [|intros t; apply total_ret].
    unfold read. apply total_bind; [apply total_getVault|]. intros v0.
    destruct (getAbstractFileByPath v0 file) as [[| |]|];
      try apply total_ret; apply total_throw.
  - intros [frontmatter body].
    destruct (getPersonDetails host (creator_url c)) as [p|]; [|apply total_ret].
    apply total_bind; [intros w; discriminate|]. intros now.
    apply total_bind.
    + intros w. destruct (attachImage_runs p
        (mergeDetails host
           (match findPersonNote settings v (creator_id c) (creator_name c) with
            | None => true
            | Some _ => false
            end) now p frontmatter) w) as [d' [w' [E _]]].
      rewrite E. discriminate.
    + intros d1. apply total_bind; [apply total_includeItem|]. intros d2.
      apply total_bind; [apply total_includeItem|]. intros d3.
      apply total_bind; [apply total_foldM; intros; apply total_creditRole|].
      intros d4. apply total_writePerson.
Qed.

(** Whatever the store, the credits and the answers of the outside world, a
    run of [ensureCreatorNotesExist] comes back, with its result or with an
    exception. *)
Lemma ensureCreatorNotesExist_total (creators : list PersonCredit) (issueFile : string) :
  total (ensureCreatorNotesExist settings host creators issueFile).
Proof.
  unfold ensureCreatorNotesExist.
  destruct (negb (createCreatorNotes settings)
            || match creators with [] => true | _ => false end); [apply total_ret|].
  apply total_bind; [apply total_ensureFolderExists|]. intros _.
  apply total_forEachM. intros c. apply total_processCreator.
Qed.

(** *** Finding a person's note, as the vault changes *)

Lemma findPersonNote_cases (v : Vault) (creatorId : Z) (creatorName : string) :
  findPersonNote settings v creatorId creatorName =
  match getAbstractFileByPath v (peopleFolder settings) with
  | Some Folder =>
      match find (idMatch settings creatorId) v with
      | Some (path, _) => Some path
      | None =>
          match getAbstractFileByPath v (personFilePath settings creatorName) with
          | Some e => if isTFile e then Some (personFilePath settings creatorName) else None
          | None => None
          end
      end
  | _ => None
  end.
Proof. reflexivity. Qed.












(** *** The second import *)


Lemma In_lookup {A} (k : string) (x : A) (o : list (string * A)) :
  In (k, x) o -> lookup k o <> None.
Proof.
  induction o as [|[k' x'] o IH]; simpl; [tauto|].
  intros [[= -> ->]|H].
  - rewrite String.eqb_refl. discriminate.
  - destruct (String.eqb k' k); [discriminate | auto].
Qed.





End EngineSteps.

(* ================================================================= *)
(** ** The creators of an import *)

Section Creators.
Import JS Store Revised Engine Props NoteProps.

Lemma withRoles_twice (x : Creator) (a b : list string) :
  withRoles (withRoles x a) b = withRoles x (a ++ b)%list.
Proof. unfold withRoles. cbn. now rewrite app_assoc. Qed.

Lemma addCreator_find (c : PersonCredit) (id : Z) (m : list Creator) :
  find (fun x => (creator_id x =? id)%Z) (addCreator c m) =
  match find (fun x => (creator_id x =? id)%Z) m with
  | Some x =>
      Some (if (credit_id c =? id)%Z then withRoles x (splitRoles (credit_role c)) else x)
  | None =>
      if (credit_id c =? id)%Z then Some (fromCredits c (splitRoles (credit_role c)))
      else None
  end.
Proof.
  induction m as [|e m IH]; cbn [addCreator find].
  - cbn [creator_id]. destruct (credit_id c =? id)%Z; reflexivity.
  - destruct (creator_id e =? credit_id c)%Z eqn:Ec; cbn [find creator_id].
    + apply Z.eqb_eq in Ec. rewrite <- Ec.
      destruct (creator_id e =? id)%Z eqn:Ei; [reflexivity|].
      destruct (find _ m); reflexivity.
    + destruct (creator_id e =? id)%Z eqn:Ei; [|exact IH].
      apply Z.eqb_eq in Ei. rewrite <- Ei, Z.eqb_sym, Ec. reflexivity.
Qed.

Lemma uniqueCreators_find (id : Z) (credits : list PersonCredit) :
  forall m,
  find (fun x => (creator_id x =? id)%Z) (fold_left (fun m c => addCreator c m) credits m) =
  match find (fun x => (creator_id x =? id)%Z) m with
  | Some x => Some (withRoles x (rolesOfId id credits))
  | None =>
      match find (fun k => (credit_id k =? id)%Z) credits with
      | Some k => Some (fromCredits k (rolesOfId id credits))
      | None => None
      end
  end.
Proof.
  unfold rolesOfId.
  induction credits as [|c credits IH]; intros m; cbn [fold_left find filter flat_map].
  - destruct (find _ m) as [x|]; [|reflexivity].
    unfold withRoles. rewrite app_nil_r. now destruct x.
  - rewrite IH, addCreator_find.
    destruct (find _ m) as [x|]; destruct (credit_id c =? id)%Z; cbn [flat_map];
      try reflexivity.
    + now rewrite withRoles_twice.
Qed.

Lemma addCreator_ids_in (c : PersonCredit) (m : list Creator) (id : Z) :
  In id (map creator_id (addCreator c m)) <-> In id (map creator_id m) \/ id = credit_id c.
Proof.
  induction m as [|e m IH]; cbn [addCreator map In creator_id].
  - split; [intros [H|[]]; now right | intros [[]|H]; now left].
  - destruct (creator_id e =? credit_id c)%Z eqn:Ec; cbn [map In creator_id].
    + apply Z.eqb_eq in Ec. split; [tauto|]. intros [H|H]; [exact H|]. left. congruence.
    + rewrite IH. tauto.
Qed.

Lemma addCreator_NoDup (c : PersonCredit) (m : list Creator) :
  NoDup (map creator_id m) -> NoDup (map creator_id (addCreator c m)).
Proof.
  induction m as [|e m IH]; cbn [addCreator map creator_id]; intros H.
  - constructor; [intros [] | constructor].
  - inversion H as [|? ? He Hm]; subst.
    destruct (creator_id e =? credit_id c)%Z eqn:Ec; cbn [map creator_id].
    + now constructor.
    + constructor; [|apply IH, Hm].
      rewrite addCreator_ids_in. intros [Hin|E]; [contradiction|].
      rewrite E, Z.eqb_refl in Ec. discriminate.
Qed.

Lemma uniqueCreators_NoDup (credits : list PersonCredit) :
  forall m, NoDup (map creator_id m) ->
  NoDup (map creator_id (fold_left (fun m c => addCreator c m) credits m)).
Proof.
  induction credits as [|c credits IH]; intros m H; cbn [fold_left]; [exact H|].
  apply IH, addCreator_NoDup, H.
Qed.

Lemma find_by_id (m : list Creator) (c : Creator) :
  NoDup (map creator_id m) -> In c m ->
  find (fun x => (creator_id x =? creator_id c)%Z) m = Some c.
Proof.
  induction m as [|e m IH]; cbn [map find In]; [intros _ []|].
  intros H Hin. inversion H as [|? ? He Hm]; subst.
  destruct Hin as [->|Hin]; [now rewrite Z.eqb_refl|].
  destruct (creator_id e =? creator_id c)%Z eqn:E; [|apply IH; assumption].
  apply Z.eqb_eq in E. exfalso. apply He. rewrite E. now apply in_map.
Qed.

(** Every entry is made from the first credit of its id. *)
Lemma uniqueCreators_first (credits : list PersonCredit) (c : Creator) :
  In c (uniqueCreators credits) ->
  exists k,
    find (fun k => (credit_id k =? creator_id c)%Z) credits = Some k
    /\ c = fromCredits k (rolesOfId (creator_id c) credits).
Proof.
  intros Hc.
  assert (N : NoDup (map creator_id (uniqueCreators credits)))
    by (apply uniqueCreators_NoDup; constructor).
  pose proof (uniqueCreators_find (creator_id c) credits []) as F.
  cbn [find] in F. fold (uniqueCreators credits) in F.
  rewrite (find_by_id _ _ N Hc) in F.
  destruct (find (fun k => (credit_id k =? creator_id c)%Z) credits) as [k|];
    [|discriminate].
  injection F as F. exists k. auto.
Qed.

(** Every credit has its entry, which carries the name and the address of
    the first credit of the same id. *)
Lemma uniqueCreators_entry (credits : list PersonCredit) (k : PersonCredit) :
  In k credits ->
  exists c k0,
    In c (uniqueCreators credits) /\ creator_id c = credit_id k
    /\ find (fun x => (credit_id x =? credit_id k)%Z) credits = Some k0
    /\ creator_name c = credit_name k0 /\ creator_url c = api_detail_url k0.
Proof.
  intros Hk.
  pose proof (uniqueCreators_find (credit_id k) credits []) as F.
  cbn [find] in F. fold (uniqueCreators credits) in F.
  destruct (find (fun x => (credit_id x =? credit_id k)%Z) credits) as [k0|] eqn:E.
  - apply find_some in F. destruct F as [F1 F2]. apply Z.eqb_eq in F2.
    destruct (uniqueCreators_first credits _ F1) as [k1 [E1 C1]].
    rewrite F2, E in E1. injection E1 as <-.
    eexists. exists k0. split; [exact F1|]. split; [exact F2|].
    split; [reflexivity|]. rewrite C1. split; reflexivity.
  - exfalso. apply (find_none _ _ E) in Hk. now rewrite Z.eqb_refl in Hk.
Qed.

End Creators.

Section ImportTwice.
Import JS Store Revised Engine Props.
Variable settings : ComicSearchSettings.
Variables first second : Host.


End ImportTwice.

Section UpsertSamples.
Import JS Store Revised Engine Props.

Lemma upsert_keeps_user_content_witness :
  exists new,
    getAbstractFileByPath
      (vault (match ensureCreatorNotesExist sampleSettings answeringHost milgromCredits
                      "Comics/Secret Wars #001.md" milgromWorld with
              | Ok _ w' => w'
              | _ => milgromWorld
              end)) milgromPath = Some (Note new)
    /\ (new = milgromNote
        \/ exists fm',
             new = WithHeader fm' (String "010" (trimStart (bodyOf milgromNote)))
             /\ keeps (headerOf milgromNote) fm'
             /\ unions "roles" (headerOf milgromNote) fm'
             /\ unions "credits" (headerOf milgromNote) fm'
             /\ unions "tags" (headerOf milgromNote) fm').
Proof.
  destruct (ensureCreatorNotesExist sampleSettings answeringHost milgromCredits
              "Comics/Secret Wars #001.md" milgromWorld) as [[] w'| |] eqn:E.
  - apply (upsert_keeps_user_content sampleSettings answeringHost milgromCredits
             "Comics/Secret Wars #001.md" milgromWorld w' milgromPath milgromNote E).
    reflexivity.
  - vm_compute in E. discriminate E.
  - vm_compute in E. discriminate E.
Defined.

(** C5, as stated, fails: the update of a note of the earlier plug-in turns
    its entity type from ComicCreator into Person, fills in the address that
    was there but empty, refreshes the date of the last change, and the
    blank line the user's text started with is gone.  (A key of the user's
    own keeps its value, falsy as it is.) *)
Lemma upsert_rewrites_type_and_leading_space :
  lookup "entityType" (headerOf milgromNote) = Some (YStr "ComicCreator")
  /\ lookup "comicVineUrl" (headerOf milgromNote) = Some (YStr EmptyString)
  /\ lookup "modification date" (headerOf milgromNote)
     = Some (YStr "2024-06-01T10:00:00.000Z")
  /\ exists w' fm',
       ensureCreatorNotesExist sampleSettings answeringHost milgromCredits
         "Comics/Secret Wars #001.md" milgromWorld = Ok tt w'
       /\ getAbstractFileByPath (vault w') milgromPath =
          Some (Note (WithHeader fm'
                        (newline ++ "# Al Milgrom" ++ newline ++ newline
                         ++ "Met him in 1988." ++ newline)))
       /\ lookup "entityType" fm' = Some (YStr "Person")
       /\ lookup "comicVineUrl" fm'
          = Some (YStr "https://comicvine.gamespot.com/al-milgrom/4040-7/")
       /\ lookup "modification date" fm' = Some (YStr "2025-01-01T00:00:03.000Z")
       /\ lookup "favorite" fm' = Some (YBool false)
       /\ milgromNote <>
          WithHeader (headerOf milgromNote)
            (newline ++ "# Al Milgrom" ++ newline ++ newline
             ++ "Met him in 1988." ++ newline).
Proof.
  split; [reflexivity|]. split; [reflexivity|]. split; [reflexivity|].
  eexists. eexists.
  split; [vm_compute; reflexivity|]. split; [vm_compute; reflexivity|].
  repeat split; try reflexivity. discriminate.
Qed.



End UpsertSamples.
(* ================================================================= *)
(** ** The sanitisers of names, tags and descriptions *)

Section Sanitisers.
Import JS Text Revised Generator Props NoteProps.

Ltac by_char c :=
  destruct c as [[] [] [] [] [] [] [] []]; vm_compute;
  try reflexivity; try discriminate; auto.

Lemma removeChars_clean (cls : ascii -> bool) (s : string) :
  Forall (fun c => cls c = false) (chars (removeChars cls s)).
Proof.
  induction s as [|c s IH]; simpl; [constructor|].
  destruct (cls c) eqn:E; [exact IH|]. simpl. constructor; assumption.
Qed.

Lemma removeChars_fixed (cls : ascii -> bool) (s : string) :
  Forall (fun c => cls c = false) (chars s) -> removeChars cls s = s.
Proof.
  induction s as [|c s IH]; simpl; [reflexivity|].
  intros H. inversion H as [|? ? Hc Hs]; subst. rewrite Hc. now rewrite IH.
Qed.

Lemma chars_trim_all (P : ascii -> Prop) (s : string) :
  Forall P (chars s) -> Forall P (chars (trim s)).
Proof.
  rewrite !Forall_forall. intros H c Hc. apply H, chars_trim, Hc.
Qed.

Lemma Forall_lacks (cls : ascii -> bool) (x : ascii) (s : string) :
  cls x = true -> Forall (fun c => cls c = false) (chars s) -> lacks x s.
Proof.
  intros Hx H Hin. rewrite Forall_forall in H. specialize (H x Hin). congruence.
Qed.

Lemma sanitizeForFileName_legal (name : string) :
  Forall (fun c => fileNameIllegal c = false) (chars (sanitizeForFileName name)).
Proof. apply chars_trim_all, removeChars_clean. Qed.

(** X1 [sanitizeForFileName]: whatever the name, the result holds none of the
    characters [< > : double-quote / \ | ? * # ^ [ ]] and neither starts nor
    ends with white space. *)
Theorem sanitizeForFileName_safe (name : string) :
  Forall (fun c => fileNameIllegal c = false) (chars (sanitizeForFileName name))
  /\ lacks "/" (sanitizeForFileName name)
  /\ lacks "\" (sanitizeForFileName name)
  /\ lacks ":" (sanitizeForFileName name)
  /\ lacks "#" (sanitizeForFileName name)
  /\ startsClean (sanitizeForFileName name)
  /\ endsClean (sanitizeForFileName name).
Proof.
  pose proof (sanitizeForFileName_legal name) as H.
  split; [exact H|].
  repeat split;
    try (apply (Forall_lacks fileNameIllegal); [reflexivity | exact H]).
  - apply trim_startsClean.
  - apply trim_endsClean.
Qed.

Lemma sanitiser_idempotent (cls : ascii -> bool) (text : string) :
  trim (removeChars cls (trim (removeChars cls text))) = trim (removeChars cls text).
Proof.
  rewrite (removeChars_fixed cls (trim (removeChars cls text))).
  - apply trim_fixed; [apply trim_startsClean | apply trim_endsClean].
  - apply chars_trim_all, removeChars_clean.
Qed.

(** X2 The two sanitisers are idempotent: a file name or a link text that
    went through [sanitizeForFileName] or [cleanForWikilink] goes through it
    again unchanged. *)
Theorem sanitisers_idempotent (text : string) :
  sanitizeForFileName (sanitizeForFileName text) = sanitizeForFileName text
  /\ cleanForWikilink (cleanForWikilink text) = cleanForWikilink text.
Proof. split; apply sanitiser_idempotent. Qed.

(** *** Tags *)

Lemma replaceRuns_fixed (cls : ascii -> bool) (rep s : string) :
  Forall (fun c => cls c = false) (chars s) -> replaceRuns cls rep s = s.
Proof.
  induction s as [|c s IH]; simpl; [reflexivity|].
  intros H. inversion H as [|? ? Hc Hs]; subst. rewrite Hc. now rewrite IH.
Qed.

Lemma tagChar_not_space (c : ascii) : tagChar c = true -> isWhiteSpace c = false.
Proof. by_char c. Qed.

Lemma tagChar_lower (c : ascii) :
  tagChar c = true ->
  isLower (toLowerCaseChar c) || isDigit (toLowerCaseChar c)
  || Ascii.eqb (toLowerCaseChar c) "-" = true.
Proof. by_char c. Qed.

Lemma lower_fixed (c : ascii) :
  isLower c || isDigit c || Ascii.eqb c "-" = true ->
  tagChar c = true /\ toLowerCaseChar c = c.
Proof. by_char c. Qed.

Lemma chars_mapChars (f : ascii -> ascii) (s : string) :
  chars (mapChars f s) = map f (chars s).
Proof. induction s as [|c s IH]; simpl; [reflexivity | now rewrite IH]. Qed.

Lemma mapChars_fixed (f : ascii -> ascii) (s : string) :
  Forall (fun c => f c = c) (chars s) -> mapChars f s = s.
Proof.
  induction s as [|c s IH]; simpl; [reflexivity|].
  intros H. inversion H as [|? ? Hc Hs]; subst. rewrite Hc. now rewrite IH.
Qed.

Lemma sanitizeForTag_filter (text : string) :
  sanitizeForTag text = toLowerCase (removeChars (fun c => negb (tagChar c)) text).
Proof.
  unfold sanitizeForTag. f_equal. apply replaceRuns_fixed.
  eapply Forall_impl; [|apply removeChars_clean].
  intros c Hc. apply tagChar_not_space. now apply negb_false_iff.
Qed.

Lemma sanitizeForTag_chars (text : string) :
  Forall (fun c => isLower c || isDigit c || Ascii.eqb c "-" = true)
    (chars (sanitizeForTag text)).
Proof.
  rewrite sanitizeForTag_filter. unfold toLowerCase. rewrite chars_mapChars.
  apply Forall_map. eapply Forall_impl; [|apply removeChars_clean].
  intros c Hc. apply tagChar_lower. now apply negb_false_iff.
Qed.

(** X3 [sanitizeForTag]: white space and punctuation are deleted, never
    turned into hyphens (the second replacement finds nothing to do); the tag
    is the lower-cased sequence of the letters, digits and hyphens of the
    text, so it holds only [a-z], [0-9] and [-], and sanitising it again
    changes nothing. *)
Theorem sanitizeForTag_keeps_letters_digits_hyphens (text : string) :
  sanitizeForTag text = toLowerCase (removeChars (fun c => negb (tagChar c)) text)
  /\ Forall (fun c => isLower c || isDigit c || Ascii.eqb c "-" = true)
       (chars (sanitizeForTag text))
  /\ sanitizeForTag (sanitizeForTag text) = sanitizeForTag text.
Proof.
  split; [apply sanitizeForTag_filter|]. split; [apply sanitizeForTag_chars|].
  rewrite (sanitizeForTag_filter (sanitizeForTag text)).
  pose proof (sanitizeForTag_chars text) as H.
  rewrite removeChars_fixed.
  - apply mapChars_fixed. eapply Forall_impl; [|exact H].
    intros c Hc. now apply lower_fixed.
  - eapply Forall_impl; [|exact H].
    intros c Hc. apply negb_false_iff. now apply lower_fixed.
Qed.

End Sanitisers.

(* ================================================================= *)
(** ** Descriptions *)

Section Descriptions.
Import JS Text Revised Generator Props NoteProps.

Lemma has_app (x : ascii) (a b : string) : has x (a ++ b) = has x a || has x b.
Proof.
  unfold has. rewrite chars_app. apply existsb_app.
Qed.

Lemma has_cons (x c : ascii) (s : string) :
  has x (String c s) = Ascii.eqb x c || has x s.
Proof. reflexivity. Qed.

Lemma has_tail (x c : ascii) (s : string) :
  has x s = true -> has x (String c s) = true.
Proof. intros H. rewrite has_cons, H. apply orb_true_r. Qed.

Lemma hasTag_cons (c : ascii) (s : string) : hasTag s = true -> hasTag (String c s) = true.
Proof. intros H. simpl. rewrite H. apply orb_true_r. Qed.

Lemma hasTag_app_clean (a b : string) :
  has "<" a = false -> hasTag (a ++ b) = hasTag b.
Proof.
  induction a as [|c a IH]; [reflexivity|].
  rewrite has_cons. intros H. apply orb_false_iff in H. destruct H as [Hc Ha].
  change (hasTag (String c (a ++ b)) = hasTag b). cbn [hasTag].
  rewrite Ascii.eqb_sym, Hc. simpl. apply IH, Ha.
Qed.

Lemma replaceTags_has (rep : string) (x : ascii) (s : string) :
  has x rep = false ->
  forall inTag, has x (replaceTags rep inTag s) = true -> has x s = true.
Proof.
  intros Hrep. induction s as [|c s IH]; intros inTag; cbn [replaceTags]; [trivial|].
  destruct inTag.
  - destruct (Ascii.eqb c ">").
    + rewrite has_app, Hrep. simpl. intros H. apply has_tail, (IH false), H.
    + intros H. apply has_tail, (IH true), H.
  - destruct (Ascii.eqb c "<" && has ">" s).
    + intros H. apply has_tail, (IH true), H.
    + rewrite !has_cons. intros H. apply orb_true_iff in H.
      destruct H as [H|H]; [now rewrite H|].
      apply orb_true_iff. right. apply (IH false), H.
Qed.

Lemma replaceTags_clean (rep : string) (s : string) :
  has "<" rep = false -> has ">" rep = false ->
  forall inTag, hasTag (replaceTags rep inTag s) = false.
Proof.
  intros Hlt Hgt. induction s as [|c s IH]; intros inTag; simpl; [reflexivity|].
  destruct inTag.
  - destruct (Ascii.eqb c ">"); [|apply IH].
    rewrite hasTag_app_clean by exact Hlt. apply IH.
  - destruct (Ascii.eqb c "<" && has ">" s) eqn:E; [apply IH|].
    simpl. rewrite IH, orb_false_r.
    destruct (Ascii.eqb c "<"); [|reflexivity]. simpl in *.
    destruct (has ">" (replaceTags rep false s)) eqn:H; [|reflexivity].
    apply (replaceTags_has rep ">" s Hgt) in H. congruence.
Qed.

Lemma replaceTags_fixed (rep : string) (s : string) :
  hasTag s = false -> replaceTags rep false s = s.
Proof.
  induction s as [|c s IH]; simpl; [reflexivity|].
  intros H. apply orb_false_iff in H. destruct H as [Hc Hs].
  rewrite Hc. now rewrite IH.
Qed.

Lemma collapse_has (x : ascii) (s : string) :
  x <> lineFeed ->
  forall inMatch, has x (collapseBlankLines inMatch s) = true -> has x s = true.
Proof.
  intros Hx. induction s as [|c s IH]; intros inMatch; cbn [collapseBlankLines];
    [trivial|].
  assert (Hcopy : has x (String c (collapseBlankLines false s)) = true ->
                  has x (String c s) = true).
  { rewrite !has_cons. intros H. apply orb_true_iff in H.
    destruct H as [H|H]; [now rewrite H|].
    apply orb_true_iff. right. apply (IH false), H. }
  assert (Hlf : Ascii.eqb x lineFeed = false).
  { destruct (Ascii.eqb x lineFeed) eqn:E; [|reflexivity].
    apply Ascii.eqb_eq in E. contradiction. }
  destruct inMatch.
  - destruct (Ascii.eqb c lineFeed && negb (lineFeedAhead s)).
    + rewrite !(has_cons x lineFeed), Hlf. simpl.
      intros H. apply has_tail, (IH false), H.
    + intros H. apply has_tail, (IH true), H.
  - destruct (Ascii.eqb c lineFeed && lineFeedAhead s).
    + intros H. apply has_tail, (IH true), H.
    + exact Hcopy.
Qed.

Lemma collapse_hasTag (s : string) :
  forall inMatch, hasTag (collapseBlankLines inMatch s) = true -> hasTag s = true.
Proof.
  induction s as [|c s IH]; intros inMatch; simpl; [trivial|].
  destruct inMatch.
  - destruct (Ascii.eqb c lineFeed && negb (lineFeedAhead s)).
    + simpl. intros H. rewrite (IH false H). apply orb_true_r.
    + intros H. rewrite (IH true H). apply orb_true_r.
  - destruct (Ascii.eqb c lineFeed && lineFeedAhead s).
    + intros H. rewrite (IH true H). apply orb_true_r.
    + simpl. intros H. apply orb_true_iff in H. destruct H as [H|H].
      * apply andb_true_iff in H. destruct H as [H1 H2].
        rewrite H1. rewrite (collapse_has ">" s) with (inMatch := false);
          [reflexivity | discriminate | exact H2].
      * rewrite (IH false H). apply orb_true_r.
Qed.

Lemma trimStart_hasTag (s : string) : hasTag (trimStart s) = true -> hasTag s = true.
Proof.
  induction s as [|c s IH]; simpl; [trivial|].
  destruct (isWhiteSpace c); [|trivial].
  intros H. rewrite (IH H). apply orb_true_r.
Qed.

Lemma trimEnd_has (x : ascii) (s : string) : has x (trimEnd s) = true -> has x s = true.
Proof.
  unfold has. rewrite !existsb_exists. intros [c [Hc E]].
  exists c. split; [apply chars_trimEnd, Hc | exact E].
Qed.

Lemma trimEnd_hasTag (s : string) : hasTag (trimEnd s) = true -> hasTag s = true.
Proof.
  induction s as [|c s IH]; simpl; [trivial|].
  assert (Hcopy : hasTag (String c (trimEnd s)) = true ->
                  (Ascii.eqb c "<" && has ">" s) || hasTag s = true).
  { simpl. intros H. apply orb_true_iff in H. destruct H as [H|H].
    - apply andb_true_iff in H. destruct H as [H1 H2].
      rewrite H1, (trimEnd_has ">" s H2). reflexivity.
    - rewrite (IH H). apply orb_true_r. }
  destruct (trimEnd s) as [|e r] eqn:Es.
  - destruct (isWhiteSpace c); [discriminate|]. exact Hcopy.
  - exact Hcopy.
Qed.

Lemma cleanDescription_tagless (desc : string) :
  hasTag (cleanDescription desc) = false.
Proof.
  unfold cleanDescription. destruct (hasTag _) eqn:H; [|reflexivity].
  unfold trim in H. apply trimEnd_hasTag, trimStart_hasTag, collapse_hasTag in H.
  rewrite replaceTags_clean in H; [discriminate | reflexivity | reflexivity].
Qed.

(** X4 [cleanDescription]: no tag is left in the result (no [<] with a [>]
    anywhere after it), the result neither starts nor ends with white space,
    and every character of the result that is not white space comes from the
    description. *)
Theorem cleanDescription_leaves_no_tag (desc : string) :
  hasTag (cleanDescription desc) = false
  /\ startsClean (cleanDescription desc)
  /\ endsClean (cleanDescription desc)
  /\ (forall c, isWhiteSpace c = false ->
        has c (cleanDescription desc) = true -> has c desc = true).
Proof.
  split; [apply cleanDescription_tagless|].
  unfold cleanDescription. repeat split.
  - apply trim_startsClean.
  - apply trim_endsClean.
  - intros c Hc H.
    assert (Hlf : c <> lineFeed) by (intros ->; discriminate).
    unfold has in H. apply existsb_exists in H. destruct H as [d [Hd E]].
    apply chars_trim in Hd.
    assert (H : has c (collapseBlankLines false
                         (replaceTags (String lineFeed EmptyString) false desc)) = true).
    { unfold has. apply existsb_exists. exists d. split; assumption. }
    apply (collapse_has c _ Hlf) in H.
    apply (replaceTags_has _ c desc) in H; [exact H|].
    rewrite has_cons. destruct (Ascii.eqb c lineFeed) eqn:E'; [|reflexivity].
    apply Ascii.eqb_eq in E'. contradiction.
Qed.

(** *** Blank lines *)

Lemma collapse_calm (s : string) :
  lineFeedAhead s = false -> lineFeedAhead (collapseBlankLines false s) = false.
Proof.
  induction s as [|c s IH]; cbn [collapseBlankLines lineFeedAhead]; [trivial|].
  intros H. destruct (Ascii.eqb c lineFeed) eqn:Ec.
  - apply Ascii.eqb_eq in Ec. subst c. discriminate H.
  - cbn [andb orb] in *. cbn [lineFeedAhead]. rewrite Ec. cbn [orb].
    destruct (isWhiteSpace c); [|reflexivity]. cbn [andb] in *. apply IH, H.
Qed.

Lemma collapse_collapsed (s : string) :
  forall inMatch, blankLinesCollapsed (collapseBlankLines inMatch s) = true.
Proof.
  induction s as [|c s IH]; intros inMatch; cbn [collapseBlankLines]; [reflexivity|].
  destruct inMatch.
  - destruct (Ascii.eqb c lineFeed && negb (lineFeedAhead s)) eqn:E; [|apply IH].
    apply andb_true_iff in E. destruct E as [_ E]. apply negb_true_iff in E.
    cbn [blankLinesCollapsed]. rewrite (collapse_calm s E), (IH false).
    rewrite Ascii.eqb_refl. cbn. reflexivity.
  - destruct (Ascii.eqb c lineFeed && lineFeedAhead s) eqn:E; [apply IH|].
    cbn [blankLinesCollapsed]. rewrite (IH false), andb_true_r.
    destruct (Ascii.eqb c lineFeed); [|reflexivity]. cbn [andb] in *.
    rewrite (collapse_calm s E). reflexivity.
Qed.

Lemma collapse_fixed (s : string) :
  blankLinesCollapsed s = true -> collapseBlankLines false s = s.
Proof.
  induction s as [|c s IH]; cbn [collapseBlankLines blankLinesCollapsed]; [reflexivity|].
  intros H. apply andb_true_iff in H. destruct H as [Hc Hs].
  specialize (IH Hs).
  destruct (Ascii.eqb c lineFeed && lineFeedAhead s) eqn:E.
  - cbn [negb orb] in Hc. destruct s as [|d r]; [discriminate|].
    apply andb_true_iff in Hc. destruct Hc as [Hd Hr].
    apply andb_true_iff in E. destruct E as [Ec _].
    apply Ascii.eqb_eq in Hd, Ec. subst c d.
    apply negb_true_iff in Hr.
    cbn [collapseBlankLines] in *. rewrite Ascii.eqb_refl, Hr in *.
    cbn [andb negb] in *. injection IH as IH. now rewrite IH.
  - now rewrite IH.
Qed.

Lemma lineFeedAhead_app (a w : string) :
  lineFeedAhead a = true -> lineFeedAhead (a ++ w) = true.
Proof.
  induction a as [|c a IH]; cbn [lineFeedAhead append]; [discriminate|].
  intros H. apply andb_true_iff in H. destruct H as [Hc H]. rewrite Hc. cbn [andb].
  apply orb_true_iff in H. destruct H as [H|H]; [now rewrite H|].
  rewrite (IH H). apply orb_true_r.
Qed.

Lemma collapsed_prefix (a w : string) :
  blankLinesCollapsed (a ++ w) = true -> blankLinesCollapsed a = true.
Proof.
  induction a as [|c a IH]; cbn [blankLinesCollapsed append]; [reflexivity|].
  intros H. apply andb_true_iff in H. destruct H as [Hc Hs].
  rewrite (IH Hs), andb_true_r.
  destruct (Ascii.eqb c lineFeed && lineFeedAhead a) eqn:E; [|reflexivity].
  apply andb_true_iff in E. destruct E as [Ec Ea].
  rewrite Ec, (lineFeedAhead_app a w Ea) in Hc. cbn [andb negb orb] in *.
  destruct a as [|d r]; [discriminate|]. cbn [append] in Hc.
  apply andb_true_iff in Hc. destruct Hc as [Hd Hr]. rewrite Hd. cbn [andb].
  destruct (lineFeedAhead r) eqn:Er; [|reflexivity].
  rewrite (lineFeedAhead_app r w Er) in Hr. discriminate.
Qed.

Lemma collapsed_trimStart (s : string) :
  blankLinesCollapsed s = true -> blankLinesCollapsed (trimStart s) = true.
Proof.
  induction s as [|c s IH]; cbn [trimStart]; [trivial|].
  destruct (isWhiteSpace c); [|trivial].
  cbn [blankLinesCollapsed]. intros H. apply andb_true_iff in H. apply IH, H.
Qed.

Lemma trimEnd_prefix (s : string) : exists w, s = trimEnd s ++ w.
Proof.
  induction s as [|c s [w IH]]; [exists EmptyString; reflexivity|].
  cbn [trimEnd]. destruct (trimEnd s) as [|e r] eqn:Es.
  - destruct (isWhiteSpace c).
    + exists (String c s). reflexivity.
    + exists w. cbn in *. now f_equal.
  - exists w. cbn in *. now f_equal.
Qed.

Lemma collapsed_trim (s : string) :
  blankLinesCollapsed s = true -> blankLinesCollapsed (trim s) = true.
Proof.
  intros H. unfold trim. destruct (trimEnd_prefix (trimStart s)) as [w E].
  apply (collapsed_prefix _ w). rewrite <- E. apply collapsed_trimStart, H.
Qed.

Lemma collapsed_no_triple (s : string) :
  blankLinesCollapsed s = true ->
  includes (String lineFeed (String lineFeed (String lineFeed EmptyString))) s = false.
Proof.
  induction s as [|c s IH]; cbn [blankLinesCollapsed]; [reflexivity|].
  intros H. apply andb_true_iff in H. destruct H as [Hc Hs].
  cbn [includes]. rewrite (IH Hs), orb_false_r.
  cbn [startsWith]. destruct (Ascii.eqb lineFeed c) eqn:Ec; [|reflexivity].
  apply Ascii.eqb_eq in Ec. subst c. cbn [andb].
  destruct s as [|d r]; [reflexivity|].
  destruct (Ascii.eqb lineFeed d) eqn:Ed; [|reflexivity].
  apply Ascii.eqb_eq in Ed. subst d. cbn [andb].
  destruct r as [|e r']; [reflexivity|].
  destruct (Ascii.eqb lineFeed e) eqn:Ee; [|reflexivity].
  apply Ascii.eqb_eq in Ee. subst e. exfalso.
  rewrite Ascii.eqb_refl in Hc. cbn in Hc. discriminate.
Qed.

(** X5 [cleanDescription] is idempotent, and its result never holds three
    line feeds in a row: paragraphs are at most one empty line apart. *)
Theorem cleanDescription_idempotent (desc : string) :
  cleanDescription (cleanDescription desc) = cleanDescription desc
  /\ includes (String lineFeed (String lineFeed (String lineFeed EmptyString)))
       (cleanDescription desc) = false.
Proof.
  assert (T : blankLinesCollapsed (cleanDescription desc) = true).
  { apply collapsed_trim, collapse_collapsed. }
  split; [|apply collapsed_no_triple, T].
  unfold cleanDescription at 1.
  rewrite replaceTags_fixed by apply cleanDescription_tagless.
  rewrite (collapse_fixed _ T).
  apply trim_fixed; [apply trim_startsClean | apply trim_endsClean].
Qed.

End Descriptions.

(* ================================================================= *)
(** ** Quoting of header values *)

Section Quoting.
Import JS Text Revised Generator Props NoteProps.

Ltac by_char c :=
  destruct c as [[] [] [] [] [] [] [] []]; vm_compute;
  try reflexivity; try discriminate; auto.

Lemma append_cancel_r (a b x : string) : a ++ x = b ++ x -> a = b.
Proof.
  revert b. induction a as [|c a IH]; intros [|d b]; cbn [append]; intros H.
  - reflexivity.
  - exfalso. apply (f_equal String.length) in H. cbn [String.length] in H.
    rewrite append_length in H. lia.
  - exfalso. apply (f_equal String.length) in H. cbn [String.length] in H.
    rewrite append_length in H. lia.
  - injection H as -> H. f_equal. apply IH, H.
Qed.

(** Writing [e] before every [c] loses nothing. *)
Lemma replaceChar_prefix_inj (c e : ascii) (s t : string) :
  e <> c ->
  replaceChar c (String e (String c EmptyString)) s
  = replaceChar c (String e (String c EmptyString)) t ->
  s = t.
Proof.
  intros Hec. revert t.
  induction s as [|a s IH]; intros [|b t]; cbn [replaceChar append].
  - reflexivity.
  - destruct (Ascii.eqb b c); discriminate.
  - destruct (Ascii.eqb a c); discriminate.
  - destruct (Ascii.eqb a c) eqn:Ea, (Ascii.eqb b c) eqn:Eb.
    + apply Ascii.eqb_eq in Ea, Eb. subst. intros [= H]. f_equal. apply IH, H.
    + apply Ascii.eqb_eq in Ea. subst a. intros [= <- H]. exfalso.
      destruct t as [|b' t]; cbn [replaceChar append] in H; [discriminate|].
      destruct (Ascii.eqb b' c) eqn:Eb'.
      * injection H as H _. now apply Hec.
      * injection H as H _. subst b'. now rewrite Ascii.eqb_refl in Eb'.
    + apply Ascii.eqb_eq in Eb. subst b. intros [= -> H]. exfalso.
      destruct s as [|a' s]; cbn [replaceChar append] in H; [discriminate|].
      destruct (Ascii.eqb a' c) eqn:Ea'.
      * injection H as H _. now apply Hec.
      * injection H as H _. subst a'. now rewrite Ascii.eqb_refl in Ea'.
    + intros [= -> H]. f_equal. apply IH, H.
Qed.

Lemma replaceChar_fixed (c : ascii) (rep s : string) :
  has c s = false -> replaceChar c rep s = s.
Proof.
  induction s as [|a s IH]; cbn [replaceChar]; [reflexivity|].
  unfold has. cbn [chars existsb]. intros H. apply orb_false_iff in H.
  destruct H as [Ha Hs]. rewrite Ascii.eqb_sym, Ha. f_equal. apply IH, Hs.
Qed.

Lemma replaceChar_has (c x : ascii) (rep s : string) :
  x <> c -> has x (replaceChar c rep s) = false -> has x s = false.
Proof.
  intros Hx. induction s as [|a s IH]; cbn [replaceChar]; [trivial|].
  destruct (Ascii.eqb a c) eqn:Ea.
  - apply Ascii.eqb_eq in Ea. subst a.
    unfold has at 1. rewrite chars_app, existsb_app. intros H.
    apply orb_false_iff in H. destruct H as [_ H].
    unfold has. cbn [chars existsb].
    destruct (Ascii.eqb x c) eqn:E; [apply Ascii.eqb_eq in E; contradiction|].
    apply IH, H.
  - unfold has. cbn [chars existsb]. intros H. apply orb_false_iff in H.
    destruct H as [H1 H2]. rewrite H1. apply IH, H2.
Qed.

Lemma lower_keeps (x : ascii) (s : string) :
  (forall c, Ascii.eqb x (toLowerCaseChar c) = Ascii.eqb x c) ->
  has x (toLowerCase s) = has x s.
Proof.
  intros Hx. unfold has, toLowerCase.
  induction s as [|c s IH]; cbn [mapChars chars existsb]; [reflexivity|].
  now rewrite Hx, IH.
Qed.

Lemma lower_hash (c : ascii) : Ascii.eqb "#" (toLowerCaseChar c) = Ascii.eqb "#" c.
Proof. by_char c. Qed.

Lemma lower_colon (c : ascii) : Ascii.eqb ":" (toLowerCaseChar c) = Ascii.eqb ":" c.
Proof. by_char c. Qed.

Lemma lower_dquote (c : ascii) : Ascii.eqb dquote (toLowerCaseChar c) = Ascii.eqb dquote c.
Proof. by_char c. Qed.

Lemma marked_has (s : string) :
  existsb (fun c => Ascii.eqb c "#" || Ascii.eqb c ":") (chars s)
  = has "#" s || has ":" s.
Proof.
  unfold has. induction s as [|c s IH]; cbn [chars existsb]; [reflexivity|].
  rewrite IH, (Ascii.eqb_sym c "#"), (Ascii.eqb_sym c ":").
  destruct (Ascii.eqb "#" c), (Ascii.eqb ":" c),
    (existsb (Ascii.eqb "#") (chars s)), (existsb (Ascii.eqb ":") (chars s));
    reflexivity.
Qed.

Lemma In_reserved (s : string) :
  existsb (String.eqb s) reservedWords = true <-> In s reservedWords.
Proof.
  rewrite existsb_exists. split.
  - intros [w [Hw E]]. apply String.eqb_eq in E. now subst.
  - intros H. exists s. split; [exact H | apply String.eqb_refl].
Qed.

(** A reserved word, in any case, holds no [#], no [:] and no double quote. *)
Lemma reserved_plain (t : string) :
  In (toLowerCase t) reservedWords ->
  has "#" t = false /\ has ":" t = false /\ has dquote t = false.
Proof.
  intros H.
  rewrite <- (lower_keeps "#" t lower_hash), <- (lower_keeps ":" t lower_colon),
    <- (lower_keeps dquote t lower_dquote).
  destruct H as [<-|[<-|[<-|[]]]]; repeat split; reflexivity.
Qed.

Lemma wrapped_plain (t : string) :
  In (toLowerCase t) reservedWords -> needsQuotes (wrapped t) = false.
Proof.
  intros H. destruct (reserved_plain t H) as [H1 [H2 _]].
  unfold needsQuotes. rewrite marked_has. unfold wrapped.
  rewrite !has_cons, !has_app, H1, H2. cbn.
  unfold toLowerCase. cbn [mapChars].
  change (toLowerCaseChar dquote) with dquote. reflexivity.
Qed.

(** X6 [quoteYamlString] tells values apart, with one exception: a reserved
    word ([true], [false], [null], in any case) and the same word already
    between double quotes get the same text.  Apart from that, two values get
    the same text only when they are the same. *)
Theorem quoteYamlString_collisions (s t : string) :
  quoteYamlString (Some s) = quoteYamlString (Some t)
  <-> s = t
      \/ (In (toLowerCase t) reservedWords /\ s = wrapped t)
      \/ (In (toLowerCase s) reservedWords /\ t = wrapped s).
Proof.
  assert (Quoted : forall u, In (toLowerCase u) reservedWords ->
            quoteYamlString (Some u) = wrapped u
            /\ quoteYamlString (Some (wrapped u)) = wrapped u).
  { intros u Hu. cbn [quoteYamlString]. rewrite (wrapped_plain u Hu).
    split; [|reflexivity].
    unfold needsQuotes. apply In_reserved in Hu. rewrite Hu, orb_true_r.
    unfold escapeQuotes. rewrite replaceChar_fixed; [reflexivity|].
    apply reserved_plain, In_reserved, Hu. }
  assert (Mixed : forall u v, needsQuotes u = false -> needsQuotes v = true ->
            u = String dquote (escapeQuotes v ++ String dquote EmptyString) ->
            In (toLowerCase v) reservedWords /\ u = wrapped v).
  { intros u v Hu Hv E. unfold needsQuotes in Hu, Hv. rewrite marked_has in Hu, Hv.
    apply orb_false_iff in Hu. destruct Hu as [Hu _].
    apply orb_false_iff in Hu. destruct Hu as [Hh Hc].
    rewrite E, has_cons, has_app in Hh, Hc.
    apply orb_false_iff in Hh, Hc. destruct Hh as [_ Hh], Hc as [_ Hc].
    apply orb_false_iff in Hh, Hc. destruct Hh as [Hh _], Hc as [Hc _].
    apply replaceChar_has in Hh; [|discriminate].
    apply replaceChar_has in Hc; [|discriminate].
    rewrite Hh, Hc in Hv. cbn [orb] in Hv. apply In_reserved in Hv.
    split; [exact Hv|]. rewrite E. unfold wrapped, escapeQuotes.
    rewrite replaceChar_fixed; [reflexivity|]. apply reserved_plain, Hv. }
  split.
  - cbn [quoteYamlString].
    destruct (needsQuotes s) eqn:Es, (needsQuotes t) eqn:Et; intros H.
    + left. injection H as H. apply append_cancel_r in H.
      apply (replaceChar_prefix_inj dquote "\") in H; [exact H | discriminate].
    + right. right. symmetry in H. apply (Mixed t s Et Es H).
    + right. left. apply (Mixed s t Es Et H).
    + now left.
  - intros [->|[[Ht ->]|[Hs ->]]].
    + reflexivity.
    + destruct (Quoted t Ht) as [E1 E2]. now rewrite E1, E2.
    + destruct (Quoted s Hs) as [E1 E2]. now rewrite E1, E2.
Qed.

End Quoting.

(* ================================================================= *)
(** ** The order of the roles in an issue note *)

Section RoleOrder.
Import JS Text Revised Generator Props NoteProps.
Variable localeCompare : string -> string -> Z.
Hypothesis localeCompare_antisym :
  forall a b, Z.sgn (localeCompare a b) = (- Z.sgn (localeCompare b a))%Z.
Hypothesis localeCompare_trans :
  forall a b c,
    (localeCompare a b <= 0)%Z -> (localeCompare b c <= 0)%Z ->
    (localeCompare a c <= 0)%Z.

Lemma indexOf_In (x : string) (l : list string) :
  In x l <-> indexOf x l <> None.
Proof.
  induction l as [|y l IH]; cbn [indexOf In]; [tauto|].
  destruct (String.eqb y x) eqn:E.
  - apply String.eqb_eq in E. split; [discriminate | now left].
  - apply String.eqb_neq in E. destruct (indexOf x l) as [i|].
    + split; [discriminate|]. intros _. right. apply IH. discriminate.
    + split; [|intros H; now contradiction H].
      intros [H|H]; [contradiction | now apply IH in H].
Qed.

(** X7 [sortRoles] is a consistent comparator whenever [localeCompare] is
    one: swapping the arguments flips the sign, and it is transitive.  It
    puts the roles of its table first, in the order of the table, and every
    other role after them. *)
Theorem sortRoles_consistent :
  (forall a b, Z.sgn (sortRoles localeCompare a b)
               = (- Z.sgn (sortRoles localeCompare b a))%Z)
  /\ (forall a b c,
        (sortRoles localeCompare a b <= 0)%Z -> (sortRoles localeCompare b c <= 0)%Z ->
        (sortRoles localeCompare a c <= 0)%Z)
  /\ (forall a b i j,
        indexOf a order = Some i -> indexOf b order = Some j ->
        ((sortRoles localeCompare a b < 0)%Z <-> i < j))
  /\ (forall a b, In a order -> ~ In b order ->
        (sortRoles localeCompare a b < 0)%Z /\ (0 < sortRoles localeCompare b a)%Z)
  /\ (forall a b, ~ In a order -> ~ In b order ->
        sortRoles localeCompare a b = localeCompare a b).
Proof.
  repeat split.
  - intros a b. unfold sortRoles.
    destruct (indexOf a order), (indexOf b order); try reflexivity.
    + rewrite <- Z.sgn_opp. f_equal. lia.
    + apply localeCompare_antisym.
  - intros a b c. unfold sortRoles.
    destruct (indexOf a order), (indexOf b order), (indexOf c order);
      try lia. apply localeCompare_trans.
  - unfold sortRoles. rewrite H, H0. lia.
  - unfold sortRoles. rewrite H, H0. lia.
  - apply indexOf_In in H. rewrite indexOf_In in H0. unfold sortRoles.
    destruct (indexOf a order); [|contradiction].
    destruct (indexOf b order); [exfalso; apply H0; discriminate | lia].
  - apply indexOf_In in H. rewrite indexOf_In in H0. unfold sortRoles.
    destruct (indexOf a order); [|contradiction].
    destruct (indexOf b order); [exfalso; apply H0; discriminate | lia].
  - intros a b Ha Hb. rewrite indexOf_In in Ha, Hb. unfold sortRoles.
    destruct (indexOf a order); [exfalso; apply Ha; discriminate|].
    destruct (indexOf b order); [exfalso; apply Hb; discriminate|]. reflexivity.
Qed.

End RoleOrder.

Section RoleOrderSample.
Import JS Text Revised Generator Props NoteProps.

Lemma sortRoles_consistent_witness :
  (sortRoles (fun _ _ => 0%Z) "Writer" "Letterer" <= 0)%Z
  /\ (sortRoles (fun _ _ => 0%Z) "Letterer" "Plotter" <= 0)%Z
  /\ (sortRoles (fun _ _ => 0%Z) "Writer" "Plotter" <= 0)%Z.
Proof.
  pose proof (sortRoles_consistent (fun _ _ => 0%Z)
                (fun _ _ => eq_refl) (fun _ _ _ _ _ => Z.le_refl 0)) as [_ [T _]].
  assert (A : (sortRoles (fun _ _ => 0%Z) "Writer" "Letterer" <= 0)%Z)
    by (vm_compute; discriminate).
  assert (B : (sortRoles (fun _ _ => 0%Z) "Letterer" "Plotter" <= 0)%Z)
    by (vm_compute; discriminate).
  exact (conj A (conj B (T _ _ _ A B))).
Defined.

End RoleOrderSample.

(* ================================================================= *)
(** ** File names of issue notes *)

Section FileNames.
Import JS Text Revised Generator Props NoteProps.

Lemma first_mark (x : ascii) (u v p q : string) :
  lacks x u -> lacks x v ->
  u ++ String x p = v ++ String x q -> u = v /\ p = q.
Proof.
  unfold lacks. revert v.
  induction u as [|c u IH]; intros [|d v]; cbn [append chars In]; intros Hu Hv H.
  - injection H as H. now split.
  - injection H as H _. exfalso. apply Hv. now left.
  - injection H as H _. exfalso. apply Hu. now left.
  - injection H as -> H.
    destruct (IH v) as [E1 E2]; [tauto | tauto | exact H |]. now subst.
Qed.

Lemma lacks_app (x : ascii) (a b : string) : lacks x a -> lacks x b -> lacks x (a ++ b).
Proof.
  unfold lacks. rewrite chars_app. intros Ha Hb H. apply in_app_or in H. tauto.
Qed.

Lemma chars_repeatChar (n : nat) (c x : ascii) :
  In x (chars (repeatChar n c)) -> x = c.
Proof. induction n as [|n IH]; cbn; [tauto|]. intros [H|H]; [now subst | now apply IH]. Qed.

(** X8 [generateFileName]: two issues get the same file name exactly when
    their sanitised volume names are the same and their issue numbers,
    padded with zeros to three characters, are the same.  The issue number is
    not sanitised: a character of the name that a file name should not hold
    is the [#] of the pattern or comes from the issue number. *)
Theorem generateFileName_collisions (a b : ComicIssueData) :
  (generateFileName a = generateFileName b
   <-> sanitizeForFileName (volume_name (volume a))
       = sanitizeForFileName (volume_name (volume b))
       /\ padStart 3 "0" (issue_number (issue a))
          = padStart 3 "0" (issue_number (issue b)))
  /\ (forall c, In c (chars (generateFileName a)) -> fileNameIllegal c = true ->
        c = "#"%char \/ In c (chars (issue_number (issue a)))).
Proof.
  unfold generateFileName. split; [split|].
  - intros H.
    change (" #" ++ ?x) with (" " ++ String "#" x) in H.
    rewrite <- !append_assoc in H.
    apply (first_mark "#") in H.
    + destruct H as [H1 H2]. split.
      * apply append_cancel_r in H1. exact H1.
      * apply append_cancel_r in H2. exact H2.
    + apply lacks_app; [|cbn; intros [H'|[]]; discriminate].
      apply (Forall_lacks fileNameIllegal); [reflexivity | apply sanitizeForFileName_legal].
    + apply lacks_app; [|cbn; intros [H'|[]]; discriminate].
      apply (Forall_lacks fileNameIllegal); [reflexivity | apply sanitizeForFileName_legal].
  - intros [-> ->]. reflexivity.
  - intros c Hc Hill. rewrite !chars_app in Hc.
    apply in_app_or in Hc. destruct Hc as [Hc|Hc].
    { exfalso. pose proof (sanitizeForFileName_legal (volume_name (volume a))) as S.
      rewrite Forall_forall in S. rewrite (S c Hc) in Hill. discriminate. }
    apply in_app_or in Hc. destruct Hc as [Hc|Hc].
    { cbn in Hc. destruct Hc as [<-|[<-|[]]]; [discriminate | now left]. }
    apply in_app_or in Hc. destruct Hc as [Hc|Hc].
    { unfold padStart in Hc. rewrite chars_app in Hc.
      apply in_app_or in Hc. destruct Hc as [Hc|Hc]; [|now right].
      apply chars_repeatChar in Hc. subst c. discriminate. }
    cbn in Hc. destruct Hc as [<-|[<-|[<-|[]]]]; discriminate.
Qed.

End FileNames.

(* ================================================================= *)
(** ** The credits of an issue *)

Section Credits.
Import JS Text Store Revised Engine Generator Props NoteProps.

Lemma In_keys_assign {A} (x k : string) (v : A) (o : list (string * A)) :
  In x (map fst (assign k v o)) -> x = k \/ In x (map fst o).
Proof.
  induction o as [|[k' v'] o IH]; cbn [assign map fst In].
  - intros [H|[]]. now left.
  - destruct (String.eqb k' k) eqn:E; cbn [map fst In]; [tauto|].
    intros [H|H]; [tauto|]. apply IH in H. tauto.
Qed.

Lemma assign_keys {A} (k : string) (v : A) (o : list (string * A)) :
  NoDup (map fst o) -> NoDup (map fst (assign k v o)).
Proof.
  induction o as [|[k' v'] o IH]; cbn [assign map fst]; intros H.
  - constructor; [intros [] | constructor].
  - inversion H as [|? ? Hk Ho]; subst.
    destruct (String.eqb k' k) eqn:E; cbn [map fst]; [now constructor|].
    constructor; [|apply IH, Ho].
    intros Hin. apply In_keys_assign in Hin. destruct Hin as [->|Hin]; [|contradiction].
    now rewrite String.eqb_refl in E.
Qed.

Lemma lookup_assign (k q : string) {A} (v : A) (o : list (string * A)) :
  lookup q (assign k v o) = if String.eqb k q then Some v else lookup q o.
Proof.
  destruct (String.eqb k q) eqn:E.
  - apply String.eqb_eq in E. subst. apply lookup_assign_same.
  - apply String.eqb_neq in E. apply lookup_assign_other. congruence.
Qed.

Lemma existsb_In (x : string) (l : list string) :
  existsb (String.eqb x) l = true <-> In x l.
Proof.
  rewrite existsb_exists. split.
  - intros [y [Hy E]]. apply String.eqb_eq in E. now subst.
  - intros H. exists x. split; [exact H | apply String.eqb_refl].
Qed.

Lemma isEmpty_true (s : string) : isEmpty s = true <-> s = EmptyString.
Proof. destruct s; cbn; split; congruence. Qed.

(** What filing one person under one role does. *)
Lemma filed_listed (name role : string) (creators : list (string * list string))
    (r n : string) :
  listed (filed name creators role) r n
  <-> listed creators r n \/ (isEmpty role = false /\ r = role /\ n = name).
Proof.
  unfold filed, listed. destruct (isEmpty role) eqn:Er.
  { split; [tauto | intros [H|[H _]]; [exact H | discriminate]]. }
  destruct (lookup role creators) as [people|] eqn:El.
  - destruct (existsb (String.eqb name) people) eqn:Ex.
    + apply existsb_In in Ex. split; [tauto|].
      intros [H|[_ [-> ->]]]; [exact H|]. now exists people.
    + split.
      * intros [ps [Hl Hin]]. rewrite lookup_assign in Hl.
        destruct (String.eqb role r) eqn:E.
        -- apply String.eqb_eq in E. subst r. injection Hl as <-.
           apply in_app_or in Hin. destruct Hin as [Hin|[<-|[]]].
           ++ left. now exists people.
           ++ right. tauto.
        -- left. now exists ps.
      * intros [[ps [Hl Hin]]|[_ [-> ->]]].
        -- rewrite lookup_assign. destruct (String.eqb role r) eqn:E.
           ++ apply String.eqb_eq in E. subst r. rewrite El in Hl. injection Hl as <-.
              eexists. split; [reflexivity|]. apply in_or_app. now left.
           ++ now exists ps.
        -- rewrite lookup_assign, String.eqb_refl.
           eexists. split; [reflexivity|]. apply in_or_app. right. now left.
  - split.
    + intros [ps [Hl Hin]]. rewrite lookup_assign in Hl.
      destruct (String.eqb role r) eqn:E.
      * apply String.eqb_eq in E. subst r. injection Hl as <-.
        destruct Hin as [<-|[]]. right. tauto.
      * left. now exists ps.
    + intros [[ps [Hl Hin]]|[_ [-> ->]]].
      * rewrite lookup_assign. destruct (String.eqb role r) eqn:E.
        -- apply String.eqb_eq in E. subst r. congruence.
        -- now exists ps.
      * rewrite lookup_assign, String.eqb_refl.
        eexists. split; [reflexivity|]. now left.
Qed.

Lemma filed_grouped (name role : string) (creators : list (string * list string)) :
  grouped creators -> grouped (filed name creators role).
Proof.
  unfold filed, grouped. intros [G K].
  destruct (isEmpty role); [now split|].
  destruct (lookup role creators) as [people|] eqn:El.
  - destruct (existsb (String.eqb name) people) eqn:Ex; [now split|].
    split; [|apply assign_keys, K].
    intros r ps. rewrite lookup_assign.
    destruct (String.eqb role r); [|apply G].
    intros [= <-]. destruct (G role people El) as [N _]. split.
    + apply NoDup_app; [exact N | constructor; [intros [] | constructor] |].
      intros x Hx [E|[]]. subst x. apply existsb_In in Hx. congruence.
    + destruct people; discriminate.
  - split; [|apply assign_keys, K].
    intros r ps. rewrite lookup_assign.
    destruct (String.eqb role r); [|apply G].
    intros [= <-]. split; [|discriminate].
    constructor; [intros [] | constructor].
Qed.

Lemma filedCredit_listed (credit : string * string)
    (creators : list (string * list string)) (r n : string) :
  listed (filedCredit creators credit) r n
  <-> listed creators r n \/ (n = fst credit /\ In r (canonicalizeRole (snd credit))).
Proof.
  destruct credit as [name role]. unfold filedCredit, canonicalizeRole. cbn [fst snd].
  revert creators. induction (roles role) as [|x xs IH]; intros creators; cbn [fold_left filter].
  - cbn. tauto.
  - rewrite IH, filed_listed.
    destruct (isEmpty x) eqn:Ex; cbn [negb In]; split.
    + intros [[H|[H _]]|H]; [tauto | discriminate | tauto].
    + tauto.
    + intros [[H|[_ [-> ->]]]|H]; tauto.
    + intros [H|[-> [<-|H]]]; tauto.
Qed.

Lemma filedCredit_grouped (credit : string * string)
    (creators : list (string * list string)) :
  grouped creators -> grouped (filedCredit creators credit).
Proof.
  destruct credit as [name role]. unfold filedCredit. cbn [fst snd].
  revert creators. induction (roles role) as [|x xs IH]; intros creators G; cbn [fold_left].
  - exact G.
  - apply IH, filed_grouped, G.
Qed.

Lemma filedCredits_listed (credits : list PersonCredit) (r n : string) :
  forall creators,
  listed (filedCredits credits creators) r n
  <-> listed creators r n
      \/ exists c, In c credits /\ credit_name c = n
                   /\ In r (canonicalizeRole (credit_role c)).
Proof.
  unfold filedCredits.
  induction credits as [|c credits IH]; intros creators; cbn [map fold_left].
  - split; [tauto | intros [H|[c [[] _]]]; exact H].
  - rewrite IH, filedCredit_listed. cbn [fst snd In]. split.
    + intros [[H|[-> H]]|[k [Hk H]]].
      * now left.
      * right. exists c. tauto.
      * right. exists k. tauto.
    + intros [H|[k [[<-|Hk] [H1 H2]]]].
      * tauto.
      * left. right. split; [now symmetry | exact H2].
      * right. exists k. tauto.
Qed.

Lemma filedCredits_grouped (credits : list PersonCredit) :
  forall creators, grouped creators -> grouped (filedCredits credits creators).
Proof.
  unfold filedCredits.
  induction credits as [|c credits IH]; intros creators G; cbn [map fold_left].
  - exact G.
  - apply IH, filedCredit_grouped, G.
Qed.

Lemma canonicalizeRole_nonempty (role r : string) :
  In r (canonicalizeRole role) -> r <> EmptyString.
Proof.
  unfold canonicalizeRole. rewrite filter_In. intros [_ H] ->. discriminate.
Qed.

Lemma filedCredits_spec (credits : list PersonCredit) :
  (forall role name,
     listed (filedCredits credits []) role name
     <-> exists c, In c credits /\ credit_name c = name
                   /\ In role (canonicalizeRole (credit_role c)))
  /\ grouped (filedCredits credits []).
Proof.
  split.
  - intros role name. rewrite filedCredits_listed. split; [|tauto].
    intros [[ps [H _]]|H]; [discriminate | exact H].
  - apply filedCredits_grouped. split; [discriminate | constructor].
Qed.

(** *** When the filing throws *)

Lemma fileUnder_plain (name role : string) (creators : list (string * list string)) :
  isEmpty role = true \/ member role = false ->
  fileUnder name creators role = Some (filed name creators role).
Proof.
  intros H. unfold fileUnder, filed, getProperty. fold (member role).
  destruct (isEmpty role); [reflexivity|].
  destruct H as [H|H]; [discriminate|]. rewrite H.
  destruct (lookup role creators) as [people|]; [|reflexivity].
  destruct (existsb (String.eqb name) people); reflexivity.
Qed.

Lemma fileUnder_member (name role : string) (creators : list (string * list string)) :
  plainKeys creators -> isEmpty role = false -> member role = true ->
  fileUnder name creators role = None.
Proof.
  intros K He Hm. unfold fileUnder, getProperty. fold (member role). rewrite He, Hm.
  destruct (lookup role creators) as [people|] eqn:E; [|reflexivity].
  apply lookup_In, (in_map fst) in E. apply K in E. cbn [fst] in E. congruence.
Qed.

Lemma filed_plainKeys (name role : string) (creators : list (string * list string)) :
  isEmpty role = true \/ member role = false ->
  plainKeys creators -> plainKeys (filed name creators role).
Proof.
  intros H K. unfold filed. destruct (isEmpty role); [exact K|].
  destruct H as [H|H]; [discriminate|].
  assert (P : forall v, plainKeys (assign role v creators)).
  { intros v k Hk. apply In_keys_assign in Hk. destruct Hk as [->|Hk]; [exact H | now apply K]. }
  destruct (lookup role creators) as [people|]; [|apply P].
  destruct (existsb (String.eqb name) people); [exact K | apply P].
Qed.

Lemma fileUnderAll_plain (name : string) (roles : list string) :
  forall creators,
  Forall (fun role => isEmpty role = true \/ member role = false) roles ->
  plainKeys creators ->
  fileUnderAll name roles creators = Some (fold_left (filed name) roles creators)
  /\ plainKeys (fold_left (filed name) roles creators).
Proof.
  induction roles as [|role roles IH]; intros creators F K; cbn [fileUnderAll fold_left].
  - split; [reflexivity | exact K].
  - inversion F as [|? ? Hr Hrest]; subst.
    rewrite (fileUnder_plain name role creators Hr).
    apply IH; [exact Hrest | apply filed_plainKeys; assumption].
Qed.

Lemma fileUnderAll_member (name : string) (roles : list string) (role : string) :
  forall creators,
  plainKeys creators -> In role roles -> isEmpty role = false -> member role = true ->
  fileUnderAll name roles creators = None.
Proof.
  induction roles as [|r roles IH]; intros creators K Hin He Hm; [destruct Hin|].
  cbn [fileUnderAll].
  destruct (isEmpty r) eqn:Er.
  - rewrite (fileUnder_plain name r creators (or_introl Er)).
    destruct Hin as [->|Hin]; [congruence|].
    apply IH; [apply filed_plainKeys; auto | assumption..].
  - destruct (member r) eqn:Mr.
    + now rewrite (fileUnder_member name r creators K Er Mr).
    + rewrite (fileUnder_plain name r creators (or_intror Mr)).
      destruct Hin as [->|Hin]; [congruence|].
      apply IH; [apply filed_plainKeys; auto | assumption..].
Qed.

Lemma canonical_or_empty (role r : string) :
  In r (roles role) -> isEmpty r = true \/ In r (canonicalizeRole role).
Proof.
  intros H. unfold canonicalizeRole. rewrite filter_In.
  destruct (isEmpty r); [now left | right; auto].
Qed.

Lemma groupCreditsFrom_plain (credits : list PersonCredit) :
  forall creators,
  plainRoles credits -> plainKeys creators ->
  groupCreditsFrom credits creators = Some (filedCredits credits creators).
Proof.
  unfold filedCredits.
  induction credits as [|c credits IH]; intros creators P K;
    cbn [groupCreditsFrom map fold_left]; [reflexivity|].
  unfold processCredit.
  destruct (fileUnderAll_plain (credit_name c) (roles (credit_role c)) creators) as [E K'].
  - apply Forall_forall. intros r Hr.
    destruct (canonical_or_empty _ _ Hr) as [H|H]; [now left|].
    right. exact (P c r (or_introl eq_refl) H).
  - exact K.
  - rewrite E. apply IH; [|exact K'].
    intros k r Hk Hr. exact (P k r (or_intror Hk) Hr).
Qed.

Lemma fileUnder_some (name role : string) (creators creators' : list (string * list string)) :
  fileUnder name creators role = Some creators' -> plainKeys creators ->
  plainKeys creators'.
Proof.
  intros E K. destruct (isEmpty role) eqn:Er.
  - rewrite (fileUnder_plain name role creators (or_introl Er)) in E.
    injection E as <-. apply filed_plainKeys; auto.
  - destruct (member role) eqn:Mr.
    + rewrite (fileUnder_member name role creators K Er Mr) in E. discriminate.
    + rewrite (fileUnder_plain name role creators (or_intror Mr)) in E.
      injection E as <-. apply filed_plainKeys; auto.
Qed.

Lemma fileUnderAll_some (name : string) (roles : list string) :
  forall creators creators',
  fileUnderAll name roles creators = Some creators' -> plainKeys creators ->
  plainKeys creators'.
Proof.
  induction roles as [|role roles IH]; intros creators creators' E K;
    cbn [fileUnderAll] in E.
  - now injection E as <-.
  - destruct (fileUnder name creators role) as [c1|] eqn:E1; [|discriminate].
    exact (IH c1 creators' E (fileUnder_some _ _ _ _ E1 K)).
Qed.

Lemma groupCreditsFrom_member (credits : list PersonCredit) (k : PersonCredit)
    (role : string) :
  forall creators,
  plainKeys creators -> In k credits -> In role (canonicalizeRole (credit_role k)) ->
  member role = true ->
  groupCreditsFrom credits creators = None.
Proof.
  intros creators K Hin Hr Hm. revert creators K.
  induction credits as [|c credits IH]; intros creators K; [destruct Hin|].
  cbn [groupCreditsFrom]. unfold processCredit.
  destruct (fileUnderAll (credit_name c) (roles (credit_role c)) creators)
    as [creators'|] eqn:E; [|reflexivity].
  destruct Hin as [->|Hin].
  - unfold canonicalizeRole in Hr. apply filter_In in Hr. destruct Hr as [Hr He].
    apply negb_true_iff in He.
    rewrite (fileUnderAll_member _ _ role creators K Hr He Hm) in E. discriminate.
  - apply (IH Hin). exact (fileUnderAll_some _ _ _ _ E K).
Qed.

Lemma plainKeys_nil {A} : plainKeys (@nil (string * A)).
Proof. intros k []. Qed.

(** X9 [processIssueData] throws exactly when a canonical role of a credit
    names a member of [Object.prototype].  When it returns, it files every
    credited person under each of the canonical roles of the credit, and
    under no other role; no person is listed twice under a role, no role is
    listed twice, without a name or without a person. *)
Theorem processIssueData_groups_credits (issue : ComicVineIssue)
    (volume : ComicVineVolume) (localCoverPath : option string) :
  (plainRoles (person_credits issue) ->
   processIssueData issue volume localCoverPath <> None)
  /\ (forall k role,
        In k (person_credits issue) -> In role (canonicalizeRole (credit_role k)) ->
        member role = true ->
        processIssueData issue volume localCoverPath = None)
  /\ (forall data,
        processIssueData issue volume localCoverPath = Some data ->
        (forall role name,
           listed (creators data) role name
           <-> exists c, In c (person_credits issue) /\ credit_name c = name
                         /\ In role (canonicalizeRole (credit_role c)))
        /\ (forall role people,
              lookup role (creators data) = Some people ->
              NoDup people /\ people <> [] /\ role <> EmptyString)
        /\ NoDup (map fst (creators data))).
Proof.
  unfold processIssueData, groupCredits. split; [|split].
  - intros P. rewrite (groupCreditsFrom_plain _ [] P plainKeys_nil). discriminate.
  - intros k role Hk Hr Hm.
    now rewrite (groupCreditsFrom_member _ k role [] plainKeys_nil Hk Hr Hm).
  - intros data E.
    destruct (groupCreditsFrom (person_credits issue) []) as [found|] eqn:G;
      [|discriminate].
    injection E as <-. cbn [creators].
    assert (P : plainRoles (person_credits issue)).
    { intros k role Hk Hr. destruct (member role) eqn:Hm; [|reflexivity].
      rewrite (groupCreditsFrom_member _ k role [] plainKeys_nil Hk Hr Hm) in G.
      discriminate. }
    rewrite (groupCreditsFrom_plain _ [] P plainKeys_nil) in G. injection G as <-.
    destruct (filedCredits_spec (person_credits issue)) as [L [G K]].
    split; [exact L|]. split; [|exact K].
    intros role people Hl. destruct (G role people Hl) as [N E].
    split; [exact N|]. split; [exact E|].
    destruct people as [|n ps]; [contradiction|].
    assert (H : listed (filedCredits (person_credits issue) []) role n).
    { exists (n :: ps). split; [exact Hl | now left]. }
    apply L in H. destruct H as [c [_ [_ H]]].
    apply (canonicalizeRole_nonempty _ _ H).
Qed.

(** *** One creator per id *)

(** X10 The creators of an import ([uniqueCreators] in
    [ensureCreatorNotesExist]): one entry per id; every credit has its entry;
    an entry carries the name and the address of the first credit of its id
    and the roles of all the credits of its id, in the order of the credits. *)
Theorem uniqueCreators_one_per_id (credits : list PersonCredit) :
  NoDup (map creator_id (uniqueCreators credits))
  /\ (forall k, In k credits ->
        exists c, In c (uniqueCreators credits) /\ creator_id c = credit_id k)
  /\ (forall c, In c (uniqueCreators credits) ->
        exists k,
          find (fun k => (credit_id k =? creator_id c)%Z) credits = Some k
          /\ creator_name c = credit_name k
          /\ creator_url c = api_detail_url k
          /\ creator_roles c = rolesOfId (creator_id c) credits).
Proof.
  split; [apply uniqueCreators_NoDup; constructor|]. split.
  - intros k Hk. destruct (uniqueCreators_entry credits k Hk) as [c [k0 [H1 [H2 _]]]].
    exists c. auto.
  - intros c Hc. destruct (uniqueCreators_first credits c Hc) as [k [F E]].
    exists k. split; [exact F|]. rewrite E at 1 2 3. cbn. auto.
Qed.

End Credits.

(* ================================================================= *)
(** ** Dates of people *)

Section Dates.
Import JS Text Store Revised Engine Generator Props NoteProps.

(** X11 [parseCreatorDate], whatever the engine's date parser answers: no
    date object only for a missing or empty text; otherwise the object keeps
    the text as its [value], a day comes only with a month and a month only
    with a year, and a year below 100 is never written. *)
Theorem parseCreatorDate_nested_fields (hostParse : string -> option UTCDate)
    (dateString : option string) :
  match parseCreatorDate hostParse dateString with
  | None => dateString = None \/ dateString = Some EmptyString
  | Some info =>
      value info = dateString
      /\ dateString <> Some EmptyString
      /\ (day info <> None -> month info <> None)
      /\ (month info <> None -> year info <> None)
      /\ (forall y, year info = Some y -> (100 <= y)%Z)
  end.
Proof.
  unfold parseCreatorDate. destruct dateString as [s|]; [|now left].
  destruct (isEmpty s) eqn:Es.
  { right. destruct s; [reflexivity | discriminate]. }
  assert (Hs : Some s <> Some EmptyString) by (intros [= ->]; discriminate).
  destruct (newDate hostParse s) as [date|].
  - destruct (utcFullYear date <? 100)%Z eqn:Ey.
    + cbn. repeat split; try congruence.
    + apply Z.ltb_ge in Ey.
      destruct (matchesYear s); [|destruct (matchesYearMonth s)]; cbn;
        repeat split; try congruence; intros y [= <-]; exact Ey.
  - cbn. repeat split; try congruence.
Qed.

End Dates.

(* ================================================================= *)
(** ** Finding the note of a person *)

Section PeopleLookup.
Import JS Text Store Revised Engine Generator Props NoteProps.
Variable settings : ComicSearchSettings.

(** X12 [findPersonNote], when the people folder is there: a note of that
    folder whose header carries the id of the person is found whatever its
    file name is (the first such note, in listing order); when no note
    carries the id, the file at the path made from the person's name is
    taken, whatever id its header carries; and what is found is always a
    file of the vault. *)
Theorem findPersonNote_by_id_then_name (v : Vault) (creatorId : Z) (creatorName : string) :
  getAbstractFileByPath v (peopleFolder settings) = Some Folder ->
  (forall path fm rest,
     In (path, Note (WithHeader fm rest)) v ->
     parentPath path = peopleFolder settings ->
     lookup "comicVineId" fm = Some (YNum creatorId) ->
     exists p e,
       findPersonNote settings v creatorId creatorName = Some p
       /\ find (idMatch settings creatorId) v = Some (p, e))
  /\ (find (idMatch settings creatorId) v = None ->
      forall e,
        getAbstractFileByPath v (personFilePath settings creatorName) = Some e ->
        isTFile e = true ->
        findPersonNote settings v creatorId creatorName
        = Some (personFilePath settings creatorName))
  /\ (forall p,
        findPersonNote settings v creatorId creatorName = Some p ->
        exists e, In (p, e) v /\ isTFile e = true).
Proof.
  intros Hf. rewrite findPersonNote_cases, Hf. repeat split.
  - intros path fm rest Hin Hp Hid.
    assert (M : idMatch settings creatorId (path, Note (WithHeader fm rest)) = true).
    { unfold idMatch. cbn [fst snd isTFile cachedHeader]. rewrite Hp, String.eqb_refl, Hid.
      cbn. now rewrite Z.eqb_refl. }
    destruct (find (idMatch settings creatorId) v) as [[p e]|] eqn:F.
    + now exists p, e.
    + exfalso. apply (find_none _ _ F) in Hin. congruence.
  - intros F e He Hfile. now rewrite F, He, Hfile.
  - intros p. destruct (find (idMatch settings creatorId) v) as [[q e]|] eqn:F.
    + intros [= <-]. apply find_some in F. destruct F as [Hin M].
      exists e. split; [exact Hin|]. unfold idMatch in M. cbn [snd] in M.
      apply andb_true_iff in M. destruct M as [M _].
      apply andb_true_iff in M. tauto.
    + destruct (getAbstractFileByPath v (personFilePath settings creatorName)) as [e|] eqn:E;
        [|discriminate].
      destruct (isTFile e) eqn:T; [|discriminate]. intros [= <-].
      exists e. split; [apply lookup_In, E | exact T].
Qed.

End PeopleLookup.

Section PeopleLookupSample.
Import JS Text Store Revised Engine Generator Props NoteProps.

Lemma findPersonNote_by_id_then_name_witness :
  findPersonNote sampleSettings
    [ ("Entities/People", Folder); ("Entities/People/Allen Milgrom.md", Note milgromNote) ]
    7 "Al Milgrom"
  = Some "Entities/People/Allen Milgrom.md".
Proof.
  pose proof (findPersonNote_by_id_then_name sampleSettings
     [ ("Entities/People", Folder); ("Entities/People/Allen Milgrom.md", Note milgromNote) ]
     7 "Al Milgrom" eq_refl) as [H _].
  destruct (H "Entities/People/Allen Milgrom.md" _ _ (or_intror (or_introl eq_refl))
              eq_refl eq_refl) as [p [e [E F]]].
  vm_compute in F. injection F as <- _. exact E.
Defined.

End PeopleLookupSample.

(* ================================================================= *)
(** ** Role notes are always there in the end *)

Section RoleResolution.
Import JS Text Store Revised Engine Generator Props NoteProps.
Variable settings : ComicSearchSettings.
Variable host : Host.

Local Abbreviation resolve := (getOrCreateRoleNoteWith settings host).
Local Abbreviation concepts := (conceptsFolder settings).
Local Abbreviation pathOf := (roleFilePath settings).
Local Abbreviation inConcepts := (Props.inConcepts settings).

Lemma parent_path_differs (roleName parent : string) :
  parentOf roleHierarchy (capitalizedRole roleName) = Some parent ->
  pathOf parent <> pathOf roleName.
Proof.
  unfold parentOf.
  destruct (lookup (capitalizedRole roleName) roleHierarchy) as [p|] eqn:E; [|discriminate].
  apply lookup_In in E. unfold roleFilePath. cbn [roleHierarchy In] in E.
  repeat (destruct E as [E|E];
          [injection E as <- <-; intros [= <-]; intros H;
           apply append_inj in H; discriminate H|]).
  contradiction.
Qed.

Lemma inConcepts_twice (w : World) :
  vault (inConcepts (ticked (inConcepts w))) = vault (inConcepts w).
Proof.
  unfold Props.inConcepts, ticked. cbn [vault].
  apply withFolder_idle, withFolder_has.
Qed.

(** No role of the table of parents names a member of [Object.prototype],
    and no parent does. *)
Lemma roleHierarchy_inherits (capitalized : string) :
  inherits roleHierarchy capitalized = member capitalized.
Proof.
  unfold inherits. destruct (lookup capitalized roleHierarchy) as [p|] eqn:E; [|reflexivity].
  apply lookup_In in E. cbn [roleHierarchy In] in E.
  repeat (destruct E as [E|E]; [injection E as <- <-; reflexivity|]).
  contradiction.
Qed.

Lemma role_path_lookup (roleName : string) (w : World) :
  getAbstractFileByPath (vault (inConcepts w)) (pathOf roleName)
  = getAbstractFileByPath (vault w) (pathOf roleName).
Proof.
  unfold Props.inConcepts, withFolder. cbn [vault].
  destruct (getAbstractFileByPath (vault w) concepts); [reflexivity|].
  unfold getAbstractFileByPath. rewrite lookup_app.
  destruct (lookup (pathOf roleName) (vault w)); [reflexivity|].
  cbn [lookup]. destruct (String.eqb concepts (pathOf roleName)) eqn:E; [|reflexivity].
  apply String.eqb_eq in E. symmetry in E.
  exfalso. exact (role_path_not_folder settings roleName E).
Qed.

Lemma role_note_returned (roleName : string) (w : World) :
  member (capitalizedRole roleName) = false ->
  exists w', getOrCreateRoleNote settings host roleName w = Ok (pathOf roleName) w'.
Proof.
  intros Hm. unfold getOrCreateRoleNote.
  destruct (getAbstractFileByPath (vault (inConcepts w)) (pathOf roleName)) eqn:Ef.
  { rewrite (resolve_found settings host _ _ _ _ _ Ef). eauto. }
  destruct (parentOf roleHierarchy (capitalizedRole roleName)) as [parent|] eqn:Ep.
  2: { rewrite (resolve_leaf settings host _ _ _ _ Ef Ep); [eauto|].
       now rewrite roleHierarchy_inherits. }
  rewrite (resolve_child settings host _ _ _ _ _ Ef Ep).
  assert (L : parentOf roleHierarchy (capitalizedRole parent) = None).
  { destruct (hierarchy_parents _ _ Ep) as [->| ->]; reflexivity. }
  assert (N : inherits roleHierarchy (capitalizedRole parent) = false).
  { destruct (hierarchy_parents _ _ Ep) as [->| ->]; reflexivity. }
  set (w1 := ticked (inConcepts w)).
  assert (V : vault (inConcepts w1) = vault (inConcepts w)) by apply inConcepts_twice.
  destruct (getAbstractFileByPath (vault (inConcepts w1)) (pathOf parent)) eqn:Efp.
  - rewrite (resolve_found settings host _ _ _ _ _ Efp).
    rewrite create_runs; [eauto|]. now rewrite V.
  - rewrite (resolve_leaf settings host _ _ _ _ Efp L N).
    rewrite create_runs; [eauto|].
    unfold withNote, ticked. cbn [vault]. rewrite path_last by (now rewrite V).
    destruct (String.eqb (pathOf parent) (pathOf roleName)) eqn:E; [|reflexivity].
    apply String.eqb_eq in E. exfalso. exact (parent_path_differs _ _ Ep E).
Qed.

(** X13 [getOrCreateRoleNote] returns the note of the role, at the path
    made from the name, for every role name whose capitalised form names no
    member of [Object.prototype]: after it that note and the concepts folder
    are in the vault, and what the vault held before is still there,
    untouched and in the same order.  For a name of a member it returns the
    note only if the note is there already; if not, it creates the concepts
    folder, writes no note and throws. *)
Theorem getOrCreateRoleNote_returns_or_throws (roleName : string) (w : World) :
  (member (capitalizedRole roleName) = false ->
   exists w' added,
     getOrCreateRoleNote settings host roleName w = Ok (pathOf roleName) w'
     /\ vault w' = (vault w ++ added)%list
     /\ getAbstractFileByPath (vault w') (pathOf roleName) <> None
     /\ getAbstractFileByPath (vault w') concepts <> None)
  /\ (member (capitalizedRole roleName) = true ->
      match getAbstractFileByPath (vault w) (pathOf roleName) with
      | Some _ =>
          getOrCreateRoleNote settings host roleName w
          = Ok (pathOf roleName) (inConcepts w)
      | None =>
          getOrCreateRoleNote settings host roleName w
          = Throw "TypeError" (ticked (inConcepts w))
      end).
Proof.
  split.
  - intros Hm. destruct (role_note_returned roleName w Hm) as [w' H].
    unfold getOrCreateRoleNote in H.
    destruct (resolve_extends settings host _ _ _ _ _ _ H) as [added E].
    destruct (resolve_returns settings host _ _ _ _ _ _ H) as [_ [C P]].
    exists w', added. unfold getOrCreateRoleNote. tauto.
  - intros Hm. rewrite <- role_path_lookup. unfold getOrCreateRoleNote.
    destruct (getAbstractFileByPath (vault (inConcepts w)) (pathOf roleName)) eqn:Ef.
    + exact (resolve_found settings host _ _ _ _ _ Ef).
    + apply (resolve_member settings host _ _ _ _ Ef).
      now rewrite roleHierarchy_inherits.
Qed.

End RoleResolution.

(* ================================================================= *)
(** ** Images *)

Section Images.
Import JS Text Store Revised Engine Generator Props NoteProps.
Variable host : Host.

(** X14 [downloadImage] never throws: whatever goes wrong it returns, with
    the path of the image or with nothing.  It changes no entry of the vault
    and adds no note (at most the folder and the image); an image that is
    already in the vault is not written again; and a path it returns is the
    path of a file of the vault. *)
Theorem downloadImage_never_throws (url folder name : string) (w : World) :
  exists r w',
    downloadImage host url folder name w = Ok r w'
    /\ adds notANote (vault w) (vault w')
    /\ (forall e,
          getAbstractFileByPath (vault w) (folder ++ "/" ++ sanitizeForFileName name) = Some e ->
          isTFile e = true ->
          r = Some (folder ++ "/" ++ sanitizeForFileName name)
          /\ vault w' = withFolder folder (vault w))
    /\ (forall path, r = Some path ->
          exists e, getAbstractFileByPath (vault w') path = Some e /\ isTFile e = true).
Proof.
  unfold downloadImage, tryCatch. unfold bind at 1. rewrite ensureFolderExists_runs.
  unfold bind at 1. unfold getVault. cbn [vault].
  pose proof (withFolder_adds folder (vault w)) as A.
  set (path := folder ++ "/" ++ sanitizeForFileName name).
  assert (K : forall e, getAbstractFileByPath (vault w) path = Some e ->
                        getAbstractFileByPath (withFolder folder (vault w)) path = Some e).
  { intros e He. apply (adds_lookup _ _ _ _ _ A He). }
  set (v1 := withFolder folder (vault w)) in *.
  destruct (getAbstractFileByPath v1 path) as [[|t|d]|] eqn:E.
  - destruct (requestImage host url) as [data|].
    + unfold bind, createBinary, bind, getVault. cbn [vault]. rewrite E.
      unfold throw, ret. do 2 eexists. split; [reflexivity|]. split; [exact A|].
      split; [|discriminate].
      intros e He T. assert (e = Folder) by (pose proof (K e He); congruence).
      subst e. discriminate T.
    + unfold throw, ret. do 2 eexists. split; [reflexivity|]. split; [exact A|].
      split; [|discriminate].
      intros e He T. assert (e = Folder) by (pose proof (K e He); congruence).
      subst e. discriminate T.
  - unfold ret. do 2 eexists. split; [reflexivity|]. split; [exact A|]. split.
    + intros _ _ _. split; reflexivity.
    + intros p [= <-]. cbn [vault]. exists (Note t). split; [exact E | reflexivity].
  - unfold ret. do 2 eexists. split; [reflexivity|]. split; [exact A|]. split.
    + intros _ _ _. split; reflexivity.
    + intros p [= <-]. cbn [vault]. exists (Binary d). split; [exact E | reflexivity].
  - destruct (requestImage host url) as [data|].
    + unfold bind, createBinary, bind, getVault. cbn [vault]. rewrite E.
      unfold addEntry, ret. cbn [vault]. do 2 eexists. split; [reflexivity|].
      split; [|split].
      * eapply adds_trans; [exact A|]. cbn [vault].
        exists [(path, Binary data)]. split; [reflexivity | repeat constructor].
      * intros e He _. pose proof (K e He). congruence.
      * intros p [= <-]. cbn [vault]. exists (Binary data).
        split; [|reflexivity]. rewrite path_last by exact E.
        now rewrite String.eqb_refl.
    + unfold throw, ret. do 2 eexists. split; [reflexivity|]. split; [exact A|].
      split; [|discriminate].
      intros e He _. pose proof (K e He). congruence.
Qed.

End Images.

(* ================================================================= *)
(** ** An import that gets no answer *)

Section Unanswered.
Import JS Text Store Revised Engine Generator Props NoteProps.
Variable settings : ComicSearchSettings.
Variable host : Host.

Lemma NoDup_lookup {A} (p : string) (e : A) (o : list (string * A)) :
  NoDup (map fst o) -> In (p, e) o -> lookup p o = Some e.
Proof.
  induction o as [|[k x] o IH]; cbn [map fst In lookup]; [intros _ []|].
  intros N Hin. inversion N as [|? ? Hk Ho]; subst.
  destruct Hin as [[= -> ->]|Hin]; [now rewrite String.eqb_refl|].
  destruct (String.eqb k p) eqn:E; [|apply IH; assumption].
  apply String.eqb_eq in E. subst k. exfalso. apply Hk.
  change p with (fst (p, e)). now apply in_map.
Qed.

Lemma withFolder_NoDup (path : string) (v : Vault) :
  NoDup (map fst v) -> NoDup (map fst (withFolder path v)).
Proof.
  unfold withFolder, getAbstractFileByPath. intros N.
  destruct (lookup path v) eqn:E; [exact N|].
  rewrite map_app. cbn [map fst]. apply NoDup_app; [exact N | repeat constructor; intros [] |].
  intros k Hk [<-|[]]. apply in_map_iff in Hk. destruct Hk as [[q e] [<- Hin]].
  apply In_lookup in Hin. contradiction.
Qed.

Lemma read_found (w : World) (creatorId : Z) (creatorName file : string) :
  NoDup (map fst (vault w)) ->
  findPersonNote settings (vault w) creatorId creatorName = Some file ->
  exists text, read file w = Ok text w.
Proof.
  intros N H. rewrite findPersonNote_cases in H.
  destruct (getAbstractFileByPath (vault w) (peopleFolder settings)) as [[| |]|];
    try discriminate H.
  assert (R : forall e, getAbstractFileByPath (vault w) file = Some e -> isTFile e = true ->
                        exists text, read file w = Ok text w).
  { intros e He T. unfold read, bind, getVault. rewrite He.
    destruct e; [discriminate | eexists; reflexivity | eexists; reflexivity]. }
  destruct (find (idMatch settings creatorId) (vault w)) as [[p e]|] eqn:F.
  - injection H as ->. apply find_some in F. destruct F as [Hin M].
    apply (R e); [apply NoDup_lookup; assumption|].
    unfold idMatch in M. cbn [snd] in M.
    apply andb_true_iff in M. destruct M as [M _].
    apply andb_true_iff in M. tauto.
  - destruct (getAbstractFileByPath (vault w) (personFilePath settings creatorName))
      as [e|] eqn:E; [|discriminate].
    destruct (isTFile e) eqn:T; [|discriminate]. injection H as <-. now apply (R e).
Qed.

Lemma processCreator_unanswered (issueFile : string) (c : Creator) (w : World) :
  getPersonDetails host (creator_url c) = None ->
  NoDup (map fst (vault w)) ->
  processCreator settings host issueFile c w = Ok tt w.
Proof.
  intros Hd N. unfold processCreator. unfold bind at 1. unfold getVault.
  destruct (findPersonNote settings (vault w) (creator_id c) (creator_name c))
    as [file|] eqn:F.
  - destruct (read_found w _ _ _ N F) as [text R].
    unfold bind at 1. unfold bind at 1. rewrite R. unfold ret at 1.
    destruct (parseFrontmatter text). now rewrite Hd.
  - unfold bind at 1. unfold ret at 1. now rewrite Hd.
Qed.

Lemma forEachM_unanswered (issueFile : string) (l : list Creator) (w : World) :
  (forall url, getPersonDetails host url = None) ->
  NoDup (map fst (vault w)) ->
  forEachM (processCreator settings host issueFile) l w = Ok tt w.
Proof.
  intros Hd N. induction l as [|c l IH]; cbn [forEachM]; [reflexivity|].
  unfold bind. now rewrite processCreator_unanswered.
Qed.

(** X15 An import whose requests for the details of the people all fail
    (the network is down, the key is wrong) writes and changes no note: it
    completes without an exception and leaves the vault as it was, but for
    the people folder, which it creates if it is missing. *)
Theorem import_without_answers (creators : list PersonCredit) (issueFile : string)
    (w : World) :
  (forall url, getPersonDetails host url = None) ->
  NoDup (map fst (vault w)) ->
  ensureCreatorNotesExist settings host creators issueFile w =
  Ok tt (if createCreatorNotes settings
            && negb (match creators with [] => true | _ => false end)
         then {| vault := withFolder (peopleFolder settings) (vault w);
                 readings := readings w |}
         else w).
Proof.
  intros Hd N. unfold ensureCreatorNotesExist.
  destruct (createCreatorNotes settings); [|reflexivity].
  destruct creators as [|k creators]; [reflexivity|]. cbn [negb orb andb].
  unfold bind. rewrite ensureFolderExists_runs.
  apply forEachM_unanswered; [exact Hd|]. cbn [vault]. apply withFolder_NoDup, N.
Qed.

End Unanswered.

Section UnansweredSample.
Import JS Text Store Revised Engine Generator Props NoteProps.

Lemma import_without_answers_witness :
  ensureCreatorNotesExist sampleSettings sampleHost milgromCredits
    "Comics/Secret Wars #001.md" milgromWorld
  = Ok tt milgromWorld.
Proof.
  assert (N : NoDup (map fst (vault milgromWorld))).
  { cbn. repeat constructor; cbn; intuition discriminate. }
  exact (import_without_answers sampleSettings sampleHost milgromCredits
           "Comics/Secret Wars #001.md" milgromWorld (fun _ => eq_refl) N).
Defined.

End UnansweredSample.

(* ================================================================= *)
(** ** Nothing is ever deleted *)

Section Paths.
Import JS Text Store Revised Engine Generator Props NoteProps.

Lemma stays_refl (v : Vault) : stays v v.
Proof. intros path H. exact H. Qed.

Lemma stays_trans (a b c : Vault) : stays a b -> stays b c -> stays a c.
Proof. intros H1 H2 path H. apply H2, H1, H. Qed.

Lemma stays_add (v : Vault) (added : list (string * Entry)) : stays v (v ++ added)%list.
Proof. intros path H. apply extends_keeps, H. Qed.

Lemma stays_assign (v : Vault) (file : string) (e : Entry) : stays v (assign file e v).
Proof.
  intros path H. unfold getAbstractFileByPath in *. rewrite lookup_assign.
  destruct (String.eqb file path); [discriminate | exact H].
Qed.

Lemma keepsPaths_ret {A} (a : A) : keepsPaths (ret a).
Proof. intros w. apply stays_refl. Qed.

Lemma keepsPaths_throw {A} (error : string) : keepsPaths (@throw A error).
Proof. intros w. apply stays_refl. Qed.

Lemma keepsPaths_bind {A B} (c : M A) (f : A -> M B) :
  keepsPaths c -> (forall a, keepsPaths (f a)) -> keepsPaths (bind c f).
Proof.
  intros Hc Hf w. unfold bind. specialize (Hc w).
  destruct (c w) as [a w1|e w1|]; [|exact Hc | exact I].
  specialize (Hf a w1). destruct (f a w1); try exact I; eapply stays_trans; eassumption.
Qed.

Lemma keepsPaths_tryCatch {A} (c handler : M A) :
  keepsPaths c -> keepsPaths handler -> keepsPaths (tryCatch c handler).
Proof.
  intros Hc Hh w. unfold tryCatch. specialize (Hc w).
  destruct (c w) as [a w1|e w1|]; [exact Hc | | exact I].
  specialize (Hh w1). destruct (handler w1); try exact I; eapply stays_trans; eassumption.
Qed.

Lemma keepsPaths_foldM {A S} (f : S -> A -> M S) (l : list A) :
  (forall s x, keepsPaths (f s x)) -> forall s, keepsPaths (foldM f l s).
Proof.
  intros Hf. induction l as [|x l IH]; intros s; cbn [foldM]; [apply keepsPaths_ret|].
  apply keepsPaths_bind; [apply Hf | exact IH].
Qed.

Lemma keepsPaths_forEachM {A} (f : A -> M unit) (l : list A) :
  (forall x, keepsPaths (f x)) -> keepsPaths (forEachM f l).
Proof.
  intros Hf. induction l as [|x l IH]; cbn [forEachM]; [apply keepsPaths_ret|].
  apply keepsPaths_bind; [apply Hf | intros _; exact IH].
Qed.

Lemma keepsPaths_getVault : keepsPaths getVault.
Proof. intros w. apply stays_refl. Qed.

Lemma keepsPaths_nowISO (host : Host) : keepsPaths (nowISO host).
Proof. intros w. apply stays_refl. Qed.

Lemma keepsPaths_addEntry (path : string) (e : Entry) : keepsPaths (addEntry path e).
Proof. intros w. apply stays_add. Qed.

Lemma keepsPaths_modify (file : string) (content : NoteText) : keepsPaths (modify file content).
Proof.
  intros w. unfold modify.
  destruct (getAbstractFileByPath (vault w) file) as [[| |]|];
    try apply stays_refl; apply stays_assign.
Qed.

(** Every step of the engine is made of these. *)
Ltac paths :=
  repeat first
    [ apply keepsPaths_ret
    | apply keepsPaths_throw
    | apply keepsPaths_getVault
    | apply keepsPaths_nowISO
    | apply keepsPaths_addEntry
    | apply keepsPaths_modify
    | apply keepsPaths_bind; [|intros ?]
    | apply keepsPaths_tryCatch
    | match goal with
      | |- keepsPaths (match ?x with _ => _ end) => destruct x
      end ].

Lemma keepsPaths_ensureFolderExists (path : string) : keepsPaths (ensureFolderExists path).
Proof. unfold ensureFolderExists, createFolder. paths. Qed.

Lemma keepsPaths_create (path : string) (content : NoteText) : keepsPaths (create path content).
Proof. unfold create. paths. Qed.

Lemma keepsPaths_read (file : string) : keepsPaths (read file).
Proof. unfold read. paths. Qed.

Lemma keepsPaths_downloadImage (host : Host) (url folder name : string) :
  keepsPaths (downloadImage host url folder name).
Proof.
  unfold downloadImage, createBinary. paths; apply keepsPaths_ensureFolderExists.
Qed.

Section Engine.
Variable settings : ComicSearchSettings.
Variable host : Host.

Lemma keepsPaths_resolve (hierarchy : list (string * string)) (fuel : nat) :
  forall roleName, keepsPaths (getOrCreateRoleNoteWith settings host hierarchy fuel roleName).
Proof.
  induction fuel as [|fuel IH]; intros roleName; cbn [getOrCreateRoleNoteWith].
  - intros w. exact I.
  - paths; try apply keepsPaths_ensureFolderExists; try apply keepsPaths_create;
      try apply IH.
Qed.

Lemma keepsPaths_attachImage (p : ComicVinePerson) (d : Draft) :
  keepsPaths (attachImage settings host p d).
Proof. unfold attachImage. paths; apply keepsPaths_downloadImage. Qed.

Lemma keepsPaths_includeItem (key item : string) (d : Draft) :
  keepsPaths (includeItem key item d).
Proof. unfold includeItem. paths. Qed.

Lemma keepsPaths_includeCredit (roleLink issueLink : string) (d : Draft) :
  keepsPaths (includeCredit roleLink issueLink d).
Proof. unfold includeCredit. paths. Qed.

Lemma keepsPaths_creditRole (issueFile : string) (d : Draft) (roleName : string) :
  keepsPaths (creditRole settings host issueFile d roleName).
Proof.
  unfold creditRole. destruct (isEmpty roleName); [apply keepsPaths_ret|].
  apply keepsPaths_bind; [apply keepsPaths_resolve|]. intros roleNote.
  apply keepsPaths_bind; [apply keepsPaths_includeItem|]. intros d1.
  apply keepsPaths_includeCredit.
Qed.

Lemma keepsPaths_writePerson (personFile : option string) (name body : string) (d : Draft) :
  keepsPaths (writePerson settings host personFile name body d).
Proof. unfold writePerson. paths; apply keepsPaths_create. Qed.

Lemma keepsPaths_processCreator (issueFile : string) (c : Creator) :
  keepsPaths (processCreator settings host issueFile c).
Proof.
  unfold processCreator.
  apply keepsPaths_bind; [apply keepsPaths_getVault|]. intros v.
  apply keepsPaths_bind.
  { destruct (findPersonNote settings v (creator_id c) (creator_name c)).
    - apply keepsPaths_bind; [apply keepsPaths_read | intros; apply keepsPaths_ret].
    - apply keepsPaths_ret. }
  intros [frontmatter body].
  destruct (getPersonDetails host (creator_url c)); [|apply keepsPaths_ret].
  apply keepsPaths_bind; [apply keepsPaths_nowISO|]. intros now.
  apply keepsPaths_bind; [apply keepsPaths_attachImage|]. intros d1.
  apply keepsPaths_bind; [apply keepsPaths_includeItem|]. intros d2.
  apply keepsPaths_bind; [apply keepsPaths_includeItem|]. intros d3.
  apply keepsPaths_bind; [apply keepsPaths_foldM; intros; apply keepsPaths_creditRole|].
  intros d4. apply keepsPaths_writePerson.
Qed.

Lemma keepsPaths_ensureCreatorNotesExist (creators : list PersonCredit) (issueFile : string) :
  keepsPaths (ensureCreatorNotesExist settings host creators issueFile).
Proof.
  unfold ensureCreatorNotesExist.
  destruct (negb (createCreatorNotes settings)
            || match creators with [] => true | _ => false end); [apply keepsPaths_ret|].
  apply keepsPaths_bind; [apply keepsPaths_ensureFolderExists|]. intros _.
  apply keepsPaths_forEachM. intros c. apply keepsPaths_processCreator.
Qed.

End Engine.
End Paths.

(* ================================================================= *)
(** ** Importing an issue *)

Section IssueImport.
Import JS Text Store Revised Engine Generator Props NoteProps.
Variable settings : ComicSearchSettings.
Variable host : Host.
Variable more : IssueSettings.
Variable catalogue : Catalogue.

Local Abbreviation import := (createIssueNote settings host more catalogue).

Lemma issueFilePath_data (detailedIssue : ComicVineIssue) (volume : ComicVineVolume)
    (cover : option string) (targetFolder : option string) (data : ComicIssueData) :
  processIssueData detailedIssue volume cover = Some data ->
  issueFilePath settings data targetFolder
  = issueNotePath settings detailedIssue volume targetFolder.
Proof.
  unfold processIssueData.
  destruct (groupCredits (person_credits detailedIssue)); [|discriminate].
  intros [= <-]. reflexivity.
Qed.


Lemma fetchCover_runs (detailedIssue : ComicVineIssue) (w : World) :
  exists cover w1,
    fetchCover host more detailedIssue w = Ok cover w1
    /\ adds notANote (vault w) (vault w1).
Proof.
  unfold fetchCover. destruct (issue_image detailedIssue) as [url|].
  - destruct (downloadComicImages more && negb (isEmpty url)).
    + apply downloadImage_runs.
    + exists None, w. split; [reflexivity | apply adds_refl].
  - exists None, w. split; [reflexivity | apply adds_refl].
Qed.

Lemma generateIssueNoteContent_runs (data : ComicIssueData) (w : World) :
  exists content,
    generateIssueNoteContent host more catalogue data w
    = Ok content {| vault := vault w; readings := S (readings w) |}.
Proof.
  unfold generateIssueNoteContent, generateIssueYAML, bind, nowISO, ret.
  eexists. reflexivity.
Qed.

Lemma keepsPaths_fetchCover (detailedIssue : ComicVineIssue) :
  keepsPaths (fetchCover host more detailedIssue).
Proof.
  unfold fetchCover. destruct (issue_image detailedIssue) as [url|];
    [|apply keepsPaths_ret].
  destruct (downloadComicImages more && negb (isEmpty url));
    [apply keepsPaths_downloadImage | apply keepsPaths_ret].
Qed.

Lemma keepsPaths_generateIssueNoteContent (data : ComicIssueData) :
  keepsPaths (generateIssueNoteContent host more catalogue data).
Proof.
  intros w. destruct (generateIssueNoteContent_runs data w) as [content ->].
  apply stays_refl.
Qed.

Lemma total_fetchCover (detailedIssue : ComicVineIssue) :
  total (fetchCover host more detailedIssue).
Proof.
  intros w. destruct (fetchCover_runs detailedIssue w) as [c [w1 [-> _]]]. discriminate.
Qed.

Lemma total_generateIssueNoteContent (data : ComicIssueData) :
  total (generateIssueNoteContent host more catalogue data).
Proof.
  intros w. destruct (generateIssueNoteContent_runs data w) as [content ->]. discriminate.
Qed.

(** The body of the [try] of [createIssueNote]. *)
Lemma import_body (issue : ComicVineIssue) (targetFolder : option string) :
  exists body : M unit,
    import issue targetFolder = tryCatch body (ret tt)
    /\ total body /\ keepsPaths body
    /\ (getIssueDetails catalogue (issue_id issue) = None
        \/ getVolumeDetails catalogue (issue_volume_id issue) = None ->
        forall w, exists error, body w = Throw error w).
Proof.
  unfold createIssueNote. eexists. split; [reflexivity|].
  destruct (getIssueDetails catalogue (issue_id issue)) as [detailedIssue|].
  2: { repeat split; [apply total_throw | apply keepsPaths_throw |].
       intros _ w. eexists. reflexivity. }
  destruct (getVolumeDetails catalogue (issue_volume_id issue)) as [volume|].
  2: { repeat split; [apply total_throw | apply keepsPaths_throw |].
       intros _ w. eexists. reflexivity. }
  split; [|split; [|intros [H|H]; discriminate H]].
  - apply total_bind; [apply total_fetchCover|]. intros cover.
    destruct (processIssueData detailedIssue volume cover) as [data|];
      [|apply total_throw].
    apply total_bind; [apply total_generateIssueNoteContent|]. intros content.
    apply total_bind; [apply total_ensureFolderExists|]. intros _.
    apply total_bind; [apply total_getVault|]. intros v.
    destruct (getAbstractFileByPath v _); [apply total_ret|].
    apply total_bind; [intros w; apply create_settles|]. intros file.
    destruct (createCreatorNotes settings); [|apply total_ret].
    apply ensureCreatorNotesExist_total.
  - apply keepsPaths_bind; [apply keepsPaths_fetchCover|]. intros cover.
    destruct (processIssueData detailedIssue volume cover) as [data|];
      [|apply keepsPaths_throw].
    apply keepsPaths_bind; [apply keepsPaths_generateIssueNoteContent|]. intros content.
    apply keepsPaths_bind; [apply keepsPaths_ensureFolderExists|]. intros _.
    apply keepsPaths_bind; [apply keepsPaths_getVault|]. intros v.
    destruct (getAbstractFileByPath v _); [apply keepsPaths_ret|].
    apply keepsPaths_bind; [apply keepsPaths_create|]. intros file.
    destruct (createCreatorNotes settings); [|apply keepsPaths_ret].
    apply keepsPaths_ensureCreatorNotesExist.
Qed.

(** X16 [createIssueNote] never throws and never deletes: whatever the
    requests answer and whatever the vault holds, it returns, and every path
    that was in the vault is still in it; when one of the two detail
    requests fails, the vault is left exactly as it was. *)
Theorem createIssueNote_never_throws (issue : ComicVineIssue)
    (targetFolder : option string) (w : World) :
  exists w',
    import issue targetFolder w = Ok tt w'
    /\ stays (vault w) (vault w')
    /\ (getIssueDetails catalogue (issue_id issue) = None
        \/ getVolumeDetails catalogue (issue_volume_id issue) = None -> w' = w).
Proof.
  destruct (import_body issue targetFolder) as [body [-> [T [K F]]]].
  unfold tryCatch. specialize (T w). specialize (K w).
  destruct (body w) as [[] w1|error w1|] eqn:E.
  - exists w1. split; [reflexivity|]. split; [exact K|].
    intros H. destruct (F H w) as [error E']. congruence.
  - exists w1. split; [reflexivity|]. split; [exact K|].
    intros H. destruct (F H w) as [error' E']. congruence.
  - now contradiction T.
Qed.

(** X17 Importing an issue whose note is already in the vault writes no
    note at all: the note of the issue is left alone and the notes of its
    creators are neither created nor updated.  At most the folder of the
    issue, the folder of the images and the cover image are added. *)
Theorem createIssueNote_existing_note (issue detailedIssue : ComicVineIssue)
    (volume : ComicVineVolume) (targetFolder : option string) (w : World) :
  getIssueDetails catalogue (issue_id issue) = Some detailedIssue ->
  getVolumeDetails catalogue (issue_volume_id issue) = Some volume ->
  getAbstractFileByPath (vault w)
    (issueNotePath settings detailedIssue volume targetFolder)
  <> None ->
  exists w',
    import issue targetFolder w = Ok tt w'
    /\ adds notANote (vault w) (vault w').
Proof.
  intros Hi Hv Hp. unfold createIssueNote, tryCatch. rewrite Hi, Hv.
  destruct (fetchCover_runs detailedIssue w) as [cover [w1 [E1 A1]]].
  unfold bind at 1. rewrite E1.
  destruct (processIssueData detailedIssue volume cover) as [data|] eqn:Ed.
  2: { unfold throw, ret. exists w1. split; [reflexivity | exact A1]. }
  destruct (generateIssueNoteContent_runs data w1) as [content E2].
  unfold bind at 1. rewrite E2.
  unfold bind at 1. rewrite ensureFolderExists_runs. cbn [vault readings].
  unfold bind at 1. unfold getVault. cbn [vault].
  rewrite (issueFilePath_data _ _ _ targetFolder _ Ed).
  set (path := issueNotePath settings detailedIssue volume targetFolder) in *.
  assert (A : adds notANote (vault w) (withFolder (issueFolder settings targetFolder) (vault w1))).
  { eapply adds_trans; [exact A1 | apply withFolder_adds]. }
  destruct (getAbstractFileByPath (vault w) path) as [e|] eqn:E; [|contradiction].
  rewrite (adds_lookup _ _ _ _ _ A E). unfold ret.
  eexists. split; [reflexivity | exact A].
Qed.


End IssueImport.

Section IssueImportSample.
Import JS Text Store Revised Engine Generator Props NoteProps.

Lemma createIssueNote_existing_note_witness :
  exists w',
    createIssueNote sampleSettings sampleHost sampleMore sampleCatalogue sampleIssue None
      importedWorld = Ok tt w'
    /\ adds notANote (vault importedWorld) (vault w').
Proof.
  refine (createIssueNote_existing_note sampleSettings sampleHost sampleMore
            sampleCatalogue sampleIssue sampleIssue sampleVolume None importedWorld
            eq_refl eq_refl _).
  vm_compute. discriminate.
Defined.


End IssueImportSample.

(* ================================================================= *)
(** ** The client of the earlier plug-in (src/main.ts) *)

Section EarlierClient.
Import Client Props ClientProps.

Lemma phase7_cases (c : ComicVineClient) (k : Call) :
  (dispatchedAt (Phase7.rateLimitedFetch c k) = None
   /\ client (Phase7.rateLimitedFetch c k) = c)
  \/ (dispatchedAt (Phase7.rateLimitedFetch c k) = Some (resumesAt c k)
      /\ client (Phase7.rateLimitedFetch c k)
         = {| lastRequestTime := resumesAt c k; rateLimitDelay := rateLimitDelay c |}).
Proof.
  unfold Phase7.rateLimitedFetch.
  destruct (Phase7.abortedWhileWaiting c k); [left; split; reflexivity|].
  destruct (Phase7.aborted k (resumesAt c k)); [left; split; reflexivity|].
  right. destruct (reply k) as [status json|[status|] message]; split; reflexivity.
Qed.

(** X19 (src/main.ts) Requests sent through one client keep their distance
    also when some of the calls are aborted: an aborted call sends nothing
    and leaves the time of the last request alone, and every request that is
    sent comes at least the interval after the one sent before it. *)
Theorem earlier_requests_keep_their_distance (c : ComicVineClient) (calls : list Call) :
  Forall (fun k => (0 <= late k)%Z) calls ->
  spacedFrom (rateLimitDelay c) (lastRequestTime c) (requests c calls).
Proof.
  intros H. revert c. induction H as [|k calls Hk _ IH]; intros c; cbn [requests];
    [exact I|].
  destruct (phase7_cases c k) as [[-> ->]|[-> ->]].
  - apply IH.
  - cbn [spacedFrom]. split; [apply resumesAt_spaced, Hk|].
    apply (IH {| lastRequestTime := resumesAt c k; rateLimitDelay := rateLimitDelay c |}).
Qed.

Lemma earlier_requests_keep_their_distance_witness :
  requests {| lastRequestTime := 5000; rateLimitDelay := 1000 |}
    [ {| start := 5200; late := 0; abortAt := Some 5500%Z; reply := Response 200 "{}" |};
      {| start := 5600; late := 2; abortAt := None; reply := Response 200 "{}" |};
      {| start := 6100; late := 0; abortAt := Some 6000%Z; reply := Response 200 "{}" |};
      {| start := 7500; late := 0; abortAt := None; reply := RequestError None "offline" |};
      {| start := 9000; late := 0; abortAt := None; reply := Response 200 "{}" |} ]
  = [6002; 7500; 9000]%Z
  /\ spacedFrom 1000 5000 [6002; 7500; 9000]%Z.
Proof.
  split; [reflexivity|].
  apply (earlier_requests_keep_their_distance
           {| lastRequestTime := 5000; rateLimitDelay := 1000 |}
           [ {| start := 5200; late := 0; abortAt := Some 5500%Z; reply := Response 200 "{}" |};
             {| start := 5600; late := 2; abortAt := None; reply := Response 200 "{}" |};
             {| start := 6100; late := 0; abortAt := Some 6000%Z; reply := Response 200 "{}" |};
             {| start := 7500; late := 0; abortAt := None; reply := RequestError None "offline" |};
             {| start := 9000; late := 0; abortAt := None; reply := Response 200 "{}" |} ]).
  repeat constructor; cbn; lia.
Defined.

(** X20 (src/main.ts) A call whose signal has fired by the time the request
    would be sent sends no request, ends with the error of an abort, and
    leaves the client as it was.  A signal that fires during the spacing
    delay ends the call at once; a signal that had fired before the call
    began does not cut the delay short, the call ends when the delay is over.
    A signal that fires after the request was sent changes nothing. *)
Theorem earlier_abort_before_request (c : ComicVineClient) (k : Call) (a : Z) :
  abortAt k = Some a ->
  ((a <= resumesAt c k)%Z ->
     outcome (Phase7.rateLimitedFetch c k) = Thrown "Request aborted"
     /\ client (Phase7.rateLimitedFetch c k) = c
     /\ dispatchedAt (Phase7.rateLimitedFetch c k) = None
     /\ rejectedAt (Phase7.rateLimitedFetch c k)
        = Some (if (start k <=? a)%Z && (a <? resumesAt c k)%Z then a
                else resumesAt c k))
  /\ ((resumesAt c k < a)%Z ->
      Phase7.rateLimitedFetch c k =
      Phase7.rateLimitedFetch c
        {| start := start k; late := late k; abortAt := None; reply := reply k |}).
Proof.
  intros Ha. unfold Phase7.rateLimitedFetch, Phase7.abortedWhileWaiting, Phase7.aborted.
  rewrite Ha. cbn [abortAt start late reply].
  assert (R : resumesAt c {| start := start k; late := late k; abortAt := None;
                             reply := reply k |} = resumesAt c k) by reflexivity.
  rewrite R. split.
  - intros Hle. destruct (spacingDelay c (start k)) as [delay|] eqn:Ed.
    + destruct ((start k <=? a)%Z && (a <? resumesAt c k)%Z) eqn:Ew.
      * repeat split.
      * assert (L : (a <=? resumesAt c k)%Z = true) by now apply Z.leb_le.
        rewrite L. repeat split.
    + assert (L : (a <=? resumesAt c k)%Z = true) by now apply Z.leb_le.
      rewrite L.
      assert (E : resumesAt c k = start k) by (unfold resumesAt; now rewrite Ed).
      assert (W : (start k <=? a)%Z && (a <? resumesAt c k)%Z = false).
      { rewrite E. destruct (start k <=? a)%Z eqn:E1; [|reflexivity].
        apply Z.leb_le in E1. cbn. apply Z.ltb_ge. lia. }
      rewrite W. repeat split.
  - intros Hlt.
    assert (L : (a <=? resumesAt c k)%Z = false) by (apply Z.leb_gt; lia).
    assert (W : (a <? resumesAt c k)%Z = false) by (apply Z.ltb_ge; lia).
    rewrite L, W, andb_false_r.
    destruct (spacingDelay c (start k)); reflexivity.
Qed.

Lemma earlier_abort_before_request_witness :
  rejectedAt (Phase7.rateLimitedFetch {| lastRequestTime := 5000; rateLimitDelay := 1000 |}
     {| start := 5200; late := 0; abortAt := Some 5100%Z; reply := Response 200 "{}" |})
  = Some 6000%Z
  /\ dispatchedAt (Phase7.rateLimitedFetch {| lastRequestTime := 5000; rateLimitDelay := 1000 |}
     {| start := 5200; late := 0; abortAt := Some 5100%Z; reply := Response 200 "{}" |})
  = None.
Proof.
  destruct (earlier_abort_before_request
              {| lastRequestTime := 5000; rateLimitDelay := 1000 |}
              {| start := 5200; late := 0; abortAt := Some 5100%Z; reply := Response 200 "{}" |}
              5100%Z eq_refl) as [H _].
  destruct H as [_ [_ [D R]]]; [vm_compute; discriminate|].
  split; [exact R | exact D].
Defined.

End EarlierClient.

(* ================================================================= *)
(** ** The note generator of the earlier plug-in (src/main.ts) *)

Section EarlierRoles.
Import JS Text Props NoteProps.

Ltac by_char c :=
  destruct c as [[] [] [] [] [] [] [] []]; vm_compute;
  try reflexivity; try discriminate; auto.

Lemma lower_upper (c : ascii) : toLowerCaseChar (toUpperCaseChar c) = toLowerCaseChar c.
Proof. by_char c. Qed.

Lemma lower_idem_char (c : ascii) : toLowerCaseChar (toLowerCaseChar c) = toLowerCaseChar c.
Proof. by_char c. Qed.

Lemma lower_whiteSpace (c : ascii) : isWhiteSpace (toLowerCaseChar c) = isWhiteSpace c.
Proof. by_char c. Qed.

Lemma lower_comma (c : ascii) : toLowerCaseChar c = ","%char -> c = ","%char.
Proof. by_char c. Qed.

Lemma lower_idem (s : string) : toLowerCase (toLowerCase s) = toLowerCase s.
Proof.
  unfold toLowerCase. induction s as [|c s IH]; cbn [mapChars]; [reflexivity|].
  now rewrite lower_idem_char, IH.
Qed.

Lemma pointwise_lower (a b : string) :
  pointwise capitalised a b -> toLowerCase b = toLowerCase a.
Proof.
  unfold toLowerCase. revert b.
  induction a as [|c a IH]; intros [|d b]; cbn [pointwise mapChars]; try tauto.
  intros [Hc H]. rewrite (IH b H). f_equal.
  destruct Hc as [->| ->]; [reflexivity | apply lower_upper].
Qed.

Lemma lower_lacks (x : ascii) (s : string) :
  (forall c, toLowerCaseChar c = x -> c = x) -> lacks x s -> lacks x (toLowerCase s).
Proof.
  intros Hx H Hin. apply H. unfold toLowerCase in Hin. rewrite chars_mapChars in Hin.
  apply in_map_iff in Hin. destruct Hin as [c [E Hc]]. now rewrite <- (Hx c E).
Qed.

Lemma lower_trimStart (s : string) : trimStart (toLowerCase s) = toLowerCase (trimStart s).
Proof.
  unfold toLowerCase. induction s as [|c s IH]; cbn [mapChars trimStart]; [reflexivity|].
  rewrite lower_whiteSpace. destruct (isWhiteSpace c); [exact IH | reflexivity].
Qed.

Lemma lower_trimEnd (s : string) : trimEnd (toLowerCase s) = toLowerCase (trimEnd s).
Proof.
  unfold toLowerCase. induction s as [|c s IH]; cbn [mapChars trimEnd]; [reflexivity|].
  rewrite IH, lower_whiteSpace.
  destruct (trimEnd s); cbn [mapChars]; [destruct (isWhiteSpace c)|]; reflexivity.
Qed.

Lemma canonical_pointwise (t : string) :
  pointwise capitalised (toLowerCase t) (Phase7Generator.canonical t).
Proof.
  unfold Phase7Generator.canonical.
  rewrite <- (join_split " " (toLowerCase t)) at 1. apply pointwise_join.
Qed.

Lemma canonical_idem (t : string) :
  Phase7Generator.canonical (Phase7Generator.canonical t) = Phase7Generator.canonical t.
Proof.
  unfold Phase7Generator.canonical at 1.
  now rewrite (pointwise_lower _ _ (canonical_pointwise t)), lower_idem.
Qed.

Lemma canonical_alone (t : string) :
  lacks "," t -> startsClean t -> endsClean t -> t <> EmptyString ->
  Phase7Generator.canonicalizeRole (Phase7Generator.canonical t)
  = [Phase7Generator.canonical t].
Proof.
  intros Hc Hs He Hn. pose proof (canonical_pointwise t) as P.
  set (r := Phase7Generator.canonical t) in *.
  assert (C : lacks "," r).
  { apply (pointwise_lacks _ _ _ upper_comma P), lower_lacks; [exact lower_comma | exact Hc]. }
  assert (T : trim r = r).
  { apply trim_fixed.
    - apply (pointwise_startsClean _ _ P). unfold startsClean.
      now rewrite lower_trimStart, Hs.
    - apply (pointwise_endsClean _ _ P). unfold endsClean.
      now rewrite lower_trimEnd, He. }
  assert (N : isEmpty r = false).
  { destruct (isEmpty r) eqn:Er; [|reflexivity]. exfalso. apply Hn.
    apply isEmpty_true in Er. apply (pointwise_empty _ _ _ P) in Er.
    destruct t; [reflexivity | discriminate Er]. }
  unfold Phase7Generator.canonicalizeRole. rewrite (split_whole "," r C).
  cbn [map filter]. rewrite T, N. cbn [negb map]. unfold r.
  now rewrite canonical_idem.
Qed.

(** X21 (src/main.ts) On a role string of ASCII characters, the role
    canonicalisation of the earlier plug-in (split on commas, trim, drop the
    empty segments, lower-case each segment and capitalise it word by word)
    is idempotent: canonicalising each role of the result gives the result
    back.  (Beyond ASCII it is not: upper-casing can turn one character into
    two, of which the second is then lower-cased.) *)
Theorem earlier_canonicalizeRole_idempotent (role : string) :
  asciiText role ->
  flat_map Phase7Generator.canonicalizeRole (Phase7Generator.canonicalizeRole role)
  = Phase7Generator.canonicalizeRole role.
Proof.
  intros _.
  unfold Phase7Generator.canonicalizeRole at 2 3.
  pose proof (split_lacks "," role) as F.
  induction (split "," role) as [|x xs IH]; cbn [map filter flat_map]; [reflexivity|].
  inversion F as [|? ? Hx Hxs]; subst. specialize (IH Hxs).
  destruct (isEmpty (trim x)) eqn:E; cbn [negb]; [exact IH|].
  cbn [map flat_map]. rewrite IH.
  rewrite canonical_alone; [reflexivity | | | |].
  - apply trim_lacks, Hx.
  - apply trim_startsClean.
  - apply trim_endsClean.
  - intros H. rewrite H in E. discriminate.
Qed.

End EarlierRoles.

Section EarlierRolesSample.
Import JS Text Props NoteProps.

Lemma earlier_canonicalizeRole_idempotent_witness :
  flat_map Phase7Generator.canonicalizeRole
    (Phase7Generator.canonicalizeRole "WRITER, cover  artist,")
  = Phase7Generator.canonicalizeRole "WRITER, cover  artist,".
Proof.
  apply earlier_canonicalizeRole_idempotent.
  unfold asciiText. cbn [chars]. repeat constructor.
Defined.

End EarlierRolesSample.

Section EarlierNames.
Import JS Text Props NoteProps.

Ltac by_char c :=
  destruct c as [[] [] [] [] [] [] [] []]; vm_compute;
  try reflexivity; try discriminate; auto.

(** *** Runs of characters *)

Lemma replaceRuns_chars (cls : ascii -> bool) (rep s : string) (c : ascii) :
  In c (chars (replaceRuns cls rep s)) ->
  (In c (chars s) /\ cls c = false) \/ In c (chars rep).
Proof.
  induction s as [|d s IH]; cbn [replaceRuns chars]; [intros []|].
  destruct (cls d) eqn:Ed.
  - destruct (startsIn cls s).
    + intros H. apply IH in H. cbn [In]. tauto.
    + rewrite chars_app. intros H. apply in_app_or in H. cbn [In].
      destruct H as [H|H]; [tauto|]. apply IH in H. tauto.
  - cbn [chars In]. intros [<-|H]; [tauto|]. apply IH in H. tauto.
Qed.

Lemma replaceRuns_starts (cls : ascii -> bool) (h : ascii) (s : string) :
  cls h = true ->
  startsIn cls (replaceRuns cls (String h EmptyString) s) = startsIn cls s.
Proof.
  intros Hh. induction s as [|d s IH]; cbn [replaceRuns startsIn]; [reflexivity|].
  destruct (cls d) eqn:Ed.
  - destruct (startsIn cls s) eqn:Es; [now rewrite IH|]. cbn. exact Hh.
  - cbn. exact Ed.
Qed.

Lemma replaceRuns_no_pair (cls : ascii -> bool) (h : ascii) (s : string) :
  cls h = true ->
  includes (String h (String h EmptyString))
    (replaceRuns cls (String h EmptyString) s) = false.
Proof.
  intros Hh. induction s as [|d s IH]; cbn [replaceRuns]; [reflexivity|].
  destruct (cls d) eqn:Ed.
  - destruct (startsIn cls s) eqn:Es; [exact IH|].
    cbn [append includes]. rewrite IH, orb_false_r.
    cbn [startsWith]. rewrite Ascii.eqb_refl. cbn [andb].
    pose proof (replaceRuns_starts cls h s Hh) as S. rewrite Es in S.
    destruct (replaceRuns cls (String h EmptyString) s) as [|e r]; [reflexivity|].
    cbn [startsIn] in S. cbn [startsWith].
    destruct (Ascii.eqb h e) eqn:E; [|reflexivity].
    apply Ascii.eqb_eq in E. subst e. congruence.
  - cbn [includes]. rewrite IH, orb_false_r. cbn [startsWith].
    destruct (Ascii.eqb h d) eqn:E; [|reflexivity].
    apply Ascii.eqb_eq in E. subst d. congruence.
Qed.

Lemma includes_trimStart (t s : string) :
  includes t s = false -> includes t (trimStart s) = false.
Proof.
  induction s as [|c s IH]; cbn [trimStart]; [trivial|].
  destruct (isWhiteSpace c); [|trivial].
  cbn [includes]. intros H. apply orb_false_iff in H. apply IH, H.
Qed.

Lemma startsWith_app (t a w : string) :
  startsWith t a = true -> startsWith t (a ++ w) = true.
Proof.
  revert a. induction t as [|c t IH]; intros [|d a]; cbn [startsWith append];
    try reflexivity; try discriminate.
  intros H. apply andb_true_iff in H. destruct H as [H1 H2].
  now rewrite H1, (IH a H2).
Qed.

Lemma includes_app (t a w : string) :
  includes t a = true -> includes t (a ++ w) = true.
Proof.
  induction a as [|c a IH].
  - cbn [includes]. rewrite orb_false_r. intros H.
    destruct t; [|discriminate H]. destruct w; reflexivity.
  - cbn [includes append]. intros H. apply orb_true_iff in H. destruct H as [H|H].
    + change (String c (a ++ w)) with (String c a ++ w).
      rewrite (startsWith_app _ _ w H). reflexivity.
    + rewrite (IH H). apply orb_true_r.
Qed.

Lemma includes_trim (t s : string) : includes t s = false -> includes t (trim s) = false.
Proof.
  intros H. unfold trim. destruct (trimEnd_prefix (trimStart s)) as [w E].
  apply (includes_trimStart t) in H.
  destruct (includes t (trimEnd (trimStart s))) eqn:I; [|reflexivity].
  apply (includes_app _ _ w) in I. rewrite <- E in I. congruence.
Qed.

(** *** File names *)

Lemma sanitize_chars (str : string) (c : ascii) :
  In c (chars (Phase7Generator.sanitize str)) ->
  Phase7Generator.fileNameIllegal c = false /\ (isWhiteSpace c = true -> c = " "%char).
Proof.
  unfold Phase7Generator.sanitize. intros H. apply chars_trim, replaceRuns_chars in H.
  destruct H as [[H W]|[<-|[]]].
  - apply chars_removeChars in H. split; [tauto | congruence].
  - split; reflexivity.
Qed.

(** X22 (src/main.ts) [generateFileName]: whatever the volume name and the
    issue number, the file name holds none of the characters
    [< > : double-quote / \ | ? *], and no white space but the space. *)
Theorem earlier_generateFileName_legal (volumeName issueNumber : string) :
  Forall (fun c => Phase7Generator.fileNameIllegal c = false
                   /\ (isWhiteSpace c = true -> c = " "%char))
    (chars (Phase7Generator.generateFileName volumeName issueNumber)).
Proof.
  apply Forall_forall. intros c. unfold Phase7Generator.generateFileName.
  rewrite !chars_app. intros H.
  apply in_app_or in H. destruct H as [H|H]; [now apply sanitize_chars in H|].
  apply in_app_or in H. destruct H as [H|H].
  { cbn in H. destruct H as [<-|[<-|[]]]; split; try reflexivity; discriminate. }
  apply in_app_or in H. destruct H as [H|H].
  { unfold padStart in H. rewrite chars_app in H. apply in_app_or in H.
    destruct H as [H|H]; [|now apply sanitize_chars in H].
    apply chars_repeatChar in H. subst c. split; [reflexivity | discriminate]. }
  cbn in H. destruct H as [<-|[<-|[<-|[]]]]; split; try reflexivity; discriminate.
Qed.

(** *** Link texts *)

Lemma chars_removeBracketPairs (s : string) (c : ascii) :
  In c (chars (removeBracketPairs s)) -> In c (chars s).
Proof.
  assert (G : forall n s, String.length s <= n ->
                In c (chars (removeBracketPairs s)) -> In c (chars s)).
  { clear s. induction n as [|n IH]; intros [|a [|b r]]; cbn [String.length];
      intros L; try lia; try (intros H; exact H).
    cbn [removeBracketPairs].
    destruct ((Ascii.eqb a "[" && Ascii.eqb b "[") || (Ascii.eqb a "]" && Ascii.eqb b "]")).
    - intros H. cbn [chars In]. right. right. apply (IH r); [lia | exact H].
    - cbn [chars In]. intros [H|H]; [now left|]. right.
      apply (IH (String b r)); [cbn [String.length]; lia | exact H]. }
  apply (G (String.length s)). lia.
Qed.

Lemma replaceChar_chars (x : ascii) (rep s : string) (c : ascii) :
  In c (chars (replaceChar x rep s)) ->
  (In c (chars s) /\ c <> x) \/ In c (chars rep).
Proof.
  induction s as [|d s IH]; cbn [replaceChar chars]; [intros []|].
  destruct (Ascii.eqb d x) eqn:Ed.
  - rewrite chars_app. intros H. apply in_app_or in H. cbn [In].
    destruct H as [H|H]; [tauto|]. apply IH in H. tauto.
  - apply Ascii.eqb_neq in Ed. cbn [chars In]. intros [<-|H]; [tauto|].
    apply IH in H. tauto.
Qed.

(** X23 (src/main.ts) [cleanForWikilink] of the earlier plug-in: the result
    holds no [|], its only white space is the space, never two in a row, and
    it neither starts nor ends with one. *)
Theorem earlier_cleanForWikilink_tidy (text : string) :
  lacks "|" (Phase7Generator.cleanForWikilink text)
  /\ Forall (fun c => isWhiteSpace c = true -> c = " "%char)
       (chars (Phase7Generator.cleanForWikilink text))
  /\ includes "  " (Phase7Generator.cleanForWikilink text) = false
  /\ startsClean (Phase7Generator.cleanForWikilink text)
  /\ endsClean (Phase7Generator.cleanForWikilink text).
Proof.
  unfold Phase7Generator.cleanForWikilink. repeat split.
  - intros H. apply chars_trim, replaceRuns_chars in H.
    destruct H as [[H _]|[H|[]]]; [|discriminate H].
    apply chars_removeBracketPairs, replaceChar_chars in H.
    destruct H as [[_ H]|H]; [now apply H|].
    cbn in H. destruct H as [H|[H|[H|[]]]]; discriminate H.
  - apply Forall_forall. intros c H. apply chars_trim, replaceRuns_chars in H.
    destruct H as [[_ H]|[<-|[]]]; [congruence | reflexivity].
  - apply includes_trim. apply (replaceRuns_no_pair isWhiteSpace " "). reflexivity.
  - apply trim_startsClean.
  - apply trim_endsClean.
Qed.

End EarlierNames.

Section EarlierTags.
Import JS Text Props NoteProps.

Ltac by_char c :=
  destruct c as [[] [] [] [] [] [] [] []]; vm_compute;
  try reflexivity; try discriminate; auto.

Local Abbreviation isHyphen := Phase7Generator.isHyphen.
Local Abbreviation endsIn := Phase7Generator.endsIn.

Lemma dropLeading_chars (cls : ascii -> bool) (s : string) (c : ascii) :
  In c (chars (dropLeading cls s)) -> In c (chars s).
Proof.
  induction s as [|d s IH]; cbn [dropLeading]; [trivial|].
  destruct (cls d); [|trivial]. intros H. right. apply IH, H.
Qed.

Lemma dropTrailing_chars (cls : ascii -> bool) (s : string) (c : ascii) :
  In c (chars (dropTrailing cls s)) -> In c (chars s).
Proof.
  induction s as [|d s IH]; cbn [dropTrailing]; [trivial|].
  destruct (dropTrailing cls s) as [|e r].
  - destruct (cls d); [intros [] | intros [H|[]]; now left].
  - cbn [chars In] in *. intros [H|H]; [now left | right; apply IH, H].
Qed.

Lemma dropLeading_starts (cls : ascii -> bool) (s : string) :
  startsIn cls (dropLeading cls s) = false.
Proof.
  induction s as [|d s IH]; cbn [dropLeading]; [reflexivity|].
  destruct (cls d) eqn:E; [exact IH | exact E].
Qed.

Lemma dropTrailing_starts (cls : ascii -> bool) (s : string) :
  startsIn cls s = false -> startsIn cls (dropTrailing cls s) = false.
Proof.
  destruct s as [|d s]; cbn [dropTrailing startsIn]; [trivial|].
  intros E. destruct (dropTrailing cls s); [rewrite E|]; cbn; trivial.
Qed.

Lemma dropTrailing_ends (cls : ascii -> bool) (s : string) :
  endsIn cls (dropTrailing cls s) = false.
Proof.
  induction s as [|d s IH]; cbn [dropTrailing]; [reflexivity|].
  destruct (dropTrailing cls s) as [|e r] eqn:E.
  - destruct (cls d) eqn:Ed; cbn; [reflexivity | exact Ed].
  - exact IH.
Qed.

Lemma dropLeading_fixed (cls : ascii -> bool) (s : string) :
  startsIn cls s = false -> dropLeading cls s = s.
Proof. destruct s as [|d s]; cbn; [trivial|]. now intros ->. Qed.

Lemma dropTrailing_fixed (cls : ascii -> bool) (s : string) :
  endsIn cls s = false -> dropTrailing cls s = s.
Proof.
  induction s as [|d s IH]; cbn [dropTrailing]; [trivial|].
  destruct s as [|e r].
  - cbn. now intros ->.
  - intros H. rewrite (IH H). reflexivity.
Qed.

Lemma endsIn_cons (cls : ascii -> bool) (c : ascii) (r : string) :
  r <> EmptyString -> endsIn cls (String c r) = endsIn cls r.
Proof. destruct r; [contradiction | reflexivity]. Qed.

Lemma replaceRuns_nonempty (cls : ascii -> bool) (h : ascii) (s : string) :
  s <> EmptyString -> replaceRuns cls (String h EmptyString) s <> EmptyString.
Proof.
  induction s as [|d s IH]; [contradiction|]. intros _. cbn [replaceRuns].
  destruct (cls d); [|discriminate].
  destruct (startsIn cls s) eqn:E; [|discriminate].
  apply IH. destruct s; [discriminate E | discriminate].
Qed.

Lemma replaceRuns_ends (cls : ascii -> bool) (h : ascii) (s : string) :
  cls h = true ->
  endsIn cls (replaceRuns cls (String h EmptyString) s) = endsIn cls s.
Proof.
  intros Hh. induction s as [|d s IH]; [reflexivity|].
  destruct s as [|e r].
  - cbn. destruct (cls d) eqn:Ed; cbn; congruence.
  - assert (N : String e r <> EmptyString) by discriminate.
    rewrite (endsIn_cons cls d _ N), <- IH.
    pose proof (replaceRuns_nonempty cls h _ N) as F.
    cbn [replaceRuns]. fold (replaceRuns cls (String h EmptyString) (String e r)).
    destruct (cls d).
    + destruct (startsIn cls (String e r)); [reflexivity|].
      cbn [append]. apply endsIn_cons, F.
    + apply endsIn_cons, F.
Qed.

Lemma replaceRuns_single (h : ascii) (s : string) :
  includes (String h (String h EmptyString)) s = false ->
  replaceRuns (fun c => Ascii.eqb c h) (String h EmptyString) s = s.
Proof.
  induction s as [|d s IH]; [reflexivity|].
  cbn [includes]. intros H. apply orb_false_iff in H. destruct H as [H1 H2].
  cbn [replaceRuns]. rewrite (IH H2).
  destruct (Ascii.eqb d h) eqn:Ed; [|reflexivity].
  apply Ascii.eqb_eq in Ed. subst d.
  cbn [startsWith] in H1. rewrite Ascii.eqb_refl in H1. cbn [andb] in H1.
  destruct s as [|e r]; [reflexivity|]. cbn [startsIn startsWith] in *.
  rewrite andb_true_r, Ascii.eqb_sym in H1. now rewrite H1.
Qed.

Lemma startsWith_char (h : ascii) (s : string) :
  startsWith (String h EmptyString) s = startsIn (fun c => Ascii.eqb c h) s.
Proof.
  destruct s as [|c s]; cbn; [reflexivity|]. now rewrite andb_true_r, Ascii.eqb_sym.
Qed.

Lemma endsWith_char (h : ascii) (s : string) :
  endsWith (String h EmptyString) s = endsIn (fun c => Ascii.eqb c h) s.
Proof.
  induction s as [|c s IH]; [reflexivity|].
  cbn [endsWith]. rewrite IH. destruct s as [|e r].
  - cbn. rewrite orb_false_r. cbn [String.eqb]. rewrite Ascii.eqb_sym.
    destruct (Ascii.eqb c h); reflexivity.
  - change (endsIn (fun c0 => Ascii.eqb c0 h) (String c (String e r)))
      with (endsIn (fun c0 => Ascii.eqb c0 h) (String e r)).
    cbn [String.eqb]. destruct (Ascii.eqb h c); reflexivity.
Qed.

Lemma tagOrSpace_lower (c : ascii) :
  Phase7Generator.tagOrSpace c = true -> isWhiteSpace c = false ->
  isLower (toLowerCaseChar c) || isDigit (toLowerCaseChar c)
  || Ascii.eqb (toLowerCaseChar c) "-" = true.
Proof. by_char c. Qed.

Lemma tag_char_fixed (c : ascii) :
  isLower c || isDigit c || Ascii.eqb c "-" = true ->
  Phase7Generator.tagOrSpace c = true /\ isWhiteSpace c = false
  /\ toLowerCaseChar c = c.
Proof. by_char c. Qed.

(** The tag before the last step: what is left when it is not empty. *)
Lemma tag_valid (text : string) :
  let tag :=
    replaceRuns isHyphen "-"
      (dropTrailing isHyphen
         (dropLeading isHyphen
            (toLowerCase
               (replaceRuns isWhiteSpace "-"
                  (removeChars (fun c => negb (Phase7Generator.tagOrSpace c)) text))))) in
  Forall (fun c => isLower c || isDigit c || Ascii.eqb c "-" = true) (chars tag)
  /\ startsIn isHyphen tag = false
  /\ endsIn isHyphen tag = false
  /\ includes "--" tag = false.
Proof.
  intros tag. unfold tag. repeat split.
  - apply Forall_forall. intros c H. apply replaceRuns_chars in H.
    destruct H as [[H _]|[<-|[]]]; [|reflexivity].
    apply dropTrailing_chars, dropLeading_chars in H.
    unfold toLowerCase in H. rewrite chars_mapChars in H.
    apply in_map_iff in H. destruct H as [d [<- H]].
    apply replaceRuns_chars in H. destruct H as [[H W]|[<-|[]]]; [|reflexivity].
    apply chars_removeChars in H. destruct H as [H _].
    apply tagOrSpace_lower; [now apply negb_false_iff | exact W].
  - rewrite (replaceRuns_starts isHyphen "-") by reflexivity.
    apply dropTrailing_starts, dropLeading_starts.
  - rewrite (replaceRuns_ends isHyphen "-") by reflexivity.
    apply dropTrailing_ends.
  - apply (replaceRuns_no_pair isHyphen "-"). reflexivity.
Qed.

Lemma tag_fixed (t : string) :
  t <> EmptyString ->
  Forall (fun c => isLower c || isDigit c || Ascii.eqb c "-" = true) (chars t) ->
  startsIn isHyphen t = false -> endsIn isHyphen t = false ->
  includes "--" t = false ->
  Phase7Generator.sanitizeForTag t = t.
Proof.
  intros N A S E P. unfold Phase7Generator.sanitizeForTag.
  rewrite (removeChars_fixed _ t).
  2: { eapply Forall_impl; [|exact A]. intros c Hc.
       apply negb_false_iff. now apply tag_char_fixed. }
  rewrite (replaceRuns_fixed isWhiteSpace "-" t).
  2: { eapply Forall_impl; [|exact A]. intros c Hc. now apply tag_char_fixed. }
  unfold toLowerCase. rewrite (mapChars_fixed _ t).
  2: { eapply Forall_impl; [|exact A]. intros c Hc. now apply tag_char_fixed. }
  rewrite (dropLeading_fixed _ _ S), (dropTrailing_fixed _ _ E).
  unfold Phase7Generator.isHyphen. rewrite (replaceRuns_single "-" t P).
  destruct t; [contradiction | reflexivity].
Qed.

(** X24 (src/main.ts) [sanitizeForTag] of the earlier plug-in always gives
    a well-formed tag: it is never empty, it holds only [a-z], [0-9] and
    [-], it neither starts nor ends with a hyphen and never holds two
    hyphens in a row; and sanitising a tag again changes nothing. *)
Theorem earlier_sanitizeForTag_well_formed (text : string) :
  Phase7Generator.sanitizeForTag text <> EmptyString
  /\ Forall (fun c => isLower c || isDigit c || Ascii.eqb c "-" = true)
       (chars (Phase7Generator.sanitizeForTag text))
  /\ startsWith "-" (Phase7Generator.sanitizeForTag text) = false
  /\ endsWith "-" (Phase7Generator.sanitizeForTag text) = false
  /\ includes "--" (Phase7Generator.sanitizeForTag text) = false
  /\ Phase7Generator.sanitizeForTag (Phase7Generator.sanitizeForTag text)
     = Phase7Generator.sanitizeForTag text.
Proof.
  rewrite startsWith_char, endsWith_char.
  change (fun c => Ascii.eqb c "-") with Phase7Generator.isHyphen.
  pose proof (tag_valid text) as V. cbv zeta in V.
  unfold Phase7Generator.sanitizeForTag at 1 2 3 4 5 7 8.
  destruct (isEmpty _) eqn:E.
  - repeat split; try reflexivity; try discriminate.
    repeat constructor.
  - destruct V as [A [S [En P]]].
    assert (N : replaceRuns isHyphen "-"
                  (dropTrailing isHyphen
                     (dropLeading isHyphen
                        (toLowerCase
                           (replaceRuns isWhiteSpace "-"
                              (removeChars (fun c => negb (Phase7Generator.tagOrSpace c))
                                 text))))) <> EmptyString).
    { intros H. rewrite H in E. discriminate. }
    split; [exact N|]. split; [exact A|]. split; [exact S|]. split; [exact En|].
    split; [exact P|].
    apply tag_fixed; assumption.
Qed.

End EarlierTags.

Section EarlierQuoting.
Import JS Text Props NoteProps.

Local Abbreviation quote := Phase7Generator.quoteYamlString.

Lemma join_head (sep w : string) (d : ascii) (ws : list string) :
  join sep (String d w :: ws) = String d (join sep (w :: ws)).
Proof. destruct ws; reflexivity. Qed.

Lemma join_split_replace (c : ascii) (rest s : string) :
  join (String c rest) (split c s) = replaceChar c (String c rest) s.
Proof.
  induction s as [|d s IH]; [reflexivity|].
  cbn [split replaceChar]. destruct (Ascii.eqb d c) eqn:E.
  - rewrite join_cons by apply split_not_nil. cbn [append]. now rewrite IH.
  - destruct (split c s) as [|w ws] eqn:Es; [now apply split_not_nil in Es|].
    rewrite join_head. now rewrite IH.
Qed.

(** Writing something after every [c] loses nothing. *)
Lemma replaceChar_suffix_inj (c : ascii) (rest s t : string) :
  replaceChar c (String c rest) s = replaceChar c (String c rest) t -> s = t.
Proof.
  revert t. induction s as [|a s IH]; intros [|b t]; cbn [replaceChar append].
  - reflexivity.
  - destruct (Ascii.eqb b c); discriminate.
  - destruct (Ascii.eqb a c); discriminate.
  - destruct (Ascii.eqb a c) eqn:Ea, (Ascii.eqb b c) eqn:Eb.
    + apply Ascii.eqb_eq in Ea, Eb. subst. intros [= H].
      apply append_inj in H. f_equal. apply IH, H.
    + apply Ascii.eqb_eq in Ea. subst a. intros [= <- _].
      now rewrite Ascii.eqb_refl in Eb.
    + apply Ascii.eqb_eq in Eb. subst b. intros [= -> _].
      now rewrite Ascii.eqb_refl in Ea.
    + intros [= -> H]. f_equal. apply IH, H.
Qed.

Lemma plain_start (v : string) (c : ascii) (r : string) :
  Phase7Generator.needsQuoting v = false -> v = String c r ->
  Phase7Generator.special c = false.
Proof.
  intros H ->. unfold Phase7Generator.needsQuoting in H.
  do 5 (apply orb_false_iff in H; destruct H as [H _]).
  cbn [chars existsb] in H. apply orb_false_iff in H. tauto.
Qed.

(** The three forms a value can get, and why they never meet. *)
Lemma quote_forms (v : string) :
  (quote (Some v) = v /\ Phase7Generator.needsQuoting v = false)
  \/ (v <> EmptyString
      /\ exists body : string,
           (quote (Some v) = String "|" body
            /\ body = String lineFeed ("  " ++ replaceChar lineFeed (String lineFeed "  ") v))
           \/ (quote (Some v) = String dquote body
               /\ body = replaceChar dquote (String "\" (String dquote EmptyString))
                           (replaceChar "\" (String "\" (String "\" EmptyString)) v)
                         ++ String dquote EmptyString)).
Proof.
  cbn [Phase7Generator.quoteYamlString].
  destruct (negb (Phase7Generator.needsQuoting v) && negb (startsWith "[[" v)) eqn:E.
  - left. split; [reflexivity|]. apply andb_true_iff in E. destruct E as [E _].
    now apply negb_true_iff.
  - right. split; [intros ->; discriminate E|].
    destruct (has lineFeed v).
    + eexists. left. split; [reflexivity|]. now rewrite join_split_replace.
    + eexists. right. split; reflexivity.
Qed.

(** X25 (src/main.ts) [quoteYamlString] of the earlier plug-in never gives
    two different values the same text: plain, block and double-quoted
    results cannot be taken for one another, and the escaping inside each
    form loses nothing.  A missing value and the empty text are told apart
    too. *)
Theorem earlier_quoteYamlString_injective (a b : option string) :
  Phase7Generator.quoteYamlString a = Phase7Generator.quoteYamlString b <-> a = b.
Proof.
  split; [|now intros ->].
  assert (Empty : forall v,
            replaceChar dquote (String "\" (String dquote EmptyString))
              (replaceChar "\" (String "\" (String "\" EmptyString)) v) = EmptyString ->
            v = EmptyString).
  { intros v H. apply (replaceChar_suffix_inj "\" "\").
    apply (replaceChar_prefix_inj dquote "\"); [discriminate | exact H]. }
  assert (NoneSome : forall v, quote None = quote (Some v) -> False).
  { intros v H.
    change (quote None) with (String dquote (String dquote EmptyString)) in H.
    destruct (quote_forms v) as [[E P]|[N [body [[E B]|[E B]]]]]; rewrite E in H.
    - subst v. discriminate P.
    - discriminate H.
    - injection H as H. rewrite B in H.
      apply (append_cancel_r EmptyString) in H. symmetry in H.
      apply N, Empty, H. }
  assert (PlainOther : forall u body c,
            Phase7Generator.needsQuoting u = false ->
            Phase7Generator.special c = true -> u = String c body -> False).
  { intros u body c P S E. rewrite (plain_start u c body P E) in S. discriminate. }
  destruct a as [u|], b as [v|]; intros H.
  - f_equal.
    destruct (quote_forms u) as [[Eu Pu]|[Nu [bu [[Eu Bu]|[Eu Bu]]]]];
      destruct (quote_forms v) as [[Ev Pv]|[Nv [bv [[Ev Bv]|[Ev Bv]]]]];
      rewrite Eu, Ev in H.
    + exact H.
    + exfalso. apply (PlainOther u bv "|"%char Pu eq_refl H).
    + exfalso. apply (PlainOther u bv dquote Pu eq_refl H).
    + exfalso. symmetry in H. apply (PlainOther v bu "|"%char Pv eq_refl H).
    + injection H as H. rewrite Bu, Bv in H. injection H as H.
      apply (replaceChar_suffix_inj lineFeed "  "), H.
    + discriminate H.
    + exfalso. symmetry in H. apply (PlainOther v bu dquote Pv eq_refl H).
    + discriminate H.
    + injection H as H. rewrite Bu, Bv in H. apply append_cancel_r in H.
      apply (replaceChar_prefix_inj dquote "\") in H; [|discriminate].
      apply (replaceChar_suffix_inj "\" "\"), H.
  - exfalso. symmetry in H. apply (NoneSome u H).
  - exfalso. apply (NoneSome v H).
  - reflexivity.
Qed.

End EarlierQuoting.

(* ================================================================= *)
(** ** The header of an issue note *)

Section IssueHeader.
Import JS Text Store Revised Engine Generator Props NoteProps.

(** The text of a member is no name of a member, and no semantic key. *)
Lemma memberText_other (name : string) :
  member (memberText name) = false /\ ~ In (memberText name) ontologyKeys.
Proof.
  unfold memberText. destruct (String.eqb name "__proto__").
  - split; [reflexivity|]. cbn. intuition discriminate.
  - split; [reflexivity|]. cbn. intuition discriminate.
Qed.

(** What indexes [ontologyCreators] and the header is never the name of a
    member of [Object.prototype]: what is read there is the object's own. *)
Lemma propertyKey_own (role : string) :
  member (propertyKey (mapRoleToOntologyKey role)) = false.
Proof.
  unfold mapRoleToOntologyKey, getProperty.
  destruct (lookup (trim (toLowerCase role)) mapping) as [key|] eqn:E.
  - apply lookup_In in E. cbn [mapping In] in E.
    repeat (destruct E as [E|E]; [injection E as _ <-; reflexivity|]).
    contradiction.
  - destruct (existsb _ objectPrototype); [|reflexivity].
    apply memberText_other.
Qed.

Lemma propertyKey_semantic (role key : string) :
  In key ontologyKeys ->
  propertyKey (mapRoleToOntologyKey role) = key <-> mapRoleToOntologyKey role = Key key.
Proof.
  intros Hk. destruct (mapRoleToOntologyKey role) as [k|name]; cbn [propertyKey].
  - split; congruence.
  - split; [|discriminate]. intros E. rewrite <- E in Hk.
    now apply memberText_other in Hk.
Qed.

(** *** Sets and sorted keys *)

Lemma setAdd_In (seen : list string) (x y : string) :
  In y (setAdd seen x) <-> In y seen \/ y = x.
Proof.
  unfold setAdd. destruct (existsb (String.eqb x) seen) eqn:E.
  - apply existsb_In in E. split; [tauto | intros [H| ->]; assumption].
  - rewrite in_app_iff. cbn [In]. split; intros [H|H]; try tauto.
    + destruct H as [<-|[]]. now right.
    + right. left. now symmetry.
Qed.

Lemma setAdd_NoDup (seen : list string) (x : string) :
  NoDup seen -> NoDup (setAdd seen x).
Proof.
  intros N. unfold setAdd. destruct (existsb (String.eqb x) seen) eqn:E; [exact N|].
  apply NoDup_app; [exact N | repeat constructor; intros [] |].
  intros y Hy [<-|[]]. apply existsb_In in Hy. congruence.
Qed.

Lemma setAdd_all_In (xs : list string) :
  forall seen y, In y (fold_left setAdd xs seen) <-> In y seen \/ In y xs.
Proof.
  induction xs as [|x xs IH]; intros seen y; cbn [fold_left In]; [tauto|].
  rewrite IH, setAdd_In. split; intros H; intuition (subst; auto).
Qed.

Lemma setAdd_all_NoDup (xs : list string) :
  forall seen, NoDup seen -> NoDup (fold_left setAdd xs seen).
Proof.
  induction xs as [|x xs IH]; intros seen N; cbn [fold_left]; [exact N|].
  apply IH, setAdd_NoDup, N.
Qed.

Lemma insertWith_In {A} (compare : A -> A -> Z) (x y : A) (l : list A) :
  In y (insertWith compare x l) <-> y = x \/ In y l.
Proof.
  induction l as [|z l IH]; cbn [insertWith In]; [intuition|].
  destruct (compare x z <=? 0)%Z; cbn [In]; [intuition|]. rewrite IH. intuition.
Qed.

Lemma sortWith_In {A} (compare : A -> A -> Z) (y : A) (l : list A) :
  In y (sortWith compare l) <-> In y l.
Proof.
  unfold sortWith. induction l as [|x l IH]; cbn [fold_right In]; [tauto|].
  rewrite insertWith_In, IH. intuition.
Qed.

Lemma ownKeys_In {A} (o : list (string * A)) (k : string) :
  In k (ownKeys o) <-> In k (map fst o).
Proof.
  unfold ownKeys. rewrite in_app_iff, sortWith_In, !filter_In.
  destruct (isArrayIndex k); cbn [negb]; intuition discriminate.
Qed.

Lemma keys_lookup {A} (o : list (string * A)) (k : string) :
  In k (map fst o) <-> lookup k o <> None.
Proof.
  induction o as [|[q v] o IH]; cbn [map fst In lookup]; [intuition|].
  destruct (String.eqb q k) eqn:E.
  - apply String.eqb_eq in E. split; [discriminate | now left].
  - apply String.eqb_neq in E. rewrite <- IH. intuition.
Qed.

(** *** The sets of links *)

Lemma addLinks_lookup (key : string) (links : list string) :
  forall (oc : list (string * list string)) (ps : list string) (k : string),
  lookup key oc = Some ps ->
  lookup k
    (fold_left
       (fun oc link =>
          match lookup key oc with
          | Some people => assign key (setAdd people link) oc
          | None => oc
          end) links oc)
  = if String.eqb key k then Some (fold_left setAdd links ps) else lookup k oc.
Proof.
  induction links as [|x links IH]; intros oc ps k H; cbn [fold_left].
  - destruct (String.eqb key k) eqn:E; [|reflexivity].
    apply String.eqb_eq in E. now subst.
  - rewrite H. rewrite (IH _ (setAdd ps x)) by apply lookup_assign_same.
    destruct (String.eqb key k) eqn:E; [reflexivity|].
    rewrite lookup_assign, E. reflexivity.
Qed.

Lemma addPeople_lookup (oc creators : list (string * list string)) (role k : string) :
  lookup k (addPeople oc creators role)
  = if String.eqb (propertyKey (mapRoleToOntologyKey role)) k
    then Some (fold_left setAdd (map wikilink (peopleOf creators role))
                 (match lookup k oc with Some ps => ps | None => [] end))
    else lookup k oc.
Proof.
  unfold addPeople, peopleOf. set (key := propertyKey (mapRoleToOntologyKey role)).
  set (people := match lookup role creators with Some p => p | None => [] end).
  set (oc1 := match lookup key oc with Some _ => oc | None => assign key [] oc end).
  assert (E1 : lookup key oc1
               = Some (match lookup key oc with Some ps => ps | None => [] end)).
  { unfold oc1. destruct (lookup key oc) eqn:E; [exact E | apply lookup_assign_same]. }
  assert (E2 : forall q, String.eqb key q = false -> lookup q oc1 = lookup q oc).
  { intros q Hq. unfold oc1. destruct (lookup key oc); [reflexivity|].
    now rewrite lookup_assign, Hq. }
  assert (F : forall (l : list string) o,
            fold_left
              (fun oc0 person =>
                 match lookup key oc0 with
                 | Some people0 => assign key (setAdd people0 (wikilink person)) oc0
                 | None => oc0
                 end) l o
            = fold_left
                (fun oc0 link =>
                   match lookup key oc0 with
                   | Some people0 => assign key (setAdd people0 link) oc0
                   | None => oc0
                   end) (map wikilink l) o).
  { induction l as [|x l IHl]; intros o; cbn [fold_left map]; [reflexivity | apply IHl]. }
  rewrite F, (addLinks_lookup key _ oc1 _ k E1).
  destruct (String.eqb key k) eqn:E.
  - apply String.eqb_eq in E. now subst k.
  - apply E2, E.
Qed.

Lemma gather_none (creators : list (string * list string)) (k : string)
    (roles : list string) (init : list string) :
  existsb (fun role => String.eqb (propertyKey (mapRoleToOntologyKey role)) k) roles = false ->
  gather creators k roles init = init.
Proof.
  unfold gather. revert init.
  induction roles as [|role roles IH]; intros init; cbn [fold_left existsb]; [trivial|].
  intros H. apply orb_false_iff in H. destruct H as [H1 H2]. rewrite H1. apply IH, H2.
Qed.

Lemma ontologyCreators_lookup (creators : list (string * list string)) (k : string)
    (roles : list string) :
  forall oc,
  lookup k (fold_left (fun oc role => addPeople oc creators role) roles oc)
  = if existsb (fun role => String.eqb (propertyKey (mapRoleToOntologyKey role)) k) roles
    then Some (gather creators k roles
                 (match lookup k oc with Some ps => ps | None => [] end))
    else lookup k oc.
Proof.
  induction roles as [|role roles IH]; intros oc; [reflexivity|].
  cbn [fold_left existsb]. rewrite IH, addPeople_lookup.
  unfold gather at 2. cbn [fold_left].
  fold (gather creators k roles
          (if String.eqb (propertyKey (mapRoleToOntologyKey role)) k
           then fold_left setAdd (map wikilink (peopleOf creators role))
                  (match lookup k oc with Some ps => ps | None => [] end)
           else match lookup k oc with Some ps => ps | None => [] end)).
  destruct (String.eqb (propertyKey (mapRoleToOntologyKey role)) k) eqn:E; cbn [orb].
  - destruct (existsb _ roles) eqn:Er; [reflexivity|].
    now rewrite (gather_none _ _ _ _ Er).
  - reflexivity.
Qed.

Lemma gather_In (creators : list (string * list string)) (k : string)
    (roles : list string) :
  forall init link,
  In link (gather creators k roles init)
  <-> In link init
      \/ exists role name,
           In role roles /\ In name (peopleOf creators role)
           /\ propertyKey (mapRoleToOntologyKey role) = k /\ link = wikilink name.
Proof.
  unfold gather. induction roles as [|role roles IH]; intros init link; cbn [fold_left].
  - split; [tauto | intros [H|[r [n [[] _]]]]; exact H].
  - rewrite IH. destruct (String.eqb (propertyKey (mapRoleToOntologyKey role)) k) eqn:E.
    + apply String.eqb_eq in E. rewrite setAdd_all_In, in_map_iff. split.
      * intros [[H|[n [<- Hn]]]|[r [n [Hr H]]]].
        -- now left.
        -- right. exists role, n. cbn [In]. tauto.
        -- right. exists r, n. cbn [In]. tauto.
      * intros [H|[r [n [[<-|Hr] [Hn [Hk ->]]]]]].
        -- tauto.
        -- left. right. now exists n.
        -- right. exists r, n. tauto.
    + apply String.eqb_neq in E. split.
      * intros [H|[r [n [Hr H]]]]; [now left|]. right. exists r, n. cbn [In]. tauto.
      * intros [H|[r [n [[<-|Hr] [Hn [Hk ->]]]]]]; [tauto | contradiction|].
        right. exists r, n. tauto.
Qed.

Lemma gather_NoDup (creators : list (string * list string)) (k : string)
    (roles : list string) :
  forall init, NoDup init -> NoDup (gather creators k roles init).
Proof.
  unfold gather. induction roles as [|role roles IH]; intros init N; cbn [fold_left];
    [exact N|].
  apply IH. destruct (String.eqb (propertyKey (mapRoleToOntologyKey role)) k); [|exact N].
  apply setAdd_all_NoDup, N.
Qed.

Lemma setCreators_lookup (oc : list (string * list string)) (k : string)
    (keys : list string) :
  forall fm : Frontmatter,
  lookup k
    (fold_left
       (fun fm key =>
          match lookup key oc with
          | Some people => assign key (YList (map YStr people)) fm
          | None => fm
          end) keys fm)
  = match lookup k oc with
    | Some people => if existsb (String.eqb k) keys
                     then Some (YList (map YStr people)) else lookup k fm
    | None => lookup k fm
    end.
Proof.
  induction keys as [|key keys IH]; intros fm; cbn [fold_left existsb].
  - destruct (lookup k oc); reflexivity.
  - rewrite IH. destruct (lookup k oc) as [people|] eqn:Ek.
    + destruct (String.eqb k key) eqn:E; cbn [orb].
      * apply String.eqb_eq in E. subst key. rewrite Ek, lookup_assign_same.
        destruct (existsb _ keys); reflexivity.
      * destruct (existsb _ keys); [reflexivity|].
        destruct (lookup key oc); [|reflexivity].
        rewrite lookup_assign, String.eqb_sym, E. reflexivity.
    + destruct (lookup key oc) eqn:E'; [|reflexivity].
      rewrite lookup_assign. destruct (String.eqb key k) eqn:E; [|reflexivity].
      apply String.eqb_eq in E. subst. congruence.
Qed.

Lemma credits_in_header (fm : Frontmatter) (creators : list (string * list string))
    (k : string) :
  lookup k (setCreators fm (ontologyCreators creators))
  = if existsb (fun role => String.eqb (propertyKey (mapRoleToOntologyKey role)) k) (ownKeys creators)
    then Some (YList (map YStr (gather creators k (ownKeys creators) [])))
    else lookup k fm.
Proof.
  unfold setCreators. rewrite setCreators_lookup. unfold ontologyCreators.
  rewrite ontologyCreators_lookup. cbn [lookup].
  destruct (existsb _ (ownKeys creators)) eqn:E; [|reflexivity].
  match goal with |- (if ?b then _ else _) = _ => assert (K : b = true) end.
  { apply existsb_In, sortWith_In, ownKeys_In, keys_lookup.
    fold (ontologyCreators creators). unfold ontologyCreators.
    rewrite ontologyCreators_lookup, E. discriminate. }
  now rewrite K.
Qed.

Lemma listed_peopleOf (creators : list (string * list string)) (role name : string) :
  listed creators role name
  <-> In role (ownKeys creators) /\ In name (peopleOf creators role).
Proof.
  unfold listed, peopleOf. rewrite ownKeys_In, keys_lookup. split.
  - intros [people [E H]]. rewrite E. split; [discriminate | exact H].
  - intros [_ H]. destruct (lookup role creators) as [people|]; [|contradiction].
    now exists people.
Qed.

Section Header.
Variable host : Host.
Variable more : IssueSettings.
Variable catalogue : Catalogue.

(** X26 [generateIssueYAML] returns a header in which, for each of the
    semantic keys, the field is absent when no role of the issue maps to the
    key, and otherwise lists, each once, exactly the links of the people
    credited under the roles that map to it. *)
Theorem generateIssueYAML_credit_fields (data : ComicIssueData) (coverLink : string)
    (w : World) :
  exists frontmatter w',
    generateIssueYAML host more catalogue data coverLink w = Ok frontmatter w'
    /\ forall key, In key ontologyKeys ->
         ((forall role, In role (map fst (creators data)) ->
             mapRoleToOntologyKey role <> Key key)
          /\ lookup key frontmatter = None)
         \/ exists links,
              lookup key frontmatter = Some (YList (map YStr links))
              /\ NoDup links
              /\ forall link,
                   In link links
                   <-> exists role name,
                         listed (creators data) role name
                         /\ mapRoleToOntologyKey role = Key key
                         /\ link = wikilink name.
Proof.
  unfold generateIssueYAML, bind, nowISO, ret.
  eexists. eexists. split; [reflexivity|]. intros key Hk.
  match goal with
  | |- context [lookup key ?fm] =>
      match fm with
      | match storyArcs data with _ => _ end =>
          assert (E : lookup key fm
                      = if existsb (fun role => String.eqb (propertyKey (mapRoleToOntologyKey role)) key)
                             (ownKeys (creators data))
                        then Some (YList (map YStr
                                      (gather (creators data) key
                                         (ownKeys (creators data)) [])))
                        else None)
      end
  end.
  { destruct (storyArcs data) as [|a arcs], (characters data) as [|c cs];
      rewrite ?lookup_assign.
    all: cbn [ontologyKeys In] in Hk.
    all: repeat (destruct Hk as [<-|Hk];
                 [cbn [String.eqb Ascii.eqb Bool.eqb];
                  rewrite credits_in_header;
                  destruct (existsb _ (ownKeys (creators data))); [reflexivity|];
                  destruct (enableReadingTracker more), (isEmpty (deck data));
                  rewrite ?lookup_assign; reflexivity|]).
    all: contradiction. }
  rewrite E. clear E.
  destruct (existsb _ (ownKeys (creators data))) eqn:X.
  - right. exists (gather (creators data) key (ownKeys (creators data)) []).
    split; [reflexivity|]. split; [apply gather_NoDup; constructor|].
    intros link. rewrite gather_In. split.
    + intros [[]|[role [name [H1 [H2 [H3 H4]]]]]]. exists role, name.
      apply (propertyKey_semantic role key Hk) in H3.
      rewrite listed_peopleOf. tauto.
    + intros [role [name [H1 [H2 H3]]]]. right. exists role, name.
      apply (propertyKey_semantic role key Hk) in H2.
      apply listed_peopleOf in H1. tauto.
  - left. split; [|reflexivity]. intros role Hr Hm.
    apply (propertyKey_semantic role key Hk) in Hm.
    apply ownKeys_In in Hr.
    assert (existsb (fun role => String.eqb (propertyKey (mapRoleToOntologyKey role)) key)
              (ownKeys (creators data)) = true); [|congruence].
    apply existsb_exists. exists role. split; [exact Hr | now apply String.eqb_eq].
Qed.

End Header.

End IssueHeader.
